(** * CheckDP: a shallow embedding of the CEGIS core, the program
      transformer and its pre- and post-processing passes

    The definitions follow the Python sources function by function
    ([checkdp/core.py], [checkdp/transform/*.py]).  External collaborators
    (the C parser and printer, the computer-algebra simplifier, the
    symbolic executor) are parameters of the sections that use them. *)

From Stdlib Require Import ZArith Lia Bool.
From stdpp Require Import gmap strings list pretty.

Local Open Scope Z_scope.

Set Warnings "-register-all".

(** ** Values shared by several components *)

(** [Dict[str, Union[_Number, Sequence[_Number]]]]: the concretes handed to
    the driver and the models returned by the symbolic executor. *)
Inductive value : Type :=
  | VNum (n : Z)
  | VSeq (xs : list Z).

#[global] Instance value_eq_dec : EqDecision value.
Proof. solve_decision. Defined.

Abbreviation model := (gmap string value).

(** The exceptions the embedded code raises.  [RecursionError] is also
    what a definition by recursion on a bound returns when the bound is
    reached. *)
Inductive pyerror : Type :=
  | ValueError (msg : string)
  | NotImplementedError (msg : string)
  | TypeError (msg : string)
  | IndexError
  | KeyError (key : string)
  | AttributeError (msg : string)
  | RecursionError.

Inductive result (A : Type) : Type :=
  | Ok (a : A)
  | Raise (e : pyerror).
Arguments Ok {A} a.
Arguments Raise {A} e.

#[global] Instance result_ret : MRet result := fun _ a => Ok a.
#[global] Instance result_bind : MBind result := fun _ _ k m =>
  match m with
  | Ok a => k a
  | Raise e => Raise e
  end.

(** ** checkdp/transform/constants.py

    The module of reserved names is not among the sources; every function
    below takes its values as a parameter. *)
Record constants : Type := mkConstants {
  PREFIX : string;
  ALIGNED_DISTANCE : string;
  SHADOW_DISTANCE : string;
  V_EPSILON : string;
  SAMPLE_INDEX : string;
  SAMPLE_ARRAY : string;
  ALIGNMENT_ARRAY : string;
  RANDOM_DISTANCE : string;
  SELECTOR : string;
  SELECT_ALIGNED : string;
  SELECT_SHADOW : string;
  HOLE : string;
  SYMBOLIC_COST : string;
  ASSERT : string;
  ASSUME : string;
  OUTPUT : string;
  LAP : string
}.

(** The values the tests and the comments of the sources show
    ([CHECKDP_OUTPUT], [CHECKDP_v_epsilon]); used for the examples. *)
Definition checkdp_constants : constants :=
  {| PREFIX := "CHECKDP";
     ALIGNED_DISTANCE := "CHECKDP_ALIGNED_DISTANCE";
     SHADOW_DISTANCE := "CHECKDP_SHADOW_DISTANCE";
     V_EPSILON := "CHECKDP_v_epsilon";
     SAMPLE_INDEX := "CHECKDP_SAMPLE_INDEX";
     SAMPLE_ARRAY := "CHECKDP_SAMPLE_ARRAY";
     ALIGNMENT_ARRAY := "CHECKDP_ALIGNMENT_ARRAY";
     RANDOM_DISTANCE := "CHECKDP_RANDOM_DISTANCE";
     SELECTOR := "CHECKDP_SELECTOR";
     SELECT_ALIGNED := "0";
     SELECT_SHADOW := "1";
     HOLE := "CHECKDP_HOLE";
     SYMBOLIC_COST := "CHECKDP_SYMBOLIC_COST";
     ASSERT := "CHECKDP_ASSERT";
     ASSUME := "CHECKDP_ASSUME";
     OUTPUT := "CHECKDP_OUTPUT";
     LAP := "Lap" |}.

(** ** The syntax trees of pycparser ([c_ast])

    Only the node classes of the supported dialect are kept.  Field and
    constructor names are those of [c_ast]. *)

Inductive expr : Type :=
  | Constant (type value : string)
  | ID (name : string)
  | ArrayRef (name subscript : expr)
  | BinaryOp (op : string) (left_ right_ : expr)
  | UnaryOp (op : string) (e : expr)
  | TernaryOp (cond iftrue iffalse : expr)
  | FuncCall (name : expr) (args : option expr)
  | ExprList (exprs : list expr).

(** The [type] field of a [Decl]: [TypeDecl] and [ArrayDecl] carry the
    [names] of their [IdentifierType]. *)
Inductive decl_type : Type :=
  | TypeDecl (names : list string)
  | ArrayDecl (names : list string) (dim : option expr)
  | FuncDecl
  | PtrDecl.

(** Statements.  [Compound.block_items] is [None] for an empty pair of
    braces, as the parser leaves it. *)
Inductive stmt : Type :=
  | Assignment (op : string) (lvalue rvalue : expr)
  | Decl (name : string) (type : decl_type) (init : option expr)
  | If (cond : expr) (iftrue : stmt) (iffalse : option stmt)
  | While (cond : expr) (body : stmt)
  | Compound (block_items : option (list stmt))
  | ExprStmt (e : expr)
  | Return (e : option expr).

(** Structural induction on statements, through the lists of block
    items. *)
Section stmt_induction.
Context (P : stmt -> Prop).
Context (HAssignment : forall op l r, P (Assignment op l r)).
Context (HDecl : forall n t i, P (Decl n t i)).
Context (HIf : forall c t f, P t -> (forall f', f = Some f' -> P f') -> P (If c t f)).
Context (HWhile : forall c b, P b -> P (While c b)).
Context (HCompound : forall items,
            (forall l, items = Some l -> Forall P l) -> P (Compound items)).
Context (HExprStmt : forall e, P (ExprStmt e)).
Context (HReturn : forall e, P (Return e)).

Fixpoint stmt_induction (s : stmt) : P s :=
  match s with
  | Assignment op l r => HAssignment op l r
  | Decl n t i => HDecl n t i
  | If c t f =>
      HIf c t f (stmt_induction t)
        (match f as f0 return forall f', f0 = Some f' -> P f' with
         | Some f0 => fun f' H =>
             eq_ind f0 P (stmt_induction f0) f'
               (f_equal (fun o => match o with Some x => x | None => f0 end) H)
         | None => fun f' H =>
             False_ind _ (eq_ind None (fun o => match o with
                                                | None => True
                                                | Some _ => False
                                                end) I (Some f') H)
         end)
  | While c b => HWhile c b (stmt_induction b)
  | Compound items =>
      HCompound items
        (match items as i0 return forall l, i0 = Some l -> Forall P l with
         | Some l0 => fun l H =>
             eq_ind l0 (Forall P)
               ((fix go (l : list stmt) : Forall P l :=
                   match l with
                   | [] => @List.Forall_nil stmt P
                   | x :: l => @List.Forall_cons stmt P x l (stmt_induction x) (go l)
                   end) l0) l
               (f_equal (fun o => match o with Some x => x | None => l0 end) H)
         | None => fun l H =>
             False_ind _ (eq_ind None (fun o => match o with
                                                | None => True
                                                | Some _ => False
                                                end) I (Some l) H)
         end)
  | ExprStmt e => HExprStmt e
  | Return e => HReturn e
  end.
End stmt_induction.

(** Structural induction on expressions, through the argument of a call
    and the list of an [ExprList]. *)
Section expr_induction.
Context (P : expr -> Prop).
Context (HConstant : forall t v, P (Constant t v)).
Context (HID : forall n, P (ID n)).
Context (HArrayRef : forall n s, P n -> P s -> P (ArrayRef n s)).
Context (HBinaryOp : forall op l r, P l -> P r -> P (BinaryOp op l r)).
Context (HUnaryOp : forall op e, P e -> P (UnaryOp op e)).
Context (HTernaryOp : forall c t f, P c -> P t -> P f -> P (TernaryOp c t f)).
Context (HFuncCall : forall n a, P n -> (forall a', a = Some a' -> P a') ->
                                 P (FuncCall n a)).
Context (HExprList : forall es, Forall P es -> P (ExprList es)).

Fixpoint expr_induction (e : expr) : P e :=
  match e with
  | Constant t v => HConstant t v
  | ID n => HID n
  | ArrayRef n s => HArrayRef n s (expr_induction n) (expr_induction s)
  | BinaryOp op l r => HBinaryOp op l r (expr_induction l) (expr_induction r)
  | UnaryOp op e => HUnaryOp op e (expr_induction e)
  | TernaryOp c t f =>
      HTernaryOp c t f (expr_induction c) (expr_induction t) (expr_induction f)
  | FuncCall n a =>
      HFuncCall n a (expr_induction n)
        (match a as a0 return forall a', a0 = Some a' -> P a' with
         | Some a0 => fun a' E =>
             eq_ind a0 P (expr_induction a0) a'
               (f_equal (fun o => match o with Some x => x | None => a0 end) E)
         | None => fun a' E =>
             False_ind _ (eq_ind None (fun o => match o with
                                                | None => True
                                                | Some _ => False
                                                end) I (Some a') E)
         end)
  | ExprList es =>
      HExprList es
        ((fix all (es : list expr) : Forall P es :=
            match es with
            | [] => @List.Forall_nil expr P
            | e :: es => @List.Forall_cons expr P e es (expr_induction e) (all es)
            end) es)
  end.
End expr_induction.

(** ** checkdp/transform/utils.py : [NodeFinder] *)

Module Utils.

(** [NodeFinder(check_func).visit(node)] without [ignores]: the nodes
    that satisfy [check_func], in the order [generic_visit] reaches
    them (a node before its children, children from left to right). *)
Fixpoint NodeFinder (check_func : expr -> bool) (node : expr) : list expr :=
  (if check_func node then [node] else []) ++
  match node with
  | Constant _ _ | ID _ => []
  | ArrayRef n s => NodeFinder check_func n ++ NodeFinder check_func s
  | BinaryOp _ l r => NodeFinder check_func l ++ NodeFinder check_func r
  | UnaryOp _ e => NodeFinder check_func e
  | TernaryOp c t f =>
      NodeFinder check_func c ++ NodeFinder check_func t ++ NodeFinder check_func f
  | FuncCall n a =>
      NodeFinder check_func n ++
      match a with Some a => NodeFinder check_func a | None => [] end
  | ExprList es => flat_map (NodeFinder check_func) es
  end.

(** [isinstance(n, c_ast.ID) and n.name == name] *)
Definition is_ID_named (name : string) (n : expr) : bool :=
  match n with
  | ID x => bool_decide (x = name)
  | _ => false
  end.

End Utils.

(** ** checkdp/transform/typesystem.py

    The class [TypeSystem] is not among the sources.  The passes below use
    it through the methods collected here and are written against any type
    that provides them; a distance that has not been set reads as [None]. *)
Class TypeSystemOps (T : Type) : Type := {
  (** [TypeSystem()] *)
  new_type_system : T;
  (** [get_types(name)]: aligned distance, shadow distance, base type,
      [is_array]. *)
  get_types : T -> string -> option string * option string * option string * bool;
  (** [update_distance(name, aligned, shadow)]; the transformer also
      passes on distances it has read, which may be [None]. *)
  update_distance : T -> string -> option string -> option string -> T;
  update_base_type : T -> string -> string -> bool -> T;
  (** [a.merge(b)] leaves its result in [a]. *)
  merge : T -> T -> T;
  names : T -> list string;
  (** [variables()]: name, aligned, shadow, base type, [is_array]. *)
  variables : T -> list (string * option string * option string * option string * bool);
  (** [a == b] *)
  type_system_eqb : T -> T -> bool
}.

(** A Python [dict] with string keys: the items in insertion order. *)
Fixpoint dict_set {V} (k : string) (v : V) (d : list (string * V)) : list (string * V) :=
  match d with
  | [] => [(k, v)]
  | (k', v') :: d => if bool_decide (k' = k) then (k, v) :: d
                     else (k', v') :: dict_set k v d
  end.

Definition dict_of {V} (items : list (string * V)) : list (string * V) :=
  fold_left (fun d kv => dict_set (fst kv) (snd kv) d) items [].

(** Modelled from the spec: the class [TypeSystem] of
    [checkdp/transform/typesystem.py], which is missing.  A mapping from
    variable name to a record [{ aligned, shadow, base, is_array }];
    [merge(A,B)] yields, per name and per track, ["*"] if either side is
    ["*"] or the two sides differ, else the common value.  Used for the
    examples only. *)
Module SpecTypeSystem.

Record entry : Type := mkEntry {
  aligned : option string;
  shadow : option string;
  base : option string;
  is_array : bool
}.

#[global] Instance entry_eq_dec : EqDecision entry.
Proof. solve_decision. Defined.

Definition t : Type := list (string * entry).

Definition empty_entry : entry := mkEntry None None None false.

Definition lookup (ts : t) (name : string) : entry :=
  match list_find (fun kv => fst kv = name) ts with
  | Some (_, kv) => snd kv
  | None => empty_entry
  end.

Definition merge_track (a b : option string) : option string :=
  match a, b with
  | Some x, Some y =>
      if bool_decide (x = "*") || bool_decide (y = "*") || negb (bool_decide (x = y))
      then Some "*" else Some x
  | Some x, None => Some x
  | None, b => b
  end.

Definition merge_entry (a b : entry) : entry :=
  mkEntry (merge_track (aligned a) (aligned b))
          (merge_track (shadow a) (shadow b))
          (base a) (is_array a).

#[global] Instance ops : TypeSystemOps t := {|
  new_type_system := [];
  get_types ts name :=
    let e := lookup ts name in (aligned e, shadow e, base e, is_array e);
  update_distance ts name a s :=
    let e := lookup ts name in
    dict_set name (mkEntry a s (base e) (is_array e)) ts;
  update_base_type ts name b arr :=
    let e := lookup ts name in
    dict_set name (mkEntry (aligned e) (shadow e) (Some b) arr) ts;
  merge a b :=
    fold_left (fun acc kv =>
                 dict_set (fst kv) (merge_entry (lookup acc (fst kv)) (snd kv)) acc)
              b a;
  names ts := map fst ts;
  variables ts :=
    map (fun kv => (fst kv, aligned (snd kv), shadow (snd kv), base (snd kv),
                    is_array (snd kv))) ts;
  type_system_eqb a b := bool_decide (a = b)
|}.

End SpecTypeSystem.

(** ** checkdp/core.py : the CEGIS loop *)

Module Core.

(** The local variables of [run] that live across iterations. *)
Record state : Type := mkState {
  found_counterexamples : list model;
  possible_alignments : list model;
  suffix : Z;
  iterations : Z;
  is_find_inputs : bool;
  is_final_validate : bool;
  is_jump_out : bool
}.

(** What one pass through the body of [while True] does. *)
Inductive outcome : Type :=
  | Continue (st : state)                   (* falls through to the next iteration *)
  | Return (flag : bool) (concretes : list model)   (* [return True, concretes] *)
  | Break (st : state)                      (* [break]: the counterexample phase follows *)
  | Raised (e : pyerror).

(** [run]'s state before the first iteration; [default] is
    [template.default_alignment()]. *)
Definition initial (default : model) : state :=
  {| found_counterexamples := [];
     possible_alignments := [default];
     suffix := 0;
     iterations := 0;
     is_find_inputs := true;
     is_final_validate := false;
     is_jump_out := false |}.

(** Python truthiness of what [klee.run] returns: [None] and the empty
    dict are false. *)
Definition truthy (r : option model) : bool :=
  match r with
  | Some m => negb (bool_decide (m = ∅))
  | None => false
  end.

(** Lines 25-27: the list handed to [template.fill].  [concretes[-1]] on
    an empty list raises. *)
Definition concretes (st : state) : result (list model) :=
  let cs := if is_find_inputs st then possible_alignments st
            else found_counterexamples st in
  if is_final_validate st && negb (is_jump_out st) then
    match last cs with
    | Some c => Ok [c]
    | None => Raise IndexError
    end
  else Ok cs.

(** The guard at the top of [Template.fill]. *)
Definition fill_guard (cs : list model) : result unit :=
  match cs with
  | [] => Raise (NotImplementedError "At least one concrete must be provided to start the process")
  | c :: _ =>
      if bool_decide (c = ∅)
      then Raise (NotImplementedError "At least one concrete must be provided to start the process")
      else Ok tt
  end.

(** [possible_alignments.pop()] *)
Definition pop (l : list model) : result (list model) :=
  match l with
  | [] => Raise IndexError
  | _ => Ok (removelast l)
  end.

(** Assignments to the loop's variables. *)
Definition set_counterexamples (l : list model) (st : state) : state :=
  mkState l (possible_alignments st) (suffix st) (iterations st)
          (is_find_inputs st) (is_final_validate st) (is_jump_out st).
Definition set_alignments (l : list model) (st : state) : state :=
  mkState (found_counterexamples st) l (suffix st) (iterations st)
          (is_find_inputs st) (is_final_validate st) (is_jump_out st).
Definition set_suffix (n : Z) (st : state) : state :=
  mkState (found_counterexamples st) (possible_alignments st) n (iterations st)
          (is_find_inputs st) (is_final_validate st) (is_jump_out st).
Definition set_iterations (n : Z) (st : state) : state :=
  mkState (found_counterexamples st) (possible_alignments st) (suffix st) n
          (is_find_inputs st) (is_final_validate st) (is_jump_out st).
Definition set_find_inputs (b : bool) (st : state) : state :=
  mkState (found_counterexamples st) (possible_alignments st) (suffix st) (iterations st)
          b (is_final_validate st) (is_jump_out st).
Definition set_final_validate (b : bool) (st : state) : state :=
  mkState (found_counterexamples st) (possible_alignments st) (suffix st) (iterations st)
          (is_find_inputs st) b (is_jump_out st).
Definition set_jump_out (b : bool) (st : state) : state :=
  mkState (found_counterexamples st) (possible_alignments st) (suffix st) (iterations st)
          (is_find_inputs st) (is_final_validate st) b.

(** Lines 56-61: [if result and is_find_inputs]. *)
Definition on_counterexample (r : option model) (st : state) : state :=
  match r with
  | Some m =>
      if truthy r && is_find_inputs st then
        set_jump_out false
          (set_counterexamples (found_counterexamples st ++ [m]) st)
      else st
  | None => st
  end.

(** Lines 67-79: [if result and not is_find_inputs]. *)
Definition on_alignment (r : option model) (st : state) : result state :=
  match r with
  | Some m =>
      if truthy r && negb (is_find_inputs st) then
        if is_final_validate st then
          Ok (set_jump_out true
               (set_final_validate false
                 (set_counterexamples []
                   (set_alignments (possible_alignments st ++ [m]) st))))
        else
          popped ← pop (possible_alignments st);
          Ok (set_alignments (popped ++ [m]) st)
      else Ok st
  | None => Ok st
  end.

(** Lines 80-90: [if not result and not is_find_inputs]; [inr] is the
    [break]. *)
Definition on_no_alignment (r : option model) (st : state) : state + state :=
  if negb (truthy r) && negb (is_find_inputs st) then
    if is_final_validate st then inr st
    else
      inl (set_suffix (suffix st + 1000)
            (set_find_inputs (negb (is_find_inputs st))
              (set_final_validate true st)))
  else inl st.

(** One iteration of the loop, lines 23-98; [r] is what [klee.run]
    returned in this iteration.  The four [if] statements are executed in
    sequence, as in the source. *)
Definition iteration (st : state) (r : option model) : outcome :=
  match concretes st with
  | Raise e => Raised e
  | Ok cs =>
  match fill_guard cs with
  | Raise e => Raised e
  | Ok _ =>
    let st := set_iterations (iterations st + 1) st in
    let st := on_counterexample r st in
    (* if not result and is_find_inputs: return True, concretes *)
    if negb (truthy r) && is_find_inputs st then Return true cs
    else
      match on_alignment r st with
      | Raise e => Raised e
      | Ok st =>
          match on_no_alignment r st with
          | inr st => Break st
          | inl st =>
              (* flip the find input flag; suffix += 1 *)
              Continue (set_suffix (suffix st + 1)
                         (set_find_inputs (negb (is_find_inputs st)) st))
          end
      end
  end
  end.

(** The states the loop head can be in: the initial one and every state
    an iteration falls through to, whatever the executor answers. *)
Inductive reachable (default : model) : state -> Prop :=
  | reach_init : reachable default (initial default)
  | reach_step st r st' :
      reachable default st ->
      iteration st r = Continue st' ->
      reachable default st'.

(** The loop invariant that makes [concretes] the whole alignment list
    whenever inputs are searched. *)
Definition inv (st : state) : Prop :=
  (is_find_inputs st = true -> is_final_validate st = false) /\
  possible_alignments st <> [] /\
  Forall (fun m : model => m <> ∅) (possible_alignments st).

End Core.

(** ** checkdp/transform/template.py : [Template.related_inputs] *)

Module Template.
Section WithConstants.
Context (C : constants).

(** [zip] stops at the end of the shorter sequence. *)
Fixpoint zip_add (xs ys : list Z) : list Z :=
  match xs, ys with
  | x :: xs, y :: ys => (x + y) :: zip_add xs ys
  | _, _ => []
  end.

(** [related[key]]: a missing key raises [KeyError]. *)
Definition item_at (key : string) (m : model) : result value :=
  match m !! key with
  | None => Raise (KeyError key)
  | Some v => Ok v
  end.

(** An argument of [zip]: a number cannot be iterated over. *)
Definition as_sequence (v : value) : result (list Z) :=
  match v with
  | VSeq xs => Ok xs
  | VNum _ => Raise (TypeError "zip argument is not iterable")
  end.

(** [Template.related_inputs]; [params] are the names of
    [self._function.decl.type.args.params].  Both arguments of [zip] are
    looked up, the left one first, before [zip] is called on them.
    [original_inputs.copy()] is the map value itself: the caller's map is
    a different object and is not written. *)
Definition related_inputs (params : list string) (original_inputs : model)
  : result model :=
  match params with
  | [] => Raise IndexError
  | query_variable :: _ =>
      let related := original_inputs in
      q ← item_at query_variable related;
      dq ← item_at (ALIGNED_DISTANCE C +:+ "_" +:+ query_variable) related;
      q ← as_sequence q;
      dq ← as_sequence dq;
      Ok (<[query_variable := VSeq (zip_add q dq)]> related)
  end.
End WithConstants.
End Template.

(** ** checkdp/transform/random_distance.py : alignment templates *)

Module RandomDistance.

Inductive AlignmentIndexType : Type :=
  | Variable_
  | Constant_
  | Selector_.

#[global] Instance AlignmentIndexType_eq_dec : EqDecision AlignmentIndexType.
Proof. solve_decision. Defined.

Definition newline : string := "
".

(** [sep.join(parts)] *)
Fixpoint join (sep : string) (parts : list string) : string :=
  match parts with
  | [] => EmptyString
  | [p] => p
  | p :: ps => p +:+ sep +:+ join sep ps
  end.

Section WithConstants.
Context (C : constants).

(** The [for index, variable in enumerate(variables)] loop of the leaf
    case: [index] counts from the position reached so far. *)
Fixpoint leaf_terms (start_index index : nat) (variables : list string)
         (template_parts : list string)
         (alignment_array_types : list AlignmentIndexType)
  : list string * list AlignmentIndexType :=
  match variables with
  | [] => (template_parts, alignment_array_types)
  | variable :: variables =>
      leaf_terms start_index (S index) variables
        (template_parts ++
           [ALIGNMENT_ARRAY C +:+ "[" +:+ pretty (start_index + 1 + index)%nat
              +:+ "] * " +:+ variable])
        (alignment_array_types ++ [Variable_])
  end.

(** [_generate_random_distance]; the list of tags is threaded through
    the calls, as the Python list is appended to in place. *)
Fixpoint _generate_random_distance (conditions variables : list string)
         (alignment_array_types : list AlignmentIndexType) (is_selector : bool)
  : string * list AlignmentIndexType :=
  let start_index := length alignment_array_types in
  match conditions with
  | [] =>
      let template_parts :=
        [ALIGNMENT_ARRAY C +:+ "[" +:+ pretty start_index +:+ "]"] in
      let alignment_array_types :=
        alignment_array_types ++ [if is_selector then Selector_ else Constant_] in
      let '(template_parts, alignment_array_types) :=
        leaf_terms start_index 0 variables template_parts alignment_array_types in
      ("(" +:+ join " + " template_parts +:+ ")", alignment_array_types)
  | condition :: rest =>
      let '(left_, alignment_array_types) :=
        _generate_random_distance rest variables alignment_array_types is_selector in
      let '(right_, alignment_array_types) :=
        _generate_random_distance rest variables alignment_array_types is_selector in
      (condition +:+ " ? " +:+ left_ +:+ " : " +:+ right_, alignment_array_types)
  end.

(** [tuple(distance_variables)]: the generator expression is consumed
    here, so a failure of the distance generator surfaces at this
    point. *)
Fixpoint distance_variables (distance : string -> result string)
         (variables : list string) : result (list string) :=
  match variables with
  | [] => Ok []
  | v :: vs =>
      d ← distance v;
      ds ← distance_variables distance vs;
      Ok (d :: ds)
  end.

(** The body of the loop of [generate_macros] for one random variable;
    [conditions] and [variables] are the two sets of its template in the
    order [tuple()] enumerates them. *)
Definition generate_macro (enable_shadow : bool)
           (distance : string -> result string)
           (random_variable : string) (conditions variables : list string)
           (acc : list string * list AlignmentIndexType)
  : result (list string * list AlignmentIndexType) :=
  let '(inserted, alignment_array_types) := acc in
  let '(inserted, alignment_array_types) :=
    if enable_shadow then
      let '(template, alignment_array_types) :=
        match conditions with
        | [] => (SELECT_ALIGNED C, alignment_array_types)
        | _ => _generate_random_distance conditions [] alignment_array_types true
        end in
      (inserted ++ ["#define " +:+ SELECTOR C +:+ "_" +:+ random_variable
                      +:+ " (" +:+ template +:+ ")"],
       alignment_array_types)
    else (inserted, alignment_array_types) in
  dvs ← distance_variables distance variables;
  let '(template, alignment_array_types) :=
    _generate_random_distance conditions dvs alignment_array_types false in
  Ok (inserted ++ ["#define " +:+ RANDOM_DISTANCE C +:+ "_" +:+ random_variable
                     +:+ " (" +:+ template +:+ ")"],
      alignment_array_types).

(** The loop over [self._templates.items()]. *)
Fixpoint generate_macros_loop (enable_shadow : bool)
         (distance : string -> result string)
         (templates : list (string * (list string * list string)))
         (acc : list string * list AlignmentIndexType)
  : result (list string * list AlignmentIndexType) :=
  match templates with
  | [] => Ok acc
  | (random_variable, (conditions, variables)) :: templates =>
      acc ← generate_macro enable_shadow distance random_variable
              conditions variables acc;
      generate_macros_loop enable_shadow distance templates acc
  end.

(** [RandomDistanceGenerator.generate_macros], from the collected
    templates on. *)
Definition generate_macros (enable_shadow : bool)
           (distance : string -> result string)
           (templates : list (string * (list string * list string)))
  : result (string * list AlignmentIndexType) :=
  '(inserted, alignment_array_types) ←
    generate_macros_loop enable_shadow distance templates ([], []);
  Ok (join newline inserted, alignment_array_types).

(** *** The structure of an emitted template

    The text [_generate_random_distance] returns is a nest of
    conditionals over leaves; each leaf reads one slot on its own and
    one slot per variable.  [shape] is that structure, [render] its
    text, [slots] the indices of [alignment_array] it reads, from left
    to right. *)
Inductive shape : Type :=
  | Leaf (slot : nat) (terms : list (nat * string))
  | Branch (condition : string) (left_ right_ : shape).

Fixpoint enumerate_from {A} (index : nat) (l : list A) : list (nat * A) :=
  match l with
  | [] => []
  | x :: l => (index, x) :: enumerate_from (S index) l
  end.

Definition render_term (t : nat * string) : string :=
  ALIGNMENT_ARRAY C +:+ "[" +:+ pretty (fst t) +:+ "] * " +:+ snd t.

Fixpoint render (s : shape) : string :=
  match s with
  | Leaf slot terms =>
      "(" +:+ join " + " ((ALIGNMENT_ARRAY C +:+ "[" +:+ pretty slot +:+ "]")
                           :: map render_term terms) +:+ ")"
  | Branch c l r => c +:+ " ? " +:+ render l +:+ " : " +:+ render r
  end.

Fixpoint slots (s : shape) : list nat :=
  match s with
  | Leaf slot terms => slot :: map fst terms
  | Branch _ l r => slots l ++ slots r
  end.

Fixpoint leaves (s : shape) : nat :=
  match s with
  | Leaf _ _ => 1
  | Branch _ l r => (leaves l + leaves r)%nat
  end.

(** The number of slots a template over the given conditions and
    variables takes. *)
Definition template_size (conditions variables : list string) : nat :=
  (2 ^ length conditions * (1 + length variables))%nat.

Fixpoint shape_of (conditions variables : list string) (start_index : nat) : shape :=
  match conditions with
  | [] =>
      Leaf start_index
           (map (fun '(i, v) => ((start_index + 1 + i)%nat, v))
                (enumerate_from 0 variables))
  | c :: rest =>
      Branch c (shape_of rest variables start_index)
               (shape_of rest variables
                         (start_index + template_size rest variables)%nat)
  end.

(** The tags one template appends. *)
Fixpoint tags_of (conditions variables : list string) (is_selector : bool)
  : list AlignmentIndexType :=
  match conditions with
  | [] => (if is_selector then Selector_ else Constant_)
            :: map (fun _ => Variable_) variables
  | _ :: rest => tags_of rest variables is_selector ++ tags_of rest variables is_selector
  end.

Definition count_tag (t : AlignmentIndexType) (l : list AlignmentIndexType) : nat :=
  length (filter (fun x => x = t) l).

(** The macros [generate_macros] emits: a selector that is the literal
    [SELECT_ALIGNED], a selector template, or a distance template. *)
Inductive macro : Type :=
  | SelectorLiteral (random_variable : string)
  | SelectorTemplate (random_variable : string) (s : shape)
  | DistanceTemplate (random_variable : string) (s : shape).

Definition render_macro (m : macro) : string :=
  match m with
  | SelectorLiteral v =>
      "#define " +:+ SELECTOR C +:+ "_" +:+ v +:+ " (" +:+ SELECT_ALIGNED C +:+ ")"
  | SelectorTemplate v s =>
      "#define " +:+ SELECTOR C +:+ "_" +:+ v +:+ " (" +:+ render s +:+ ")"
  | DistanceTemplate v s =>
      "#define " +:+ RANDOM_DISTANCE C +:+ "_" +:+ v +:+ " (" +:+ render s +:+ ")"
  end.

Definition macro_slots (m : macro) : list nat :=
  match m with
  | SelectorLiteral _ => []
  | SelectorTemplate _ s | DistanceTemplate _ s => slots s
  end.

Definition selector_leaves (m : macro) : nat :=
  match m with
  | SelectorTemplate _ s => leaves s
  | _ => 0%nat
  end.

(** The macros of one random variable, the first slot free being
    [start_index]; [dvs] are the distance texts of its variables. *)
Definition macros_of (enable_shadow : bool) (random_variable : string)
           (conditions dvs : list string) (start_index : nat) : list macro :=
  if enable_shadow then
    match conditions with
    | [] => [SelectorLiteral random_variable;
             DistanceTemplate random_variable (shape_of conditions dvs start_index)]
    | _ => [SelectorTemplate random_variable (shape_of conditions [] start_index);
            DistanceTemplate random_variable
              (shape_of conditions dvs (start_index + template_size conditions [])%nat)]
    end
  else [DistanceTemplate random_variable (shape_of conditions dvs start_index)].

(** The tags the macros of one random variable append. *)
Definition macro_tags (enable_shadow : bool) (conditions dvs : list string)
  : list AlignmentIndexType :=
  (if enable_shadow then
     match conditions with
     | [] => []
     | _ => tags_of conditions [] true
     end
   else []) ++ tags_of conditions dvs false.

End WithConstants.
End RandomDistance.

(** ** checkdp/transform/postprocess.py : the size of the sample array *)

Module PostProcessor.
Section WithConstants.
Context (C : constants).

(** The counters of a [PostProcessor]. *)
Record state : Type := mkState {
  _sized_loop_level : Z;
  _sample_array_size_loops : Z;
  _sample_array_size_constants : Z
}.

Definition initial : state := mkState 0 0 0.

(** [_, size, *_ = self._parameters] *)
Definition size_parameter (parameters : list string) : result string :=
  match parameters with
  | _ :: size :: _ => Ok size
  | _ => Raise (ValueError "not enough values to unpack")
  end.

(** [isinstance(node.init, c_ast.ArrayRef) and
    node.init.name.name == constants.SAMPLE_ARRAY]: the [name] of an
    [ArrayRef] is a node; it has a [name] attribute of its own when it
    is an [ID], an [ArrayRef] or a [FuncCall], and only that of an [ID]
    is a string. *)
Definition is_sampling (init : option expr) : result bool :=
  match init with
  | Some (ArrayRef (ID n) _) => Ok (bool_decide (n = SAMPLE_ARRAY C))
  | Some (ArrayRef (ArrayRef _ _) _) | Some (ArrayRef (FuncCall _ _) _) => Ok false
  | Some (ArrayRef _ _) => Raise (AttributeError "name")
  | _ => Ok false
  end.

(** [PostProcessor.visit_Decl], the counting part. *)
Definition visit_Decl (init : option expr) (st : state) : result state :=
  match is_sampling init with
  | Raise e => Raise e
  | Ok false => Ok st
  | Ok true =>
      if bool_decide (_sized_loop_level st = 0) then
        Ok (mkState (_sized_loop_level st) (_sample_array_size_loops st)
                    (_sample_array_size_constants st + 1))
      else
        Ok (mkState (_sized_loop_level st)
                    (_sample_array_size_loops st + _sized_loop_level st)
                    (_sample_array_size_constants st))
  end.

Definition has_size_variable (size : string) (cond : expr) : bool :=
  negb (bool_decide (Utils.NodeFinder (Utils.is_ID_named size) cond = [])).

Definition enter_loop (b : bool) (st : state) : state :=
  if b then mkState (_sized_loop_level st + 1) (_sample_array_size_loops st)
                    (_sample_array_size_constants st)
  else st.

Definition leave_loop (b : bool) (st : state) : state :=
  if b then mkState (_sized_loop_level st - 1) (_sample_array_size_loops st)
                    (_sample_array_size_constants st)
  else st.

(** The traversal of the function body: [visit_While], [visit_Decl] and
    [generic_visit] for every other node.  Expressions hold neither
    declarations nor loops, so visiting them does nothing. *)
Fixpoint visit (parameters : list string) (node : stmt) (st : state) : result state :=
  match node with
  | While cond body =>
      size ← size_parameter parameters;
      let has := has_size_variable size cond in
      st ← visit parameters body (enter_loop has st);
      Ok (leave_loop has st)
  | Decl _ _ init => visit_Decl init st
  | If _ iftrue iffalse =>
      st ← visit parameters iftrue st;
      match iffalse with
      | Some iffalse => visit parameters iffalse st
      | None => Ok st
      end
  | Compound block_items =>
      match block_items with
      | None => Ok st
      | Some items =>
          (fix visit_items (items : list stmt) (st : state) : result state :=
             match items with
             | [] => Ok st
             | child :: items =>
                 st ← visit parameters child st;
                 visit_items items st
             end) items st
      end
  | Assignment _ _ _ | ExprStmt _ | Return _ => Ok st
  end.

(** The closure [process] returns, read after the traversal. *)
Definition sample_size (st : state) (query_size : Z) : Z :=
  _sample_array_size_loops st * query_size + _sample_array_size_constants st.

(** [PostProcessor.process], the counting part: a fresh post-processor
    visits the body and returns the closure. *)
Definition process (parameters : list string) (body : stmt) : result (Z -> Z) :=
  st ← visit parameters body initial;
  Ok (sample_size st).

(** *** What is counted

    [sampling_depths size depth node]: for every sampling statement of
    [node], from first to last, the number of enclosing loops whose
    condition mentions [size], [depth] being that number for [node]
    itself. *)
Definition sampling_Decl (init : option expr) : bool :=
  match init with
  | Some (ArrayRef (ID n) _) => bool_decide (n = SAMPLE_ARRAY C)
  | _ => false
  end.

(** An identifier named [name] occurs in the expression. *)
Fixpoint mentions (name : string) (e : expr) : bool :=
  match e with
  | Constant _ _ => false
  | ID n => bool_decide (n = name)
  | ArrayRef n s => mentions name n || mentions name s
  | BinaryOp _ l r => mentions name l || mentions name r
  | UnaryOp _ e => mentions name e
  | TernaryOp c t f => mentions name c || mentions name t || mentions name f
  | FuncCall n a =>
      mentions name n || match a with Some a => mentions name a | None => false end
  | ExprList es => existsb (mentions name) es
  end.

Fixpoint sampling_depths (size : string) (depth : Z) (node : stmt) : list Z :=
  match node with
  | While cond body =>
      sampling_depths size (if mentions size cond then depth + 1 else depth) body
  | Decl _ _ init => if sampling_Decl init then [depth] else []
  | If _ iftrue iffalse =>
      sampling_depths size depth iftrue ++
      match iffalse with
      | Some iffalse => sampling_depths size depth iffalse
      | None => []
      end
  | Compound block_items =>
      match block_items with
      | None => []
      | Some items => flat_map (sampling_depths size depth) items
      end
  | Assignment _ _ _ | ExprStmt _ | Return _ => []
  end.

(** The sampling statements outside every size-indexed loop. *)
Definition outside_loops (depths : list Z) : Z :=
  Z.of_nat (length (filter (fun d => d = 0) depths)).

(** The sampling statements inside size-indexed loops, each counted
    once per enclosing size-indexed loop. *)
Definition inside_loops (depths : list Z) : Z :=
  foldr Z.add 0 depths.

End WithConstants.
End PostProcessor.

(** ** checkdp/transform/preprocess.py *)

Module Preprocessor.

(** A [FuncDef]: the name, the parameters ([decl.type.args], [None] for
    an empty parameter list) and the block items of the body. *)
Record FuncDef : Type := mkFuncDef {
  decl_name : string;
  params : option (list (string * decl_type));
  body_items : option (list stmt)
}.

Definition msg_extra : string :=
  "Distance annotation can only contain parameters, but detected annotations for others".
Definition msg_missing : string :=
  "Distance annotation for a parameter is not given.".

Section WithCollaborators.
Context (C : constants) {T : Type} `{TypeSystemOps T}.
(** The regular expressions of [parse_annotation], as the [re] module
    evaluates them: the whitespace remover, the matches of the type
    pattern, of the precondition pattern, of [ASSUME(...)] and
    [ASSUME_HOLE(...)], and of the check pattern. *)
Context (space_re_sub : string -> string)
        (finditer_types : string -> list (string * (string * string)))
        (match_precondition : string -> option string)
        (finditer_assume : string -> list string)
        (finditer_assume_hole : string -> list string)
        (match_check : string -> option string).
(** The removal of the double quotes from the text of a string
    constant ([value.replace]). *)
Context (strip_quotes : string -> string).
(** pycparser's generator and parser, sympy behind [expr_simplify]. *)
Context (generate : expr -> string)
        (parse : string -> expr)
        (expr_simplify : string -> string).
(** sympy: the denominator [sp.fraction(text)[1]], [sp.lcm] of a tuple,
    and [str]. *)
Context {sym : Type}
        (fraction_denominator : string -> sym)
        (lcm : list sym -> sym)
        (str : sym -> string).

(** [parse_annotation] *)
Definition parse_annotation (type_str precondition_str check_str : string)
  : result (list (string * (string * string)) * list string * list string * string) :=
  let type_str := space_re_sub type_str in
  let precondition_str := space_re_sub precondition_str in
  let check_str := space_re_sub check_str in
  let initial_types := dict_of (finditer_types type_str) in
  match match_precondition precondition_str with
  | None => Raise (ValueError "Precondition annotation does not contain sensitivity information, specify with either ONE_DIFFER or ALL_DIFFER")
  | Some p =>
      let preconditions := [p] ++ finditer_assume precondition_str in
      let hole_preconditions := finditer_assume_hole precondition_str in
      match match_check check_str with
      | None => Raise (ValueError "Check annotation is invalid")
      | Some check => Ok (initial_types, preconditions, hole_preconditions, check)
      end
  end.

(** The state of a [Preprocessor] that the visit changes:
    [_random_scales] holds the [Lap] calls in the order they were
    added. *)
Record state : Type := mkState {
  _type_system : T;
  _random_scales : list expr
}.

(** [Preprocessor.visit_FuncCall]; the visitor does not descend into
    the call. *)
Definition visit_FuncCall (name : expr) : result unit :=
  match name with
  | ID n =>
      if bool_decide (n = LAP C) || bool_decide (n = OUTPUT C) then Ok tt
      else if String.prefix (PREFIX C) n then
        Raise (ValueError "not a CheckDP-provided intrinsics")
      else Raise (NotImplementedError "Function calls are not currently not supported")
  | _ => Raise (AttributeError "name")
  end.

(** The visit of an expression: only [FuncCall] nodes have a method of
    their own. *)
Fixpoint visit_expr (e : expr) : result unit :=
  match e with
  | Constant _ _ | ID _ => Ok tt
  | ArrayRef n s => _ ← visit_expr n; visit_expr s
  | BinaryOp _ l r => _ ← visit_expr l; visit_expr r
  | UnaryOp _ e => visit_expr e
  | TernaryOp c t f => _ ← visit_expr c; _ ← visit_expr t; visit_expr f
  | FuncCall name _ => visit_FuncCall name
  | ExprList es =>
      (fix visit_exprs (es : list expr) : result unit :=
         match es with
         | [] => Ok tt
         | e :: es => _ ← visit_expr e; visit_exprs es
         end) es
  end.

Definition visit_opt_expr (e : option expr) : result unit :=
  match e with
  | Some e => visit_expr e
  | None => Ok tt
  end.

(** [isinstance(node.init, c_ast.FuncCall) and
    node.init.name.name == constants.LAP] *)
Definition is_Lap (init : option expr) : bool :=
  match init with
  | Some (FuncCall (ID n) _) => bool_decide (n = LAP C)
  | _ => false
  end.

(** [Preprocessor.visit_Decl]; returns the type of the declaration,
    which the source changes to [int], and the new state. *)
Definition visit_Decl (name : string) (type : decl_type) (init : option expr)
           (st : state) : result (decl_type * state) :=
  (* super().generic_visit(node) *)
  _ ← match type with
      | ArrayDecl _ dim => visit_opt_expr dim
      | _ => Ok tt
      end;
  _ ← visit_opt_expr init;
  if String.prefix (PREFIX C) name then
    Raise (ValueError "Variable name cannot contain the prefix to avoid name collisions.")
  else
    '(type, ts) ←
      match type with
      | TypeDecl [_] =>
          Ok (TypeDecl ["int"], update_base_type (_type_system st) name "int" false)
      | ArrayDecl [_] dim =>
          Ok (ArrayDecl ["int"] dim, update_base_type (_type_system st) name "int" true)
      | TypeDecl _ | ArrayDecl _ _ =>
          Raise (NotImplementedError "Type currently not supported.")
      | _ => Ok (type, _type_system st)
      end;
    let scales := match init with
                  | Some call => if is_Lap init then _random_scales st ++ [call]
                                 else _random_scales st
                  | None => _random_scales st
                  end in
    Ok (type, mkState ts scales).

(** The visit of a statement: [visit_Decl], [visit_Return] and
    [generic_visit] for the rest. *)
Fixpoint visit (node : stmt) (st : state) : result (stmt * state) :=
  match node with
  | Assignment op l r =>
      _ ← visit_expr l; _ ← visit_expr r; Ok (node, st)
  | Decl name type init =>
      '(type, st) ← visit_Decl name type init st;
      Ok (Decl name type init, st)
  | If c t f =>
      _ ← visit_expr c;
      '(t, st) ← visit t st;
      match f with
      | Some f => '(f, st) ← visit f st; Ok (If c t (Some f), st)
      | None => Ok (If c t None, st)
      end
  | While c b =>
      _ ← visit_expr c;
      '(b, st) ← visit b st;
      Ok (While c b, st)
  | Compound items =>
      match items with
      | None => Ok (node, st)
      | Some items =>
          '(items, st) ←
            (fix visit_items (items : list stmt) (st : state)
               : result (list stmt * state) :=
               match items with
               | [] => Ok ([], st)
               | child :: items =>
                   '(child, st) ← visit child st;
                   '(items, st) ← visit_items items st;
                   Ok (child :: items, st)
               end) items st;
          Ok (Compound (Some items), st)
      end
  | ExprStmt e => _ ← visit_expr e; Ok (node, st)
  | Return _ =>
      Raise (ValueError "Please use the output function instead of return statement for outputting.")
  end.

Fixpoint visit_items (items : list stmt) (st : state) : result (list stmt * state) :=
  match items with
  | [] => Ok ([], st)
  | child :: items =>
      '(child, st) ← visit child st;
      '(items, st) ← visit_items items st;
      Ok (child :: items, st)
  end.

(** The visit of the parameter declarations
    ([self.generic_visit(node.decl)]). *)
Fixpoint visit_params (ps : list (string * decl_type)) (st : state)
  : result (list (string * decl_type) * state) :=
  match ps with
  | [] => Ok ([], st)
  | (name, type) :: ps =>
      '(type, st) ← visit_Decl name type None st;
      '(ps, st) ← visit_params ps st;
      Ok ((name, type) :: ps, st)
  end.

(** Lines 89-101: the checks on the first three parameters. *)
Definition check_parameters (ps : option (list (string * decl_type))) : result unit :=
  match ps with
  | None => Raise (AttributeError "params")
  | Some ((_, query) :: (_, size) :: (_, epsilon) :: _) =>
      match query with
      | ArrayDecl _ _ =>
          match size with
          | TypeDecl ("int" :: _) =>
              match epsilon with
              | TypeDecl _ => Ok tt
              | _ => Raise (ValueError "Third parameter must be privacy budget variable.")
              end
          | _ => Raise (ValueError "Second parameter must be size variable for the query, i.e., an int variable")
          end
      | _ => Raise (ValueError "First parameter must be query variable, i.e., an array of ints / floats")
      end
  | Some _ =>
      Raise (ValueError "Function must at least have three parameters, (Queries, QuerySize, Epsilon)")
  end.

(** Lines 106-117: the three annotation strings. *)
Definition annotation_text (s : stmt) : result string :=
  match s with
  | ExprStmt (Constant "string" v) => Ok (strip_quotes v)
  | _ => Raise (ValueError "annotation is not specified, annotations must be present in the first three lines in the function as plain strings")
  end.

Definition annotations (items : option (list stmt))
  : result (string * string * string * list stmt) :=
  match items with
  | None => Raise (TypeError "NoneType object is not subscriptable")
  | Some items =>
      match items with
      | a :: b :: c :: rest =>
          a ← annotation_text a;
          b ← annotation_text b;
          c ← annotation_text c;
          Ok (a, b, c, rest)
      | a :: b :: [] =>
          _ ← annotation_text a; _ ← annotation_text b;
          Raise (ValueError "not enough values to unpack")
      | a :: [] =>
          _ ← annotation_text a;
          Raise (ValueError "not enough values to unpack")
      | [] => Raise (ValueError "not enough values to unpack")
      end
  end.

(** Lines 119-130: every parameter is annotated, nothing else is. *)
Definition check_annotated (types : list (string * (string * string)))
           (ps : list (string * decl_type)) : result unit :=
  let annotated_variables : gset string := list_to_set (map fst types) in
  let parameters : gset string := list_to_set (map fst ps) in
  let extra_annotated := annotated_variables ∖ parameters in
  if bool_decide (0 < size extra_annotated)%nat then
    Raise (ValueError msg_extra)
  else
    let missing_annotated := parameters ∖ annotated_variables in
    if bool_decide (0 < size missing_annotated)%nat then
      Raise (ValueError msg_missing)
    else Ok tt.

(** The preconditions, the hole preconditions and the goal that
    [visit_FuncDef] stores in the preprocessor. *)
Record annotations_of : Type := mkAnnotations {
  _preconditions : list string;
  _hole_preconditions : list string;
  _goal : string
}.

(** [Preprocessor.visit_FuncDef] *)
Definition visit_FuncDef (node : FuncDef) (st : state)
  : result (FuncDef * annotations_of * state) :=
  _ ← check_parameters (params node);
  let ps := match params node with Some ps => ps | None => [] end in
  '(ps', st) ← visit_params ps st;
  '(initial_types, precondition, check, rest) ← annotations (body_items node);
  '(types, preconditions, hole_preconditions, goal) ←
    parse_annotation initial_types precondition check;
  _ ← check_annotated types ps';
  let ts := fold_left (fun ts '(name, (aligned, shadow)) =>
                         update_distance ts name (Some aligned) (Some shadow))
                      types (_type_system st) in
  let st := mkState ts (_random_scales st) in
  '(rest, st) ← visit_items rest st;
  Ok (mkFuncDef (decl_name node) (Some ps') (Some rest),
      mkAnnotations preconditions hole_preconditions goal, st).

(** [func_call.args.exprs[0]] *)
Definition scale_of (func_call : expr) : result expr :=
  match func_call with
  | FuncCall _ (Some (ExprList (scale :: _))) => Ok scale
  | FuncCall _ (Some (ExprList [])) => Raise IndexError
  | _ => Raise (AttributeError "exprs")
  end.

(** The text [1 / (scale)] handed to sympy. *)
Definition one_over (scale : expr) : string :=
  "1 / (" +:+ generate scale +:+ ")".

Fixpoint all_scales (calls : list expr) : result (list string) :=
  match calls with
  | [] => Ok []
  | call :: calls =>
      scale ← scale_of call;
      rest ← all_scales calls;
      Ok (one_over scale :: rest)
  end.

(** The new scale of a [Lap] call. *)
Definition scaled_down (l : sym) (scale : expr) : expr :=
  parse (expr_simplify ("(" +:+ generate scale +:+ ") / (" +:+ str l +:+ ")")).

(** The assignment [scale.args.exprs[0] = ...] on a collected call. *)
Definition rescale_call (l : sym) (call : expr) : expr :=
  match call with
  | FuncCall name (Some (ExprList (scale :: others))) =>
      FuncCall name (Some (ExprList (scaled_down l scale :: others)))
  | _ => call
  end.

(** The calls collected are nodes of the processed function; assigning
    to them changes the function at the declarations they initialise. *)
Fixpoint rescale (l : sym) (node : stmt) : stmt :=
  match node with
  | Decl name type init =>
      if is_Lap init then Decl name type (rescale_call l <$> init) else node
  | If c t f => If c (rescale l t) (rescale l <$> f)
  | While c b => While c (rescale l b)
  | Compound items => Compound (map (rescale l) <$> items)
  | Assignment _ _ _ | ExprStmt _ | Return _ => node
  end.

(** [Preprocessor.process] on a [FuncDef], by a fresh preprocessor.
    Returns the processed function, the type system, the
    preconditions, the hole preconditions and the goal; the value of
    [lcm] is returned as well. *)
Definition process (node : FuncDef)
  : result (FuncDef * T * list string * list string * string * sym) :=
  '(processed, ann, st) ← visit_FuncDef node (mkState new_type_system []);
  scales ← all_scales (_random_scales st);
  let l := lcm (map fraction_denominator (scales ++ [_goal ann])) in
  if bool_decide (str l <> "1") then
    Ok (mkFuncDef (decl_name processed) (params processed)
                  (map (rescale l) <$> body_items processed),
        _type_system st, _preconditions ann, _hole_preconditions ann,
        expr_simplify ("(" +:+ _goal ann +:+ ") * (" +:+ str l +:+ ")"), l)
  else
    Ok (processed, _type_system st, _preconditions ann, _hole_preconditions ann,
        _goal ann, l).

(** *** The noise scales of a program

    [decl_scales]: the scale of every [Lap] call that initialises a
    declaration, in source order; [prescale] lists the same on a
    statement before the visit. *)
Definition decl_scale (init : option expr) : list expr :=
  match init with
  | Some (FuncCall (ID n) (Some (ExprList (scale :: _)))) =>
      if bool_decide (n = LAP C) then [scale] else []
  | _ => []
  end.

Fixpoint decl_scales (node : stmt) : list expr :=
  match node with
  | Decl _ _ init => decl_scale init
  | If _ t f => decl_scales t ++ match f with Some f => decl_scales f | None => [] end
  | While _ b => decl_scales b
  | Compound items =>
      match items with Some items => flat_map decl_scales items | None => [] end
  | Assignment _ _ _ | ExprStmt _ | Return _ => []
  end.

(** The scales of the collected calls that have one. *)
Definition call_scales (calls : list expr) : list expr :=
  flat_map (fun call => match scale_of call with
                        | Ok scale => [scale]
                        | Raise _ => []
                        end) calls.

(** What a visit adds to [_random_scales], and what it leaves of the
    statement: the [Lap] calls that initialise declarations. *)
Definition collects (node node' : stmt) (st st' : state) : Prop :=
  exists calls,
    _random_scales st' = _random_scales st ++ calls /\
    call_scales calls = decl_scales node /\
    decl_scales node' = decl_scales node.

(** The scale of every [Lap] call of an expression, wherever the call
    stands. *)
Fixpoint expr_scales (e : expr) : list expr :=
  match e with
  | Constant _ _ | ID _ => []
  | ArrayRef n s => expr_scales n ++ expr_scales s
  | BinaryOp _ l r => expr_scales l ++ expr_scales r
  | UnaryOp _ e => expr_scales e
  | TernaryOp c t f => expr_scales c ++ expr_scales t ++ expr_scales f
  | FuncCall name args =>
      match name, args with
      | ID n, Some (ExprList (scale :: rest)) =>
          (if bool_decide (n = LAP C) then [scale] else []) ++
          flat_map expr_scales (scale :: rest)
      | _, Some a => expr_scales a
      | _, None => []
      end
  | ExprList es => flat_map expr_scales es
  end.

Definition opt_scales (e : option expr) : list expr :=
  match e with Some e => expr_scales e | None => [] end.

(** The scale of every [Lap] call of a statement. *)
Fixpoint all_lap_scales (node : stmt) : list expr :=
  match node with
  | Assignment _ l r => expr_scales l ++ expr_scales r
  | Decl _ _ init => opt_scales init
  | If c t f =>
      expr_scales c ++ all_lap_scales t ++
      match f with Some f => all_lap_scales f | None => [] end
  | While c b => expr_scales c ++ all_lap_scales b
  | Compound items =>
      match items with Some items => flat_map all_lap_scales items | None => [] end
  | ExprStmt e => expr_scales e
  | Return e => opt_scales e
  end.

End WithCollaborators.
End Preprocessor.

(** ** checkdp/transform/utils.py : distances of expressions *)

Module Distances.
Section WithCollaborators.
Context (C : constants) {T : Type} `{TypeSystemOps T}.
(** pycparser on the text of an expression, its generator, and sympy's
    [simplify] as [try_simplify] wraps it (the text is returned unchanged
    when sympy fails). *)
Context (parse : string -> expr)
        (generate : expr -> string)
        (try_simplify : string -> string).

(** How an f-string prints a distance. *)
Definition pystr (d : option string) : string :=
  match d with
  | Some s => s
  | None => "None"
  end.

Definition is_star (d : option string) : bool := bool_decide (d = Some "*").

Definition aligned_of (tys : option string * option string * option string * bool)
  : option string := fst (fst (fst tys)).
Definition shadow_of (tys : option string * option string * option string * bool)
  : option string := snd (fst (fst tys)).

(** [get_types(node.name)[type_index] == '*'] on an [ID]. *)
Definition is_star_variable (type_system : T) (is_aligned : bool) (node : expr) : bool :=
  match node with
  | ID name =>
      let tys := get_types type_system name in
      is_star (if is_aligned then aligned_of tys else shadow_of tys)
  | _ => false
  end.

(** [is_divergent]: does the condition mention a variable whose aligned
    (first component) or shadow (second component) distance is [*]. *)
Definition is_divergent (type_system : T) (condition : expr) : bool * bool :=
  (negb (bool_decide (Utils.NodeFinder (is_star_variable type_system true) condition = [])),
   negb (bool_decide (Utils.NodeFinder (is_star_variable type_system false) condition = []))).

(** [ExpressionReplacer._replace] on an [ID] or an [ArrayRef]. *)
Definition _replace (types : T) (is_aligned : bool) (node : expr) : result expr :=
  varname ← match node with
            | ID name => Ok name
            | ArrayRef (ID name) _ => Ok name
            | ArrayRef _ _ => Raise (TypeError "the name of the array is not an identifier")
            | _ => Raise (NotImplementedError "Expression type currently not supported.")
            end;
  let tys := get_types types varname in
  let distance := if is_aligned then aligned_of tys else shadow_of tys in
  match distance with
  | Some d =>
      if bool_decide (d = "0") then Ok node
      else if bool_decide (d = "*") then
        let distance_varname :=
          (if is_aligned then ALIGNED_DISTANCE C else SHADOW_DISTANCE C) +:+ "_" +:+ varname in
        let distance_var :=
          match node with
          | ArrayRef _ subscript => ArrayRef (ID distance_varname) subscript
          | _ => ID distance_varname
          end in
        Ok (BinaryOp "+" node distance_var)
      else Ok (BinaryOp "+" node (parse d))
  | None => Raise (TypeError "cannot parse None")
  end.

Definition is_variable (node : expr) : bool :=
  match node with
  | ArrayRef _ _ | ID _ => true
  | _ => false
  end.

(** [ExpressionReplacer(types, is_aligned).visit(node)] on a copy of the
    expression: the operands of binary and unary operators that are
    variables are replaced, the other nodes are visited through
    [generic_visit]. *)
Fixpoint ExpressionReplacer (types : T) (is_aligned : bool) (node : expr) : result expr :=
  match node with
  | BinaryOp op l r =>
      l ← (if is_variable l then _replace types is_aligned l
           else ExpressionReplacer types is_aligned l);
      r ← (if is_variable r then _replace types is_aligned r
           else ExpressionReplacer types is_aligned r);
      Ok (BinaryOp op l r)
  | UnaryOp op e =>
      e ← (if is_variable e then _replace types is_aligned e
           else ExpressionReplacer types is_aligned e);
      Ok (UnaryOp op e)
  | Constant _ _ | ID _ => Ok node
  | ArrayRef n s =>
      n ← ExpressionReplacer types is_aligned n;
      s ← ExpressionReplacer types is_aligned s;
      Ok (ArrayRef n s)
  | TernaryOp c t f =>
      c ← ExpressionReplacer types is_aligned c;
      t ← ExpressionReplacer types is_aligned t;
      f ← ExpressionReplacer types is_aligned f;
      Ok (TernaryOp c t f)
  | FuncCall n a =>
      n ← ExpressionReplacer types is_aligned n;
      match a with
      | Some a => a ← ExpressionReplacer types is_aligned a; Ok (FuncCall n (Some a))
      | None => Ok (FuncCall n None)
      end
  | ExprList es =>
      es ← (fix visit_all (es : list expr) : result (list expr) :=
              match es with
              | [] => Ok []
              | e :: es =>
                  e ← ExpressionReplacer types is_aligned e;
                  es ← visit_all es;
                  Ok (e :: es)
              end) es;
      Ok (ExprList es)
  end.

(** The text of a tracked distance: [(ALIGNED_x)] or [(ALIGNED_x[i])]. *)
Definition tracked (version name : string) (subscript : option string) : string :=
  match subscript with
  | Some i => "(" +:+ version +:+ "_" +:+ name +:+ "[" +:+ i +:+ "])"
  | None => "(" +:+ version +:+ "_" +:+ name +:+ ")"
  end.

(** [DistanceGenerator(types).visit(node)]: the aligned and the shadow
    distance of an expression. *)
Fixpoint DistanceGenerator (types : T) (node : expr)
  : result (option string * option string) :=
  match node with
  | UnaryOp _ (Constant _ _) => Ok (Some "0", Some "0")
  | UnaryOp _ _ => Raise (NotImplementedError "UnaryOp")
  | Constant _ _ => Ok (Some "0", Some "0")
  | ID name =>
      let tys := get_types types name in
      Ok (if is_star (aligned_of tys)
          then Some (tracked (ALIGNED_DISTANCE C) name None) else aligned_of tys,
          if is_star (shadow_of tys)
          then Some (tracked (SHADOW_DISTANCE C) name None) else shadow_of tys)
  | ArrayRef (ID varname) subscript =>
      let subscript := generate subscript in
      let tys := get_types types varname in
      Ok (if is_star (aligned_of tys)
          then Some (tracked (ALIGNED_DISTANCE C) varname (Some subscript))
          else aligned_of tys,
          if is_star (shadow_of tys)
          then Some (tracked (SHADOW_DISTANCE C) varname (Some subscript))
          else shadow_of tys)
  | ArrayRef _ _ => Raise (AttributeError "name")
  | BinaryOp op l r =>
      '(la, ls) ← DistanceGenerator types l;
      '(ra, rs) ← DistanceGenerator types r;
      Ok (Some (try_simplify (pystr la +:+ " " +:+ op +:+ " " +:+ pystr ra)),
          Some (try_simplify (pystr ls +:+ " " +:+ op +:+ " " +:+ pystr rs)))
  | TernaryOp _ _ _ | FuncCall _ _ | ExprList _ =>
      Raise (NotImplementedError "generic_visit")
  end.

End WithCollaborators.
End Distances.

(** ** checkdp/transform/base.py : the transformer

    The transformer changes the syntax tree in place: it inserts siblings
    through the parent of a node, appends to the blocks of branches and
    replaces initialisers.  The statements of the tree are therefore
    objects of a store, referred to by their location; the fields that
    hold statements hold locations.  Expressions are kept as values: the
    transformer rewrites copies of them only. *)

Module Transformer.

Definition loc : Type := nat.

Inductive obj : Type :=
  | OAssignment (op : string) (lvalue rvalue : expr)
  | ODecl (name : string) (type : decl_type) (init : option expr)
  | OIf (cond : expr) (iftrue : loc) (iffalse : option loc)
  | OWhile (cond : expr) (stmt : loc)
  | OCompound (block_items : option (list loc))
  | OExpr (e : expr)
  | OReturn (e : option expr)
  | OFuncDef (name : string) (params : list (string * decl_type)) (body : loc).

(** The locations an object refers to. *)
Definition children (o : obj) : list loc :=
  match o with
  | OIf _ t f => t :: match f with Some f => [f] | None => [] end
  | OWhile _ b => [b]
  | OCompound items => match items with Some l => l | None => [] end
  | OFuncDef _ _ b => [b]
  | OAssignment _ _ _ | ODecl _ _ _ | OExpr _ | OReturn _ => []
  end.

Section WithCollaborators.
Context (C : constants) {T : Type} `{TypeSystemOps T}.
Context (parse : string -> expr)
        (generate : expr -> string)
        (try_simplify : string -> string)
        (expr_simplify : string -> string).
(** [Transformer._enable_shadow] *)
Context (enable_shadow : bool).

(** The store and the attributes of a [Transformer]. *)
Record state : Type := mkState {
  heap : gmap loc obj;
  next : loc;
  _type_system : T;
  _parameters : list string;
  _random_variables : list string;
  _parents : gmap loc loc;
  _loop_level : Z;
  _pc : bool
}.

(** Computations on the state that may raise. *)
Definition M (A : Type) : Type := state -> result (A * state).

#[global] Instance M_ret : MRet M := fun _ a st => Ok (a, st).
#[global] Instance M_bind : MBind M := fun _ _ k m st =>
  match m st with
  | Ok (a, st) => k a st
  | Raise e => Raise e
  end.

Definition raise {A} (e : pyerror) : M A := fun _ => Raise e.
Definition lift {A} (r : result A) : M A := fun st =>
  match r with
  | Ok a => Ok (a, st)
  | Raise e => Raise e
  end.
Definition get {A} (f : state -> A) : M A := fun st => Ok (f st, st).

Definition set_heap (h : gmap loc obj) (st : state) : state :=
  mkState h (next st) (_type_system st) (_parameters st) (_random_variables st)
          (_parents st) (_loop_level st) (_pc st).
Definition set_next (n : loc) (st : state) : state :=
  mkState (heap st) n (_type_system st) (_parameters st) (_random_variables st)
          (_parents st) (_loop_level st) (_pc st).
Definition set_type_system (ts : T) (st : state) : state :=
  mkState (heap st) (next st) ts (_parameters st) (_random_variables st)
          (_parents st) (_loop_level st) (_pc st).
Definition set_parameters (ps : list string) (st : state) : state :=
  mkState (heap st) (next st) (_type_system st) ps (_random_variables st)
          (_parents st) (_loop_level st) (_pc st).
Definition set_random_variables (rs : list string) (st : state) : state :=
  mkState (heap st) (next st) (_type_system st) (_parameters st) rs
          (_parents st) (_loop_level st) (_pc st).
Definition set_parents (ps : gmap loc loc) (st : state) : state :=
  mkState (heap st) (next st) (_type_system st) (_parameters st) (_random_variables st)
          ps (_loop_level st) (_pc st).
Definition set_loop_level (n : Z) (st : state) : state :=
  mkState (heap st) (next st) (_type_system st) (_parameters st) (_random_variables st)
          (_parents st) n (_pc st).
Definition set_pc (b : bool) (st : state) : state :=
  mkState (heap st) (next st) (_type_system st) (_parameters st) (_random_variables st)
          (_parents st) (_loop_level st) b.

Definition modify (f : state -> state) : M unit := fun st => Ok (tt, f st).

(** The object at a location. *)
Definition load (l : loc) : M obj := fun st =>
  match heap st !! l with
  | Some o => Ok (o, st)
  | None => Raise (KeyError "no object at this location")
  end.

(** An assignment to the fields of the object at [l]. *)
Definition store (l : loc) (o : obj) : M unit :=
  modify (fun st => set_heap (<[l := o]> (heap st)) st).

(** The creation of an object. *)
Definition alloc (o : obj) : M loc := fun st =>
  Ok (next st, set_next (S (next st)) (set_heap (<[next st := o]> (heap st)) st)).

Fixpoint alloc_all (os : list obj) : M (list loc) :=
  match os with
  | [] => mret []
  | o :: os => l ← alloc o; ls ← alloc_all os; mret (l :: ls)
  end.

(** [node.block_items] of the object at [l]: an object that is not a
    [Compound] has no such attribute. *)
Definition block_items_of (l : loc) : M (option (list loc)) :=
  o ← load l;
  match o with
  | OCompound items => mret items
  | _ => raise (AttributeError "block_items")
  end.

(** The list [block_items] of the [Compound] at [l], for the list methods
    ([insert], [extend], [append], slice assignment): [None] has none of
    them. *)
Definition block_list_of (l : loc) : M (list loc) :=
  items ← block_items_of l;
  match items with
  | Some items => mret items
  | None => raise (AttributeError "NoneType object has no such attribute")
  end.

(** *** [copy.deepcopy]

    The copy of an object is a new object; its fields that hold
    statements hold the copies of those statements.  [memo] maps the
    objects already copied to their copies. *)
Fixpoint deepcopy_with (deepcopy : loc -> gmap loc loc -> M (loc * gmap loc loc))
         (ls : list loc) (memo : gmap loc loc) : M (list loc * gmap loc loc) :=
  match ls with
  | [] => mret ([], memo)
  | l :: ls =>
      '(l', memo) ← deepcopy l memo;
      '(ls', memo) ← deepcopy_with deepcopy ls memo;
      mret (l' :: ls', memo)
  end.

Fixpoint deepcopy (fuel : nat) (l : loc) (memo : gmap loc loc) : M (loc * gmap loc loc) :=
  match fuel with
  | O => raise RecursionError
  | S fuel =>
      match memo !! l with
      | Some l' => mret (l', memo)
      | None =>
          o ← load l;
          (* the new object, entered in the memo before its fields are copied *)
          l' ← alloc o;
          let memo := <[l := l']> memo in
          '(o', memo) ←
            match o with
            | OIf c t f =>
                '(t', memo) ← deepcopy fuel t memo;
                match f with
                | Some f => '(f', memo) ← deepcopy fuel f memo;
                            mret (OIf c t' (Some f'), memo)
                | None => mret (OIf c t' None, memo)
                end
            | OWhile c b =>
                '(b', memo) ← deepcopy fuel b memo;
                mret (OWhile c b', memo)
            | OCompound (Some items) =>
                '(items', memo) ← deepcopy_with (deepcopy fuel) items memo;
                mret (OCompound (Some items'), memo)
            | OFuncDef n ps b =>
                '(b', memo) ← deepcopy fuel b memo;
                mret (OFuncDef n ps b', memo)
            | OCompound None | OAssignment _ _ _ | ODecl _ _ _ | OExpr _ | OReturn _ =>
                mret (o, memo)
            end;
          _ ← store l' o';
          mret (l', memo)
      end
  end.

(** [deepcopy(node.block_items)]: the copy of a list of statements. *)
Definition deepcopy_list (fuel : nat) (ls : list loc) : M (list loc) :=
  '(ls', _) ← deepcopy_with (deepcopy fuel) ls ∅;
  mret ls'.

Abbreviation is_divergent := (@Distances.is_divergent T _).
Abbreviation ExpressionReplacer := (Distances.ExpressionReplacer C parse).
Abbreviation DistanceGenerator := (Distances.DistanceGenerator C generate try_simplify).
Abbreviation pystr := Distances.pystr.
Abbreviation aligned_of := Distances.aligned_of.
Abbreviation shadow_of := Distances.shadow_of.

(** *** The statements the transformer builds from text

    [parse] is applied to a text assembled from fixed parts and distances.
    The tree of an assignment has the shape of the fixed parts, with the
    parse of the text of the distance as its right-hand side. *)

(** [parse(f'{variable} = {distance}')] *)
Definition assign_text (variable distance : string) : obj :=
  OAssignment "=" (ID variable) (parse distance).

(** [c_ast.FuncCall(name=c_ast.ID(constants.ASSERT), args=args)] *)
Definition assert_call (args : expr) : obj :=
  OExpr (FuncCall (ID (ASSERT C)) (Some args)).

(** [parse(f'{constants.ASSERT}({distance} == 0)')]: the text is parsed as
    a whole, so an operator of the distance that binds less than [==]
    takes the comparison with [0] as its operand. *)
Definition assert_zero (distance : string) : obj :=
  OExpr (parse (ASSERT C +:+ "(" +:+ distance +:+ " == 0)")).

(** [Transformer._update_pc] *)
Definition _update_pc (pc : bool) (types : T) (condition : expr) : bool :=
  if negb enable_shadow then false
  else if pc then true
  else snd (is_divergent types condition).

(** [Transformer._instrument]: the statements built, in the order of the
    names of [type_system_1] (the source iterates over a set of names,
    whose order is not fixed). *)
Definition _instrument_name (type_system_1 type_system_2 : T) (pc : bool) (name : string)
  : list obj :=
  let tys1 := get_types type_system_1 name in
  let tys2 := get_types type_system_2 name in
  flat_map
    (fun '(is_shadow, version, distance_1, distance_2) =>
       match distance_1, distance_2 with
       | Some d1, Some d2 =>
           if negb enable_shadow || (is_shadow && pc) then []
           else if negb (bool_decide (d1 = "*")) && bool_decide (d2 = "*")
                then [assign_text (version +:+ "_" +:+ name) d1]
                else []
       | _, _ => []
       end)
    [(false, ALIGNED_DISTANCE C, aligned_of tys1, aligned_of tys2);
     (true, SHADOW_DISTANCE C, shadow_of tys1, shadow_of tys2)].

Definition _instrument (type_system_1 type_system_2 : T) (pc : bool) : list obj :=
  flat_map (_instrument_name type_system_1 type_system_2 pc)
           (filter (fun name => name ∈ names type_system_2) (names type_system_1)).

(** [list.index]: the position of the first occurrence. *)
Fixpoint index_of (l : loc) (items : list loc) : option nat :=
  match items with
  | [] => None
  | x :: items => if bool_decide (x = l) then Some O
                  else S <$> index_of l items
  end.

(** [Transformer._insert_at] for a sequence of nodes
    ([parent.block_items[index:index] = inserted]); a single node is the
    sequence of that node. *)
Definition _insert_at (node : loc) (inserted : list loc) (after : bool) : M unit :=
  parents ← get _parents;
  match parents !! node with
  | None => raise (KeyError "the node has no parent")
  | Some parent =>
      o ← load parent;
      match o with
      | OCompound (Some items) =>
          match index_of node items with
          | None => raise (ValueError "node is not in list")
          | Some i =>
              let index := if after then S i else i in
              store parent (OCompound (Some (take index items ++ inserted ++ drop index items)))
          end
      | OCompound None => raise (AttributeError "NoneType object has no attribute index")
      | _ => raise (ValueError "The parent node of the inserted node is not Compound")
      end
  end.

(** The name of an assigned variable: [variable.name], or
    [variable.name.name] for an [ArrayRef]. *)
Definition variable_name_of (variable : expr) : result string :=
  match variable with
  | ID name => Ok name
  | ArrayRef (ID name) _ => Ok name
  | _ => Raise (AttributeError "name")
  end.

Definition star_or_zero (b : bool) : option string :=
  if b then Some "*" else Some "0".

(** [Transformer._assign] (T-Asgn) *)
Definition _assign (variable expression : expr) (node : loc) : M unit :=
  variable_name ← lift (variable_name_of variable);
  ts ← get _type_system;
  let tys := get_types ts variable_name in
  let var_aligned := aligned_of tys in
  let var_shadow := shadow_of tys in
  '(aligned, shadow) ← lift (DistanceGenerator ts expression);
  loop_level ← get _loop_level;
  pc ← get _pc;
  _ ← (if bool_decide (loop_level = 0) then
         _ ← (if bool_decide (var_aligned = Some "*") || negb (bool_decide (aligned = Some "0"))
              then
                l ← alloc (assign_text (ALIGNED_DISTANCE C +:+ "_" +:+ variable_name)
                                       (pystr aligned));
                _insert_at node [l] true
              else mret tt);
         if enable_shadow then
           if pc then
             (* for an array element the source passes the text itself as
                the name of the new node *)
             let shadow_distance :=
               match variable with
               | ArrayRef _ subscript =>
                   ArrayRef (ID (SHADOW_DISTANCE C +:+ "_" +:+ variable_name)) subscript
               | _ => ID (SHADOW_DISTANCE C +:+ "_" +:+ variable_name)
               end in
             l ← alloc (OAssignment "=" shadow_distance
                          (BinaryOp "-" (BinaryOp "+" variable shadow_distance) expression));
             _insert_at node [l] false
           else if bool_decide (var_shadow = Some "*") || negb (bool_decide (shadow = Some "0"))
           then
             l ← alloc (assign_text (SHADOW_DISTANCE C +:+ "_" +:+ variable_name)
                                    (pystr shadow));
             _insert_at node [l] true
           else mret tt
         else mret tt
       else mret tt);
  let shadow_distance :=
    star_or_zero (pc || negb (bool_decide (shadow = Some "0"))
                  || bool_decide (var_shadow = Some "*")) in
  let aligned_distance :=
    star_or_zero (negb (bool_decide (aligned = Some "0"))
                  || bool_decide (var_aligned = Some "*")) in
  modify (fun st => set_type_system
                      (update_distance (_type_system st) variable_name
                                       aligned_distance shadow_distance) st).

(** [node.args.exprs[0]] *)
Definition first_argument (args : option expr) : result expr :=
  match args with
  | Some (ExprList (e :: _)) => Ok e
  | Some (ExprList []) => Raise IndexError
  | _ => Raise (AttributeError "exprs")
  end.

(** [node.name.name == constants.OUTPUT] *)
Definition is_OUTPUT (name : expr) : result bool :=
  match name with
  | ID n => Ok (bool_decide (n = OUTPUT C))
  | ArrayRef _ _ | FuncCall _ _ => Ok false
  | _ => Raise (AttributeError "name")
  end.

(** The visit of an expression through [generic_visit].  Only a
    [FuncCall] has a method of its own; a call inside an expression is not
    an item of a block, so it has no parent when [visit_FuncCall] wants to
    insert after it. *)
Fixpoint visit_expr (ts : T) (loop_level : Z) (e : expr) : result unit :=
  match e with
  | Constant _ _ | ID _ => Ok tt
  | ArrayRef n s => _ ← visit_expr ts loop_level n; visit_expr ts loop_level s
  | BinaryOp _ l r => _ ← visit_expr ts loop_level l; visit_expr ts loop_level r
  | UnaryOp _ e => visit_expr ts loop_level e
  | TernaryOp c t f =>
      _ ← visit_expr ts loop_level c; _ ← visit_expr ts loop_level t;
      visit_expr ts loop_level f
  | FuncCall name args =>
      _ ← (if bool_decide (loop_level = 0) then
             out ← is_OUTPUT name;
             if out : bool then
               e ← first_argument args;
               '(aligned_distance, _) ← DistanceGenerator ts e;
               if negb (bool_decide (aligned_distance = Some "0"))
               then Raise (KeyError "the node has no parent")
               else Ok tt
             else Ok tt
           else Ok tt);
      _ ← visit_expr ts loop_level name;
      match args with
      | Some a => visit_expr ts loop_level a
      | None => Ok tt
      end
  | ExprList es =>
      (fix visit_all (es : list expr) : result unit :=
         match es with
         | [] => Ok tt
         | e :: es => _ ← visit_expr ts loop_level e; visit_all es
         end) es
  end.

Definition visit_opt_expr (e : option expr) : M unit :=
  ts ← get _type_system;
  loop_level ← get _loop_level;
  match e with
  | Some e => lift (visit_expr ts loop_level e)
  | None => mret tt
  end.

(** [Transformer.visit_FuncCall] on a call that is a statement (T-Return). *)
Definition visit_FuncCall (node : loc) (name : expr) (args : option expr) : M unit :=
  loop_level ← get _loop_level;
  _ ← (if bool_decide (loop_level = 0) then
         out ← lift (is_OUTPUT name);
         if out : bool then
           ts ← get _type_system;
           e ← lift (first_argument args);
           '(aligned_distance, _) ← lift (DistanceGenerator ts e);
           if negb (bool_decide (aligned_distance = Some "0")) then
             l ← alloc (assert_zero (pystr aligned_distance));
             _insert_at node [l] true
           else mret tt
         else mret tt
       else mret tt);
  (* self.generic_visit(node) *)
  _ ← visit_opt_expr (Some name);
  visit_opt_expr args.

(** [Transformer.visit_Assignment] *)
Definition visit_Assignment (node : loc) (lvalue rvalue : expr) : M unit :=
  _assign lvalue rvalue node.

(** [HOLE in name] *)
Fixpoint contains (sub s : string) : bool :=
  String.prefix sub s ||
  match s with
  | String _ s' => contains sub s'
  | EmptyString => false
  end.

(** The statements of T-Laplace that follow the declaration. *)

(** [parse(f'{V_EPSILON} = {previous_cost} + {cost}')] *)
Definition cost_text (name : string) (scale : string) : string :=
  expr_simplify ("(Abs(" +:+ ALIGNED_DISTANCE C +:+ "_" +:+ name +:+ ") * (1 / ("
                 +:+ scale +:+ ")))").

Definition previous_cost (name : string) : expr :=
  if enable_shadow then
    TernaryOp (BinaryOp "==" (ID (SELECTOR C +:+ "_" +:+ name)) (parse (SELECT_ALIGNED C)))
              (ID (V_EPSILON C)) (Constant "int" "0")
  else ID (V_EPSILON C).

Definition v_epsilon_update (name : string) (scale : string) : obj :=
  OAssignment "=" (ID (V_EPSILON C))
              (BinaryOp "+" (previous_cost name) (parse (cost_text name scale))).

(** [parse(f'{ALIGNED}_{name} = {RANDOM_DISTANCE}_{name}')] *)
Definition random_distance_assignment (name : string) : obj :=
  OAssignment "=" (ID (ALIGNED_DISTANCE C +:+ "_" +:+ name))
              (ID (RANDOM_DISTANCE C +:+ "_" +:+ name)).

(** [parse(f'{SAMPLE_INDEX} = {SAMPLE_INDEX} + 1;')] *)
Definition sample_index_increment : obj :=
  OAssignment "=" (ID (SAMPLE_INDEX C))
              (BinaryOp "+" (ID (SAMPLE_INDEX C)) (Constant "int" "1")).

(** [parse(f'{SAMPLE_ARRAY}[{SAMPLE_INDEX}]')] *)
Definition sample_read : expr :=
  ArrayRef (ID (SAMPLE_ARRAY C)) (ID (SAMPLE_INDEX C)).

(** The switch of the tracked variables to their shadow distances, under
    the selector of the sample. *)
Definition distance_update_statements (ts : T) (parameters : list string) (name : string)
  : list obj :=
  flat_map
    (fun '(n, align, shadow, _, _) =>
       if bool_decide (align = Some "*") && negb (bool_decide (n ∈ parameters))
          && negb (bool_decide (n = name))
       then
         let shadow_distance :=
           if bool_decide (shadow = Some "*") then SHADOW_DISTANCE C +:+ "_" +:+ n
           else pystr shadow in
         [assign_text (ALIGNED_DISTANCE C +:+ "_" +:+ n) shadow_distance]
       else [])
    (variables ts).

(** The type system in which every distance is the shadow distance. *)
Definition shadow_type_system (ts : T) : T :=
  fold_left
    (fun acc '(n, _, shadow_distance, _, _) =>
       if contains (HOLE C) n then acc
       else update_distance acc n shadow_distance shadow_distance)
    (variables ts) ts.

(** T-Laplace, the part of [visit_Decl] for an initialiser that is a
    call. *)
Definition visit_Decl_sample (node : loc) (name : string) (type : decl_type)
           (args : option expr) : M unit :=
  pc ← get _pc;
  if enable_shadow && pc then
    raise (ValueError "Cannot have random variable assignment in shadow-diverging branches")
  else
    _ ← modify (fun st => set_random_variables
                            (if bool_decide (name ∈ _random_variables st)
                             then _random_variables st
                             else _random_variables st ++ [name]) st);
    _ ← modify (fun st => set_type_system
                            (update_distance (_type_system st) name (Some "*") (Some "0")) st);
    _ ← (if enable_shadow then
           modify (fun st => set_type_system
                               (merge (_type_system st)
                                      (shadow_type_system (_type_system st))) st)
         else mret tt);
    loop_level ← get _loop_level;
    if bool_decide (loop_level = 0) then
      ts ← get _type_system;
      parameters ← get _parameters;
      selector_branch ←
        (if enable_shadow then
           statements ← alloc_all (distance_update_statements ts parameters name);
           block ← alloc (OCompound (Some statements));
           distance_update ←
             alloc (OIf (BinaryOp "==" (ID (SELECTOR C +:+ "_" +:+ name))
                                  (parse (SELECT_SHADOW C)))
                        block None);
           mret [distance_update]
         else mret []);
      distance ← alloc (random_distance_assignment name);
      scale ← lift (first_argument args);
      v_epsilon ← alloc (v_epsilon_update name (generate scale));
      _ ← store node (ODecl name type (Some sample_read));
      increment ← alloc sample_index_increment;
      _insert_at node (selector_branch ++ [distance; v_epsilon; increment]) true
    else mret tt.

(** [Transformer.visit_Decl] *)
Definition visit_Decl (node : loc) (name : string) (type : decl_type)
           (init : option expr) : M unit :=
  match type with
  | FuncDecl => mret tt
  | TypeDecl _ =>
      match init with
      | None =>
          modify (fun st => set_type_system
                              (update_distance (_type_system st) name (Some "0") (Some "0")) st)
      | Some (Constant _ _ as e) | Some (BinaryOp _ _ _ as e) | Some (UnaryOp _ _ as e) =>
          _assign (ID name) e node
      | Some (FuncCall _ args) => visit_Decl_sample node name type args
      | Some _ => raise (NotImplementedError "Initial value currently not supported")
      end
  | _ => raise (NotImplementedError "Declaration type currently not supported")
  end.

(** [Transformer.visit_Compound]: the children are those the block had
    when the visit began. *)
Fixpoint visit_children (visit : loc -> M unit) (node : loc) (items : list loc) : M unit :=
  match items with
  | [] => mret tt
  | child :: items =>
      _ ← modify (fun st => set_parents (<[child := node]> (_parents st)) st);
      _ ← visit child;
      visit_children visit node items
  end.

Definition visit_Compound (visit : loc -> M unit) (node : loc)
           (block_items : option (list loc)) : M unit :=
  match block_items with
  | None => raise (TypeError "NoneType object is not iterable")
  | Some items => visit_children visit node items
  end.

(** *** The shadow branch *)

(** [child.lvalue.name in self._shadow_variables] on an [Assignment]. *)
Definition lvalue_in (shadow_variables : list string) (lvalue : expr) : result bool :=
  match lvalue with
  | ID n => Ok (bool_decide (n ∈ shadow_variables))
  | ArrayRef _ _ | FuncCall _ _ => Ok false
  | _ => Raise (AttributeError "name")
  end.

Fixpoint shadow_filter (shadow_variables : list string) (items : list loc)
  : M (list loc) :=
  match items with
  | [] => mret []
  | child :: items =>
      o ← load child;
      keep ← match o with
             | OAssignment _ lvalue _ => lift (lvalue_in shadow_variables lvalue)
             | _ => mret false
             end;
      rest ← shadow_filter shadow_variables items;
      mret (if keep : bool then child :: rest else rest)
  end.

Fixpoint shadow_rewrite (types : T) (items : list loc) : M unit :=
  match items with
  | [] => mret tt
  | child :: items =>
      o ← load child;
      _ ← match o with
          | OAssignment op (ID n) rvalue =>
              rvalue ← lift (ExpressionReplacer types false rvalue);
              store child (OAssignment op (ID (SHADOW_DISTANCE C +:+ "_" +:+ n))
                                       (BinaryOp "-" rvalue (ID n)))
          | _ => raise (AttributeError "name")
          end;
      shadow_rewrite types items
  end.

(** [_ShadowBranchGenerator.visit_Compound] *)
Definition shadow_Compound (shadow_variables : list string) (types : T) (node : loc)
  : M unit :=
  block_items ← block_items_of node;
  match block_items with
  | None => raise (TypeError "NoneType object is not iterable")
  | Some items =>
      kept ← shadow_filter shadow_variables items;
      _ ← store node (OCompound (Some kept));
      shadow_rewrite types kept
  end.

Definition shadow_variables_of (ts : T) : list string :=
  flat_map (fun '(n, _, shadow, _, _) =>
              if bool_decide (shadow = Some "*") then [n] else [])
           (variables ts).

(** The copy of a branch for the shadow branch:
    [c_ast.Compound(block_items=deepcopy(branch.block_items))]. *)
Definition copy_branch (fuel : nat) (branch : loc) : M loc :=
  block_items ← block_items_of branch;
  copied ← match block_items with
           | Some items => items ← deepcopy_list fuel items; mret (Some items)
           | None => mret None
           end;
  alloc (OCompound copied).

(** Lines 303-310: the shadow branch of an [If], built from copies of the
    transformed branches. *)
Definition build_shadow_branch (fuel : nat) (cond : expr) (iftrue : loc)
           (iffalse : option loc) : M loc :=
  ts ← get _type_system;
  shadow_cond ← lift (ExpressionReplacer ts false cond);
  shadow_true ← copy_branch fuel iftrue;
  shadow_false ← match iffalse with
                 | Some iffalse => l ← copy_branch fuel iffalse; mret (Some l)
                 | None => mret None
                 end;
  shadow_branch ← alloc (OIf shadow_cond shadow_true shadow_false);
  _ ← shadow_Compound (shadow_variables_of ts) ts shadow_true;
  _ ← match shadow_false with
      | Some l => shadow_Compound (shadow_variables_of ts) ts l
      | None => mret tt
      end;
  mret shadow_branch.

(** Lines 301-311: the shadow branch is inserted after the [If]. *)
Definition insert_shadow_branch (fuel : nat) (node : loc) (cond : expr)
           (iftrue : loc) (iffalse : option loc) : M unit :=
  shadow_branch ← build_shadow_branch fuel cond iftrue iffalse;
  _insert_at node [shadow_branch] true.

(** [block_items.insert(0, statement)] on the block at [block]. *)
Definition insert_first (block : loc) (statement : loc) : M unit :=
  items ← block_list_of block;
  store block (OCompound (Some (statement :: items))).

(** [block_items.extend(statements)] *)
Definition extend (block : loc) (statements : list loc) : M unit :=
  items ← block_list_of block;
  store block (OCompound (Some (items ++ statements))).

(** Lines 313-324: the else branch is created when absent, and the
    assertions are inserted at the head of both branches when the
    condition is aligned-divergent. *)
Definition insert_assertions (node : loc) (aligned_true_cond aligned_false_cond : expr)
  : M (loc * loc) :=
  o ← load node;
  match o with
  | OIf cond iftrue iffalse =>
      iffalse ← match iffalse with
                | Some iffalse => mret iffalse
                | None =>
                    l ← alloc (OCompound (Some []));
                    _ ← store node (OIf cond iftrue (Some l));
                    mret l
                end;
      ts ← get _type_system;
      let is_aligned_divergent := fst (is_divergent ts cond) in
      (* the two lists are read when [zip] is called *)
      _ ← block_items_of iftrue;
      _ ← block_items_of iffalse;
      _ ← (if is_aligned_divergent then
             a ← alloc (assert_call (ExprList [aligned_true_cond]));
             insert_first iftrue a
           else mret tt);
      _ ← (if is_aligned_divergent then
             a ← alloc (assert_call (UnaryOp "!" (ExprList [aligned_false_cond])));
             insert_first iffalse a
           else mret tt);
      mret (iftrue, iffalse)
  | _ => raise (AttributeError "iffalse")
  end.

(** Lines 326-330: the instrumentation at the end of both branches. *)
Definition instrument_branches (iftrue iffalse : loc) (true_types false_types : T)
  : M unit :=
  ts ← get _type_system;
  pc ← get _pc;
  inserts ← alloc_all (_instrument true_types ts pc);
  _ ← extend iftrue inserts;
  inserts ← alloc_all (_instrument false_types ts pc);
  extend iffalse inserts.

(** Lines 300-330: what [visit_If] emits at loop level 0. *)
Definition visit_If_emit (fuel : nat) (node : loc) (cond : expr) (iftrue : loc)
           (iffalse : option loc) (before_pc : bool)
           (aligned_true_cond aligned_false_cond : expr) (true_types false_types : T)
  : M unit :=
  pc ← get _pc;
  _ ← (if enable_shadow && pc && negb before_pc
       then insert_shadow_branch fuel node cond iftrue iffalse
       else mret tt);
  '(iftrue, iffalse) ← insert_assertions node aligned_true_cond aligned_false_cond;
  instrument_branches iftrue iffalse true_types false_types.

(** Lines 274-298: the visits of the two branches.  Returns the aligned
    conditions of the two assertions with the types at the end of each
    branch, and leaves the merged types in [_type_system]. *)
Definition visit_If_branches (visit : loc -> M unit) (cond : expr) (iftrue : loc)
           (iffalse : option loc) : M (expr * expr * T * T) :=
  before_pc ← get _pc;
  before_types ← get _type_system;
  _ ← modify (set_pc (_update_pc before_pc before_types cond));
  aligned_true_cond ← lift (ExpressionReplacer before_types true cond);
  _ ← visit iftrue;
  true_types ← get _type_system;
  _ ← modify (set_type_system before_types);
  _ ← match iffalse with
      | Some iffalse => visit iffalse
      | None => mret tt
      end;
  false_types ← get _type_system;
  aligned_false_cond ← lift (ExpressionReplacer false_types true cond);
  _ ← modify (set_type_system (merge false_types true_types));
  mret (aligned_true_cond, aligned_false_cond, true_types, false_types).

(** [Transformer.visit_If] (T-If) *)
Definition visit_If (visit : loc -> M unit) (fuel : nat) (node : loc) (cond : expr)
           (iftrue : loc) (iffalse : option loc) : M unit :=
  before_pc ← get _pc;
  '(aligned_true_cond, aligned_false_cond, true_types, false_types) ←
    visit_If_branches visit cond iftrue iffalse;
  loop_level ← get _loop_level;
  _ ← (if bool_decide (loop_level = 0)
       then visit_If_emit fuel node cond iftrue iffalse before_pc
                          aligned_true_cond aligned_false_cond true_types false_types
       else mret tt);
  modify (set_pc before_pc).

(** [self.generic_visit(node)] on a [While]. *)
Definition visit_While_children (visit : loc -> M unit) (cond : expr) (stmt : loc)
  : M unit :=
  _ ← visit_opt_expr (Some cond);
  visit stmt.

(** The loop [while fixed_types != self._type_system]; returns the last
    [fixed_types]. *)
Fixpoint fixed_point (visit : loc -> M unit) (cond : expr) (stmt : loc)
         (bound : nat) (fixed_types : option T) : M T :=
  ts ← get _type_system;
  let continue_ (bound : nat) : M T :=
    _ ← visit_While_children visit cond stmt;
    _ ← modify (fun st => set_type_system (merge (_type_system st) ts) st);
    match bound with
    | O => raise RecursionError
    | S bound => fixed_point visit cond stmt bound (Some ts)
    end in
  match bound with
  | O => raise RecursionError
  | S bound' =>
      match fixed_types with
      | Some fixed => if type_system_eqb fixed ts then mret fixed else continue_ bound'
      | None => continue_ bound'
      end
  end.

(** Lines 351-378: what [visit_While] emits at loop level 0. *)
Definition visit_While_emit (visit : loc -> M unit) (node : loc) (cond : expr) (stmt : loc)
           (before_types fixed_types : T) : M unit :=
  ts ← get _type_system;
  _ ← (if fst (is_divergent ts cond) then
         aligned_cond ← lift (ExpressionReplacer ts true cond);
         a ← alloc (assert_call (ExprList [aligned_cond]));
         insert_first stmt a
       else mret tt);
  _ ← visit_While_children visit cond stmt;
  after_visit ← get _type_system;
  _ ← modify (set_type_system (merge before_types fixed_types));
  ts ← get _type_system;
  pc ← get _pc;
  c_s ← alloc_all (_instrument before_types ts pc);
  _ ← _insert_at node c_s false;
  update_statements ← alloc_all (_instrument after_visit ts pc);
  extend stmt update_statements.

(** [Transformer.visit_While] (T-While) *)
Definition visit_While (visit : loc -> M unit) (fuel : nat) (node : loc) (cond : expr)
           (stmt : loc) : M unit :=
  before_pc ← get _pc;
  before_types ← get _type_system;
  _ ← modify (set_pc (_update_pc before_pc before_types cond));
  _ ← modify (fun st => set_loop_level (_loop_level st + 1) st);
  fixed_types ← fixed_point visit cond stmt fuel None;
  _ ← modify (fun st => set_loop_level (_loop_level st - 1) st);
  loop_level ← get _loop_level;
  _ ← (if bool_decide (loop_level = 0)
       then visit_While_emit visit node cond stmt before_types fixed_types
       else mret tt);
  modify (set_pc before_pc).

(** The dispatch of [NodeVisitor.visit] on the class of the node. *)
Definition visit_node (visit : loc -> M unit) (fuel : nat) (node : loc) : M unit :=
  o ← load node;
  match o with
  | OCompound block_items => visit_Compound visit node block_items
  | OAssignment _ lvalue rvalue => visit_Assignment node lvalue rvalue
  | ODecl name type init => visit_Decl node name type init
  | OIf cond iftrue iffalse => visit_If visit fuel node cond iftrue iffalse
  | OWhile cond stmt => visit_While visit fuel node cond stmt
  | OExpr (FuncCall name args) => visit_FuncCall node name args
  | OExpr e => visit_opt_expr (Some e)
  | OReturn e => visit_opt_expr e
  | OFuncDef _ _ _ => raise (NotImplementedError "a function definition inside a function")
  end.

(** [Transformer.visit]; [fuel] bounds the depth of the recursion and the
    number of iterations of a loop to its fixed point. *)
Fixpoint visit (fuel : nat) (node : loc) : M unit :=
  match fuel with
  | O => raise RecursionError
  | S fuel => visit_node (visit fuel) fuel node
  end.

(** The declarations [visit_FuncDef] puts at the head of the body. *)
Definition zero_declaration (type name : string) : obj :=
  ODecl name (TypeDecl [type]) (Some (Constant "int" "0")).

Definition distance_declarations (ts : T) (parameters : list string) : list obj :=
  flat_map
    (fun '(name, aligned, shadow, _, _) =>
       if bool_decide (name ∈ parameters) then []
       else
         flat_map
           (fun '(is_shadow, version, distance) =>
              if (is_shadow : bool) && negb enable_shadow then []
              else if bool_decide (distance = Some "*")
                      || bool_decide (distance = Some (version +:+ "_" +:+ name))
                   then [zero_declaration "float" (version +:+ "_" +:+ name)]
                   else [])
           [(false, ALIGNED_DISTANCE C, aligned); (true, SHADOW_DISTANCE C, shadow)])
    (variables ts).

(** [Transformer.visit_FuncDef]: the transformation is done on a deep copy
    of the node, whose location is returned. *)
Definition visit_FuncDef (fuel : nat) (node : loc) : M loc :=
  '(node, _) ← deepcopy fuel node ∅;
  o ← load node;
  match o with
  | OFuncDef _ params body =>
      _ ← modify (set_parameters (map fst params));
      (* self.generic_visit(node) *)
      _ ← visit fuel body;
      ts ← get _type_system;
      parameters ← get _parameters;
      insert_statements ←
        alloc_all ([zero_declaration "float" (V_EPSILON C);
                    zero_declaration "int" (SAMPLE_INDEX C)]
                   ++ distance_declarations ts parameters);
      items ← block_list_of body;
      _ ← store body (OCompound (Some (insert_statements ++ items)));
      mret node
  | _ => raise (AttributeError "decl")
  end.

(** [Transformer.transform] *)
Definition transform (fuel : nat) (node : loc) : M (loc * T) :=
  o ← load node;
  match o with
  | OFuncDef _ _ _ =>
      transformed ← visit_FuncDef fuel node;
      o ← load transformed;
      match o with
      | OFuncDef _ _ body =>
          r ← alloc (OReturn (Some (ID (V_EPSILON C))));
          _ ← extend body [r];
          ts ← get _type_system;
          mret (transformed, ts)
      | _ => raise (AttributeError "body")
      end
  | _ => raise (TypeError "Input node must have type c_ast.FuncDef, try to preprocess the node first.")
  end.

(** *** The objects of a parsed function

    The parser builds a node for every statement; the nodes of the
    children exist before the node that holds them. *)
Fixpoint alloc_stmt (s : stmt) : M loc :=
  match s with
  | Assignment op lvalue rvalue => alloc (OAssignment op lvalue rvalue)
  | Decl name type init => alloc (ODecl name type init)
  | If cond iftrue iffalse =>
      iftrue ← alloc_stmt iftrue;
      iffalse ← match iffalse with
                | Some iffalse => l ← alloc_stmt iffalse; mret (Some l)
                | None => mret None
                end;
      alloc (OIf cond iftrue iffalse)
  | While cond body => body ← alloc_stmt body; alloc (OWhile cond body)
  | Compound block_items =>
      block_items ←
        match block_items with
        | Some items =>
            ls ← (fix alloc_items (items : list stmt) : M (list loc) :=
                    match items with
                    | [] => mret []
                    | s :: items =>
                        l ← alloc_stmt s; ls ← alloc_items items; mret (l :: ls)
                    end) items;
            mret (Some ls)
        | None => mret None
        end;
      alloc (OCompound block_items)
  | ExprStmt e => alloc (OExpr e)
  | Return e => alloc (OReturn e)
  end.

Definition alloc_FuncDef (name : string) (params : list (string * decl_type))
           (body : stmt) : M loc :=
  body ← alloc_stmt body;
  alloc (OFuncDef name params body).

(** *** Stores
 
    [next] is the location of the next object to be created: in a store
    built by [alloc], every object lies below it, and so do the keys of
    [_parents]. *)
Definition allocated (st : state) : Prop :=
  forall l o, heap st !! l = Some o -> (l < next st)%nat.

Definition parents_allocated (st : state) : Prop :=
  forall k v, _parents st !! k = Some v -> (k < next st)%nat.

Definition allocatedb (st : state) : bool :=
  forallb (fun kv => bool_decide (fst kv < next st)%nat) (map_to_list (heap st)) &&
  forallb (fun kv => bool_decide (fst kv < next st)%nat) (map_to_list (_parents st)).

(** The attributes of the transformer are the same in both states. *)
Definition same_attributes (st st' : state) : Prop :=
  _type_system st' = _type_system st /\ _parameters st' = _parameters st /\
  _random_variables st' = _random_variables st /\ _parents st' = _parents st /\
  _loop_level st' = _loop_level st /\ _pc st' = _pc st.

(** The objects at [ls] are the objects [os], in this order. *)
Definition stored (st : state) (ls : list loc) (os : list obj) : Prop :=
  Forall2 (fun l o => heap st !! l = Some o) ls os.

(** The objects created since the allocation pointer was [base] refer to
    such objects only. *)
Definition closed_from (base : loc) (st : state) : Prop :=
  forall l o, (base <= l)%nat -> heap st !! l = Some o ->
              Forall (fun c => (base <= c)%nat) (children o).

Definition parents_from (base : loc) (st : state) : Prop :=
  forall k v, (base <= k)%nat -> _parents st !! k = Some v -> (base <= v)%nat.

Definition inv (base : loc) (st : state) : Prop :=
  (base <= next st)%nat /\ closed_from base st /\ parents_from base st.

(** The objects below [base] are the same in both stores. *)
Definition below (base : loc) (st st' : state) : Prop :=
  forall l, (l < base)%nat -> heap st' !! l = heap st !! l.

(** A computation that, started among the objects from [base] on, leaves
    the objects below [base] alone; [Q] holds of its result. *)
Definition keeps (base : loc) {A} (m : M A) (Q : A -> Prop) : Prop :=
  forall st a st', inv base st -> m st = Ok (a, st') ->
                   inv base st' /\ below base st st' /\ Q a.

End WithCollaborators.
End Transformer.

(** ** Stand-ins for the collaborators, for the examples

    What the regular expressions, the C printer and parser and sympy
    answer on the texts that occur in the examples below. *)

Module Examples.

Definition space_re_sub (s : string) : string := s.

Definition finditer_types (s : string) : list (string * (string * string)) :=
  if bool_decide (s = "query:<*,*>;size:<0,0>;epsilon:<0,0>") then
    [("query", ("*", "*")); ("size", ("0", "0")); ("epsilon", ("0", "0"))]
  else if bool_decide (s = "query:<*,*>;size:<0,0>;epsilon:<0,0>;eta:<0,0>") then
    [("query", ("*", "*")); ("size", ("0", "0")); ("epsilon", ("0", "0"));
     ("eta", ("0", "0"))]
  else if bool_decide (s = "query:<*,*>;size:<0,0>") then
    [("query", ("*", "*")); ("size", ("0", "0"))]
  else [].

Definition match_precondition (s : string) : option string :=
  if bool_decide (s = "PRECONDITION:ALL_DIFFER") then Some "ALL_DIFFER" else None.

Definition finditer_assume (s : string) : list string := [].

Definition match_check (s : string) : option string :=
  if bool_decide (s = "CHECK:1") then Some "1" else None.

Definition strip_quotes (s : string) : string := s.

(** The C text of the expressions of the examples. *)
Fixpoint generate (e : expr) : string :=
  match e with
  | Constant _ v => v
  | ID n => n
  | ArrayRef n i => generate n +:+ "[" +:+ generate i +:+ "]"
  | BinaryOp op l r => generate l +:+ " " +:+ op +:+ " " +:+ generate r
  | UnaryOp op e => op +:+ generate e
  | _ => "?"
  end.

(** The parser on the texts below. *)
Definition parse (s : string) : expr :=
  if bool_decide (s = "(2) / (2)") then
    BinaryOp "/" (Constant "int" "2") (Constant "int" "2")
  else if bool_decide (s = "CHECKDP_ASSERT((CHECKDP_ALIGNED_DISTANCE_query[0]) == 0)") then
    FuncCall (ID "CHECKDP_ASSERT")
      (Some (ExprList
               [BinaryOp "=="
                  (ArrayRef (ID "CHECKDP_ALIGNED_DISTANCE_query") (Constant "int" "0"))
                  (Constant "int" "0")]))
  else ID s.

Definition expr_simplify (s : string) : string := s.

(** sympy on numerals: the only fraction of the examples is [1 / (2)]. *)
Definition fraction_denominator (s : string) : Z :=
  if bool_decide (s = "1 / (2)") then 2 else 1.

Definition lcm (l : list Z) : Z := foldr Z.lcm 1 l.

Definition str (z : Z) : string := pretty z.

(** The annotations and the parameters of the examples. *)
Definition annotation (types : string) : list stmt :=
  [ExprStmt (Constant "string" types);
   ExprStmt (Constant "string" "PRECONDITION:ALL_DIFFER");
   ExprStmt (Constant "string" "CHECK:1")].

Definition parameters : list (string * decl_type) :=
  [("query", ArrayDecl ["int"] None); ("size", TypeDecl ["int"]);
   ("epsilon", TypeDecl ["float"])].

Definition Lap (scale : string) : expr :=
  FuncCall (ID "Lap") (Some (ExprList [Constant "int" scale])).

(** [float eta = Lap(2); CHECKDP_OUTPUT(eta);] *)
Definition sampling_in_declaration : Preprocessor.FuncDef :=
  Preprocessor.mkFuncDef "a" (Some parameters)
    (Some (annotation "query:<*,*>;size:<0,0>;epsilon:<0,0>" ++
           [Decl "eta" (TypeDecl ["float"]) (Some (Lap "2"));
            ExprStmt (FuncCall (ID "CHECKDP_OUTPUT") (Some (ExprList [ID "eta"])))])).

(** [int eta = 0; eta = Lap(2); CHECKDP_OUTPUT(eta);] *)
Definition sampling_in_assignment : Preprocessor.FuncDef :=
  Preprocessor.mkFuncDef "a" (Some parameters)
    (Some (annotation "query:<*,*>;size:<0,0>;epsilon:<0,0>" ++
           [Decl "eta" (TypeDecl ["int"]) (Some (Constant "int" "0"));
            Assignment "=" (ID "eta") (Lap "2");
            ExprStmt (FuncCall (ID "CHECKDP_OUTPUT") (Some (ExprList [ID "eta"])))])).

(** The same function with an annotation for [eta], which is not a
    parameter. *)
Definition extra_annotation : Preprocessor.FuncDef :=
  Preprocessor.mkFuncDef "a" (Some parameters)
    (Some (annotation "query:<*,*>;size:<0,0>;epsilon:<0,0>;eta:<0,0>" ++
           [ExprStmt (FuncCall (ID "CHECKDP_OUTPUT") (Some (ExprList [ID "size"])))])).

Definition preprocess :=
  Preprocessor.process checkdp_constants (T := SpecTypeSystem.t)
    space_re_sub finditer_types match_precondition finditer_assume finditer_assume
    match_check strip_quotes generate parse expr_simplify
    fraction_denominator lcm str.

(** *** The transformer on an example *)

(** The types after the annotation
    [query:<*,*>; size:<0,0>; epsilon:<0,0>]. *)
Definition types : SpecTypeSystem.t :=
  update_distance
    (update_distance
       (update_distance new_type_system "query" (Some "*") (Some "*"))
       "size" (Some "0") (Some "0"))
    "epsilon" (Some "0") (Some "0").

Definition try_simplify (s : string) : string := s.

Definition OUTPUT_call (e : expr) : stmt :=
  ExprStmt (FuncCall (ID "CHECKDP_OUTPUT") (Some (ExprList [e]))).

Definition noisy_query : expr :=
  BinaryOp "+" (ArrayRef (ID "query") (Constant "int" "0")) (ID "eta").

(** [int eta = Lap(1);
     if (query[0] + eta > 0) { CHECKDP_OUTPUT(1); } else { CHECKDP_OUTPUT(0); }
     CHECKDP_OUTPUT(query[0] + eta);] *)
Definition body : stmt :=
  Compound (Some
    [Decl "eta" (TypeDecl ["int"]) (Some (Lap "1"));
     If (BinaryOp ">" noisy_query (Constant "int" "0"))
        (Compound (Some [OUTPUT_call (Constant "int" "1")]))
        (Some (Compound (Some [OUTPUT_call (Constant "int" "0")])));
     OUTPUT_call noisy_query]).

(** A transformer before its first use. *)
Definition transformer : Transformer.state :=
  Transformer.mkState ∅ O types [] [] ∅ 0 false.

(** The function in the store, and its location. *)
Definition parsed : Transformer.loc * Transformer.state :=
  match Transformer.alloc_FuncDef "a" parameters body transformer with
  | Ok r => r
  | Raise _ => (O, transformer)
  end.

Definition transform (enable_shadow : bool) :=
  Transformer.transform checkdp_constants parse generate try_simplify expr_simplify
                        enable_shadow 20 (fst parsed) (snd parsed).

(** [Preprocessor.visit_FuncDef] on the function that samples in a
    declaration. *)
Definition visited :=
  Preprocessor.visit_FuncDef checkdp_constants (T := SpecTypeSystem.t)
    space_re_sub finditer_types match_precondition finditer_assume finditer_assume
    match_check strip_quotes sampling_in_declaration
    (Preprocessor.mkState new_type_system []).

Definition visited_function : Preprocessor.FuncDef :=
  match visited with
  | Ok (processed, _, _) => processed
  | Raise _ => sampling_in_declaration
  end.

(** A block that holds [CHECKDP_OUTPUT(query[0]);], while the block is
    visited at loop level 0. *)
Definition query_0 : expr := ArrayRef (ID "query") (Constant "int" "0").

Definition output_block : Transformer.state :=
  Transformer.mkState
    (<[1%nat := Transformer.OCompound (Some [O])]>
       {[ O := Transformer.OExpr
                 (FuncCall (ID "CHECKDP_OUTPUT") (Some (ExprList [query_0]))) ]})
    2%nat types [] [] {[ O := 1%nat ]} 0 false.

(** A block that holds [int eta = Lap(1);], while the block is visited
    at loop level 0. *)
Definition sampling_block : Transformer.state :=
  Transformer.mkState
    (<[1%nat := Transformer.OCompound (Some [O])]>
       {[ O := Transformer.ODecl "eta" (TypeDecl ["int"]) (Some (Lap "1")) ]})
    2%nat types [] [] {[ O := 1%nat ]} 0 false.







(** A block that holds [size = query[0] + 1;], while the block is
    visited at loop level 0. *)
Definition query_0_plus_1 : expr := BinaryOp "+" query_0 (Constant "int" "1").

Definition assignment_block : Transformer.state :=
  Transformer.mkState
    (<[1%nat := Transformer.OCompound (Some [O])]>
       {[ O := Transformer.OAssignment "=" (ID "size") query_0_plus_1 ]})
    2%nat types [] [] {[ O := 1%nat ]} 0 false.

(** A block that holds
    [while (size > 0) { if (query[0] > 0) { size = 0; } }],
    before the block is visited. *)
Definition loop_block : Transformer.state :=
  Transformer.mkState
    (list_to_map
       [(O, Transformer.OAssignment "=" (ID "size") (Constant "int" "0"));
        (1%nat, Transformer.OCompound (Some [O]));
        (2%nat, Transformer.OIf (BinaryOp ">" query_0 (Constant "int" "0")) 1%nat None);
        (3%nat, Transformer.OCompound (Some [2%nat]));
        (4%nat, Transformer.OWhile (BinaryOp ">" (ID "size") (Constant "int" "0")) 3%nat);
        (5%nat, Transformer.OCompound (Some [4%nat]))])
    6%nat types [] [] ∅ 0 false.

(** *** The CEGIS loop on an example *)

Definition default_alignment : model := {[ "CHECKDP_ALIGNMENT_ARRAY" := VSeq [0] ]}.

Definition counterexample : model := {[ "query" := VSeq [1] ]}.

(** The loop head after the executor has found a counterexample, and
    after it has then found no alignment for it. *)
Definition after_counterexample : Core.state :=
  {| Core.found_counterexamples := [counterexample];
     Core.possible_alignments := [default_alignment];
     Core.suffix := 1;
     Core.iterations := 1;
     Core.is_find_inputs := false;
     Core.is_final_validate := false;
     Core.is_jump_out := false |}.

Definition before_final_validation : Core.state :=
  {| Core.found_counterexamples := [counterexample];
     Core.possible_alignments := [default_alignment];
     Core.suffix := 1002;
     Core.iterations := 2;
     Core.is_find_inputs := false;
     Core.is_final_validate := true;
     Core.is_jump_out := false |}.

End Examples.

(** * Verified properties *)

Module CoreSpec.
Import Core.

Lemma removelast_Forall {A} (P : A -> Prop) (l : list A) :
  Forall P l -> Forall P (removelast l).
Proof.
  induction 1 as [|x l Hx Hl IH]; simpl; [constructor|].
  destruct l; [constructor|]. constructor; auto.
Qed.

Lemma pop_nonempty (l : list model) : l <> [] -> pop l = Ok (removelast l).
Proof. destruct l; [congruence|reflexivity]. Qed.

Lemma iteration_preserves_inv st r st' :
  inv st -> iteration st r = Continue st' -> inv st'.
Proof.
  intros (Hfv & Hne & Hall).
  unfold iteration.
  destruct (concretes st) as [cs|e] eqn:Hcs; [|discriminate].
  destruct (fill_guard cs) as [[]|e] eqn:Hg; [|discriminate].
  clear Hcs Hg.
  destruct st as [ces als sf it fi fv jo]; simpl in *.
  unfold on_counterexample, on_alignment, on_no_alignment, truthy.
  destruct r as [m|]; [destruct (bool_decide (m = ∅)) eqn:Hm|];
    destruct fi, fv; simpl; rewrite ?(pop_nonempty als Hne); simpl;
    try discriminate;
    try (specialize (Hfv eq_refl); discriminate);
    intros [= <-]; unfold inv; cbn;
    (split; [first [discriminate | auto]|]);
    (split; [first [discriminate | intros [_ ?]%app_eq_nil; discriminate | auto]|]);
    try apply bool_decide_eq_false in Hm;
    try (apply Forall_app; split; auto);
    auto using removelast_Forall.
Qed.

Lemma reachable_inv default st :
  default <> ∅ -> reachable default st -> inv st.
Proof.
  intros Hd Hr. induction Hr as [|st r st' _ IH Hstep].
  - unfold inv, initial; simpl. repeat split; auto; discriminate.
  - eapply iteration_preserves_inv; eauto.
Qed.

(** C1.  Whenever the loop head is reached with the search flag on inputs
    and the symbolic executor answers with no model, the iteration returns
    at once: the flag is [True] and the list returned is the one that was
    handed to the driver in this iteration, which at that point is the
    whole list of candidate alignments. *)
Theorem no_model_while_searching_inputs default st r :
  default <> ∅ ->
  reachable default st ->
  is_find_inputs st = true ->
  truthy r = false ->
  concretes st = Ok (possible_alignments st) /\
  iteration st r = Return true (possible_alignments st).
Proof.
  intros Hd Hr Hfi Hres.
  destruct (reachable_inv _ _ Hd Hr) as (Hfv & Hne & Hall).
  assert (Hc : concretes st = Ok (possible_alignments st)).
  { unfold concretes. rewrite Hfi, (Hfv Hfi). reflexivity. }
  split; [exact Hc|].
  unfold iteration. rewrite Hc.
  assert (Hg : fill_guard (possible_alignments st) = Ok tt).
  { unfold fill_guard. destruct (possible_alignments st) as [|c cs]; [congruence|].
    inversion Hall as [|? ? Hc0 ?]; subst.
    rewrite bool_decide_eq_false_2; auto. }
  rewrite Hg.
  unfold on_counterexample. rewrite Hres. simpl.
  destruct r; destruct st; simpl in *; rewrite Hfi; reflexivity.
Qed.

(** The first iteration of a run, with a one-slot default alignment and
    an executor that finds no input. *)
Lemma no_model_while_searching_inputs_witness :
  let default : model := {[ "CHECKDP_ALIGNMENT_ARRAY" := VSeq [0] ]} in
  concretes (initial default) = Ok [default] /\
  iteration (initial default) None = Return true [default].
Proof.
  intros default.
  apply (no_model_while_searching_inputs default (initial default) None).
  - apply (insert_non_empty (M := gmap string)).
  - constructor.
  - reflexivity.
  - reflexivity.
Defined.

End CoreSpec.

Module TemplateSpec.
Import Template.

Lemma zip_add_length xs ys :
  length (zip_add xs ys) = min (length xs) (length ys).
Proof.
  revert ys. induction xs as [|x xs IH]; intros [|y ys]; simpl; auto.
Qed.

Lemma zip_add_lookup xs ys i x y :
  xs !! i = Some x -> ys !! i = Some y -> zip_add xs ys !! i = Some (x + y).
Proof.
  revert ys i. induction xs as [|x0 xs IH]; intros [|y0 ys] [|i]; simpl;
    try discriminate.
  - intros [= ->] [= ->]. reflexivity.
  - apply IH.
Qed.

(** C8.  On an input map that holds the query array [q] and the aligned
    distance array [dq] of the query, [related_inputs] returns a map whose
    query entry is the elementwise sum of the two; every other entry is
    the one of the input map. *)
Theorem related_inputs_query C query rest (inputs : model) q dq :
  inputs !! query = Some (VSeq q) ->
  inputs !! (ALIGNED_DISTANCE C +:+ "_" +:+ query) = Some (VSeq dq) ->
  exists related,
    related_inputs C (query :: rest) inputs = Ok related /\
    related !! query = Some (VSeq (zip_add q dq)) /\
    (forall i x y, q !! i = Some x -> dq !! i = Some y ->
                   zip_add q dq !! i = Some (x + y)) /\
    length (zip_add q dq) = min (length q) (length dq) /\
    (forall k, k <> query -> related !! k = inputs !! k).
Proof.
  intros Hq Hdq.
  exists (<[query := VSeq (zip_add q dq)]> inputs).
  repeat split.
  - unfold related_inputs, item_at. rewrite Hq. simpl. rewrite Hdq. reflexivity.
  - apply lookup_insert_eq.
  - intros i x y. apply zip_add_lookup.
  - apply zip_add_length.
  - intros k Hk. apply lookup_insert_ne. congruence.
Qed.

(** A counterexample with a two-element query. *)
Lemma related_inputs_query_witness :
  let inputs : model :=
    {[ "q" := VSeq [1; 0];
       "CHECKDP_ALIGNED_DISTANCE_q" := VSeq [1; -1];
       "size" := VNum 2 ]} in
  exists related,
    related_inputs checkdp_constants ["q"; "size"; "epsilon"] inputs = Ok related /\
    related !! "q" = Some (VSeq [2; -1]).
Proof.
  intros inputs.
  destruct (related_inputs_query checkdp_constants "q" ["size"; "epsilon"]
              inputs [1; 0] [1; -1]) as (related & H1 & H2 & _).
  - reflexivity.
  - reflexivity.
  - exists related. split; [exact H1 | exact H2].
Defined.

End TemplateSpec.

Module RandomDistanceSpec.
Import RandomDistance.

Section WithConstants.
Context (C : constants).

Lemma leaf_terms_spec start index variables parts types :
  leaf_terms C start index variables parts types =
  (parts ++ map (render_term C)
                (map (fun '(i, v) => ((start + 1 + i)%nat, v))
                     (enumerate_from index variables)),
   types ++ map (fun _ => Variable_) variables).
Proof.
  revert index parts types.
  induction variables as [|v vs IH]; intros index parts types; simpl.
  - by rewrite !app_nil_r.
  - rewrite IH. by rewrite <- !app_assoc.
Qed.

Lemma tags_of_length conditions variables is_selector :
  length (tags_of conditions variables is_selector) =
  template_size conditions variables.
Proof.
  unfold template_size.
  induction conditions as [|c rest IH]; simpl.
  - rewrite length_map. lia.
  - rewrite length_app, IH. lia.
Qed.

(** The text is the rendering of [shape_of], and the tags appended are
    [tags_of]. *)
Lemma _generate_random_distance_spec conditions variables types is_selector :
  _generate_random_distance C conditions variables types is_selector =
  (render C (shape_of conditions variables (length types)),
   types ++ tags_of conditions variables is_selector).
Proof.
  revert types.
  induction conditions as [|c rest IH]; intros types.
  - cbn [_generate_random_distance shape_of tags_of render].
    rewrite leaf_terms_spec. cbn [app].
    f_equal. by rewrite <- app_assoc.
  - cbn [_generate_random_distance shape_of tags_of render].
    rewrite IH. rewrite IH.
    rewrite length_app, tags_of_length.
    by rewrite <- app_assoc.
Qed.

Lemma leaf_slots (variables : list string) start index :
  map fst (map (fun '(i, v) => ((start + 1 + i)%nat, v))
               (enumerate_from index variables)) =
  seq (start + 1 + index) (length variables).
Proof.
  revert index. induction variables as [|v vs IH]; intros index; simpl; [done|].
  f_equal. rewrite IH. f_equal. lia.
Qed.

Lemma slots_shape_of conditions variables start :
  slots (shape_of conditions variables start) =
  seq start (template_size conditions variables).
Proof.
  unfold template_size. revert start.
  induction conditions as [|c rest IH]; intros start.
  - cbn [shape_of slots length Nat.pow]. rewrite Nat.mul_1_l.
    rewrite leaf_slots. cbn [Nat.add seq]. do 2 f_equal. lia.
  - cbn [shape_of slots length Nat.pow].
    rewrite !IH. unfold template_size.
    rewrite <- seq_app. f_equal. lia.
Qed.

Lemma leaves_shape_of conditions variables start :
  leaves (shape_of conditions variables start) = (2 ^ length conditions)%nat.
Proof.
  revert start. induction conditions as [|c rest IH]; intros start; simpl; [done|].
  rewrite !IH. lia.
Qed.

Lemma count_tag_app t l1 l2 :
  count_tag t (l1 ++ l2) = (count_tag t l1 + count_tag t l2)%nat.
Proof. unfold count_tag. by rewrite filter_app, length_app. Qed.

Lemma count_selector_tags_of conditions variables is_selector :
  count_tag Selector_ (tags_of conditions variables is_selector) =
  if is_selector then (2 ^ length conditions)%nat else 0%nat.
Proof.
  induction conditions as [|c rest IH].
  - cbn [tags_of length Nat.pow].
    assert (Hv : count_tag Selector_ (map (fun _ : string => Variable_) variables) = 0%nat).
    { unfold count_tag. induction variables as [|v vs IHv]; [done|].
      simpl. rewrite filter_cons_False; [exact IHv|discriminate]. }
    change (?x :: ?l) with ([x] ++ l). rewrite count_tag_app, Hv.
    destruct is_selector; reflexivity.
  - cbn [tags_of length Nat.pow]. rewrite count_tag_app, IH.
    destruct is_selector; lia.
Qed.

Lemma generate_macro_spec sh dist eta conditions variables inserted types acc :
  generate_macro C sh dist eta conditions variables (inserted, types) = Ok acc ->
  exists dvs,
    distance_variables dist variables = Ok dvs /\
    acc = (inserted ++ map (render_macro C)
                          (macros_of sh eta conditions dvs (length types)),
           types ++ macro_tags sh conditions dvs).
Proof.
  unfold generate_macro, macros_of, macro_tags.
  destruct sh.
  - destruct conditions as [|c rest].
    + destruct (distance_variables dist variables) as [dvs|e]; [|discriminate].
      cbn [mbind result_bind].
      rewrite _generate_random_distance_spec. intros [= <-].
      exists dvs. split; [done|]. cbn [map app].
      by rewrite <- !app_assoc.
    + cbv beta match. remember (c :: rest) as conds eqn:E. clear E.
      rewrite _generate_random_distance_spec.
      destruct (distance_variables dist variables) as [dvs|e]; [|discriminate].
      cbn [mbind result_bind].
      rewrite _generate_random_distance_spec. intros [= <-].
      exists dvs. split; [done|]. cbn [map].
      rewrite length_app, tags_of_length.
      by rewrite <- !app_assoc.
  - destruct (distance_variables dist variables) as [dvs|e]; [|discriminate].
    cbn [mbind result_bind].
    rewrite _generate_random_distance_spec. intros [= <-].
    exists dvs. split; [done|]. reflexivity.
Qed.

Lemma macro_tags_length sh conditions dvs :
  length (macro_tags sh conditions dvs) =
  ((if sh then match conditions with [] => 0 | _ => template_size conditions [] end
    else 0) + template_size conditions dvs)%nat.
Proof.
  unfold macro_tags. rewrite length_app, tags_of_length.
  destruct sh; [|done]. destruct conditions; [done|].
  by rewrite tags_of_length.
Qed.

Lemma macros_of_slots sh eta conditions dvs start :
  flat_map macro_slots (macros_of sh eta conditions dvs start) =
  seq start (length (macro_tags sh conditions dvs)).
Proof.
  rewrite macro_tags_length. unfold macros_of.
  destruct sh; [destruct conditions as [|c rest]|];
    cbn [flat_map macro_slots app]; rewrite ?slots_shape_of, ?app_nil_r;
    try reflexivity.
  by rewrite <- seq_app.
Qed.

Lemma macros_of_selectors sh eta conditions dvs start :
  count_tag Selector_ (macro_tags sh conditions dvs) =
  sum_list_with selector_leaves (macros_of sh eta conditions dvs start).
Proof.
  unfold macro_tags, macros_of. rewrite count_tag_app.
  rewrite (count_selector_tags_of conditions dvs false).
  destruct sh; [destruct conditions as [|c rest]|]; cbn [sum_list_with selector_leaves];
    try reflexivity.
  rewrite count_selector_tags_of, leaves_shape_of. lia.
Qed.

(** What the loop of [generate_macros] has done when it ends: the
    macros it appended, and the tags it appended for them. *)
Lemma generate_macros_loop_spec sh dist templates inserted types inserted' types' :
  generate_macros_loop C sh dist templates (inserted, types) = Ok (inserted', types') ->
  exists ms tags,
    inserted' = inserted ++ map (render_macro C) ms /\
    types' = types ++ tags /\
    flat_map macro_slots ms = seq (length types) (length tags) /\
    count_tag Selector_ tags = sum_list_with selector_leaves ms /\
    Forall (fun m => match m with
                     | SelectorTemplate _ (Leaf _ _) => False
                     | _ => True
                     end) ms /\
    (forall eta vs, sh = true -> (eta, ([], vs)) ∈ templates ->
                    SelectorLiteral eta ∈ ms).
Proof.
  revert inserted types.
  induction templates as [|[eta [conditions variables]] templates IH];
    intros inserted types.
  - intros [= <- <-]. exists [], []. rewrite !app_nil_r.
    repeat split; auto. intros ? ? _ H. by apply elem_of_nil in H.
  - cbn [generate_macros_loop].
    destruct (generate_macro C sh dist eta conditions variables (inserted, types))
      as [acc|e] eqn:Hm; [|discriminate].
    cbn [mbind result_bind].
    apply generate_macro_spec in Hm as (dvs & Hd & ->).
    intros Hloop. apply IH in Hloop as (ms & tags & -> & -> & Hs & Hc & Hf & Hl).
    exists (macros_of sh eta conditions dvs (length types) ++ ms),
           (macro_tags sh conditions dvs ++ tags).
    rewrite map_app, !app_assoc. repeat split.
    + rewrite flat_map_app, macros_of_slots, Hs.
      rewrite length_app at 1. rewrite <- seq_app. by rewrite length_app.
    + rewrite count_tag_app, sum_list_with_app, Hc. f_equal.
      apply macros_of_selectors.
    + apply Forall_app. split; [|exact Hf].
      unfold macros_of. destruct sh; [destruct conditions|]; repeat constructor.
    + intros eta' vs Hsh Hin. apply elem_of_app.
      apply elem_of_cons in Hin as [[= -> <- <-]|Hin].
      * left. subst sh. cbn. left.
      * right. eauto.
Qed.

(** C7.  When [generate_macros] returns the macro text and the tag
    list, the text is the rendering of a list of macros such that: the
    slots of [alignment_array] the macros read, from the first macro to
    the last, are exactly [0, 1, ..., N-1] for [N] the number of tags (one
    tag per slot); the number of [Selector] tags is the number of leaves
    of the selector templates; no selector template is a bare leaf, and
    with shadow execution every random variable without conditions gets
    the literal selector, which reads no slot. *)
Theorem generate_macros_slot_tagging sh dist templates text tags :
  generate_macros C sh dist templates = Ok (text, tags) ->
  exists ms,
    text = join newline (map (render_macro C) ms) /\
    flat_map macro_slots ms = seq 0 (length tags) /\
    count_tag Selector_ tags = sum_list_with selector_leaves ms /\
    Forall (fun m => match m with
                     | SelectorTemplate _ (Leaf _ _) => False
                     | _ => True
                     end) ms /\
    (forall eta vs, sh = true -> (eta, ([], vs)) ∈ templates ->
                    SelectorLiteral eta ∈ ms /\
                    macro_slots (SelectorLiteral eta) = []).
Proof.
  unfold generate_macros.
  destruct (generate_macros_loop C sh dist templates ([], [])) as [[ins tys]|e] eqn:Hloop;
    [|discriminate].
  cbn [mbind result_bind]. intros [= <- <-].
  apply generate_macros_loop_spec in Hloop
    as (ms & tags & -> & -> & Hs & Hc & Hf & Hl).
  exists ms. cbn [app length] in *. repeat split; auto.
  by eapply Hl.
Qed.

End WithConstants.

(** Two random variables with shadow execution: [eta] under one
    condition, [eta2] under none. *)
Lemma generate_macros_slot_tagging_witness :
  exists text ms,
    generate_macros checkdp_constants true (fun v => Ok ("d_" +:+ v))
      [("eta", (["c"], ["q[i]"])); ("eta2", ([], ["x"]))]
    = Ok (text,
          [Selector_; Selector_; Constant_; Variable_; Constant_; Variable_;
           Constant_; Variable_]) /\
    flat_map macro_slots ms = seq 0 8 /\
    sum_list_with selector_leaves ms = 2%nat /\
    SelectorLiteral "eta2" ∈ ms.
Proof.
  eexists.
  destruct (generate_macros_slot_tagging checkdp_constants true
              (fun v => Ok ("d_" +:+ v))
              [("eta", (["c"], ["q[i]"])); ("eta2", ([], ["x"]))]
              _ _ eq_refl) as (ms & _ & Hs & Hc & _ & Hl).
  exists ms. split; [reflexivity|]. split; [exact Hs|]. split.
  - rewrite <- Hc. reflexivity.
  - apply (Hl "eta2" ["x"] eq_refl). right. left.
Defined.

End RandomDistanceSpec.

Module PostProcessorSpec.
Import PostProcessor.

Section WithConstants.
Context (C : constants).

Lemma is_sampling_Ok init b :
  is_sampling C init = Ok b -> b = sampling_Decl C init.
Proof.
  destruct init as [[]|]; simpl; try congruence.
  destruct name; simpl; congruence.
Qed.

(** [NodeFinder] finds an identifier named [name] exactly in the
    expressions that mention it. *)
Lemma NodeFinder_named_nil name e :
  Utils.NodeFinder (Utils.is_ID_named name) e = [] <-> mentions name e = false.
Proof.
  induction e as [t v|n|n s IHn IHs|op l r IHl IHr|op e IHe|c t f IHc IHt IHf
                  |n a IHn IHa|es IH] using expr_induction;
    cbn [Utils.NodeFinder Utils.is_ID_named mentions app].
  - split; reflexivity.
  - destruct (bool_decide (n = name)); split; discriminate || reflexivity.
  - rewrite app_nil, orb_false_iff, IHn, IHs. reflexivity.
  - rewrite app_nil, orb_false_iff, IHl, IHr. reflexivity.
  - exact IHe.
  - rewrite !app_nil, !orb_false_iff, IHc, IHt, IHf. tauto.
  - rewrite app_nil, orb_false_iff, IHn.
    destruct a as [a|]; [rewrite (IHa a eq_refl); reflexivity|tauto].
  - induction IH as [|x es Hx Hes IHes]; cbn [flat_map existsb]; [tauto|].
    rewrite app_nil, orb_false_iff, Hx, IHes. reflexivity.
Qed.

Lemma has_size_variable_mentions size cond :
  has_size_variable size cond = mentions size cond.
Proof.
  unfold has_size_variable. destruct (mentions size cond) eqn:Hm.
  - rewrite bool_decide_eq_false_2; [reflexivity|].
    intros Hnil%NodeFinder_named_nil. congruence.
  - rewrite bool_decide_eq_true_2; [reflexivity|]. by apply NodeFinder_named_nil.
Qed.

Lemma outside_loops_app l1 l2 :
  outside_loops (l1 ++ l2) = outside_loops l1 + outside_loops l2.
Proof. unfold outside_loops. rewrite filter_app, length_app. lia. Qed.

Lemma inside_loops_app l1 l2 :
  inside_loops (l1 ++ l2) = inside_loops l1 + inside_loops l2.
Proof.
  unfold inside_loops. induction l1 as [|d l1 IH]; simpl; [lia|].
  rewrite IH. lia.
Qed.

(** What a visit adds to the counters; [depth] is the level on entry.
    Outside every size-indexed loop the level is [0]. *)
Definition counted (size : string) (node : stmt) (st st' : state) : Prop :=
  _sized_loop_level st' = _sized_loop_level st /\
  _sample_array_size_loops st' =
    _sample_array_size_loops st +
    inside_loops (sampling_depths C size (_sized_loop_level st) node) /\
  _sample_array_size_constants st' =
    _sample_array_size_constants st +
    outside_loops (sampling_depths C size (_sized_loop_level st) node).

Lemma visit_counts query size rest node :
  forall st st',
    0 <= _sized_loop_level st ->
    visit C (query :: size :: rest) node st = Ok st' ->
    counted size node st st'.
Proof.
  induction node as [op l r|n t i|c t f IHt IHf|c b IHb|items IH|e|e]
    using stmt_induction; intros st st' Hlvl Hv; cbn [visit] in Hv.
  - injection Hv as <-. unfold counted, inside_loops, outside_loops; cbn. repeat split; lia.
  - unfold visit_Decl in Hv. unfold counted. cbn [sampling_depths].
    destruct (is_sampling C i) as [b|] eqn:Hs; [|discriminate].
    apply is_sampling_Ok in Hs. rewrite <- Hs.
    destruct b.
    + case_bool_decide as Hz; injection Hv as <-; cbn.
      * rewrite Hz. unfold outside_loops, inside_loops. cbn.
        repeat split; lia.
      * unfold outside_loops, inside_loops. cbn.
        destruct (decide (_sized_loop_level st = 0)); [done|].
        cbn. repeat split; lia.
    + injection Hv as <-. unfold inside_loops, outside_loops; cbn.
      repeat split; lia.
  - destruct (visit C (query :: size :: rest) t st) as [st1|] eqn:H1; [|discriminate].
    cbn [mbind result_bind] in Hv.
    destruct (IHt _ _ Hlvl H1) as (L1 & A1 & B1).
    unfold counted. cbn [sampling_depths].
    rewrite inside_loops_app, outside_loops_app.
    destruct f as [f|].
    + assert (Hlvl1 : 0 <= _sized_loop_level st1) by lia.
      destruct (IHf f eq_refl _ _ Hlvl1 Hv) as (L2 & A2 & B2).
      rewrite L1 in A2, B2. repeat split; lia.
    + injection Hv as <-.
      change (inside_loops []) with 0. change (outside_loops []) with 0.
      repeat split; lia.
  - cbn [size_parameter mbind result_bind] in Hv.
    destruct (visit C (query :: size :: rest) b
                (enter_loop (has_size_variable size c) st)) as [st1|] eqn:H1;
      [|discriminate].
    cbn [mbind result_bind] in Hv. injection Hv as <-.
    assert (Hlvl1 : 0 <= _sized_loop_level (enter_loop (has_size_variable size c) st)).
    { unfold enter_loop. destruct (has_size_variable size c); cbn; lia. }
    destruct (IHb _ _ Hlvl1 H1) as (L1 & A1 & B1).
    unfold counted. cbn [sampling_depths]. rewrite <- has_size_variable_mentions.
    unfold enter_loop, leave_loop in *.
    destruct (has_size_variable size c); cbn in *; repeat split; lia.
  - destruct items as [l|]; cbn [sampling_depths].
    + specialize (IH l eq_refl).
      revert st Hlvl Hv.
      induction IH as [|x l Hx Hl IHl]; intros st Hlvl Hv.
      * injection Hv as <-. unfold counted, inside_loops, outside_loops; cbn.
        repeat split; lia.
      * destruct (visit C (query :: size :: rest) x st) as [st1|] eqn:H1;
          [|discriminate].
        cbn [mbind result_bind] in Hv.
        destruct (Hx _ _ Hlvl H1) as (L1 & A1 & B1).
        assert (Hlvl1 : 0 <= _sized_loop_level st1) by lia.
        destruct (IHl _ Hlvl1 Hv) as (L2 & A2 & B2).
        unfold counted. cbn [sampling_depths] in *.
        change (flat_map ?f (x :: l)) with (f x ++ flat_map f l).
        rewrite inside_loops_app, outside_loops_app.
        rewrite L1 in A2, B2. repeat split; lia.
    + injection Hv as <-. unfold counted, inside_loops, outside_loops; cbn.
      repeat split; lia.
  - injection Hv as <-. unfold counted, inside_loops, outside_loops; cbn. repeat split; lia.
  - injection Hv as <-. unfold counted, inside_loops, outside_loops; cbn. repeat split; lia.
Qed.

(** C6.  The function [process] returns maps [query_size] to
    [loops * query_size + constants], where [constants] is the number of
    sampling statements of the body that lie outside every loop whose
    condition mentions the size parameter, and [loops] counts each
    sampling statement inside such loops once per enclosing
    size-indexed loop. *)
Theorem sample_size_counts query size rest body sample_size_func :
  process C (query :: size :: rest) body = Ok sample_size_func ->
  forall query_size,
    sample_size_func query_size =
    inside_loops (sampling_depths C size 0 body) * query_size +
    outside_loops (sampling_depths C size 0 body).
Proof.
  unfold process.
  destruct (visit C (query :: size :: rest) body initial) as [st|] eqn:Hv;
    [|discriminate].
  cbn [mbind result_bind]. intros [= <-] query_size.
  apply visit_counts in Hv as (_ & A & B); [|cbn; lia].
  unfold sample_size. rewrite A, B. cbn. lia.
Qed.

End WithConstants.

(** One sample before the loops, one inside the loop over the queries
    and one inside a loop whose condition does not mention [size]. *)
Lemma sample_size_counts_witness :
  let sample n := Decl n (TypeDecl ["int"])
                    (Some (ArrayRef (ID "CHECKDP_SAMPLE_ARRAY") (ID "CHECKDP_SAMPLE_INDEX"))) in
  let body :=
    Compound (Some [sample "eta_1";
                    While (BinaryOp "<" (ID "i") (ID "size"))
                          (Compound (Some [sample "eta_2"]));
                    While (BinaryOp "<" (ID "j") (Constant "int" "3"))
                          (Compound (Some [sample "eta_3"]))]) in
  exists f, process checkdp_constants ["q"; "size"; "epsilon"] body = Ok f /\
            f 5 = 7.
Proof.
  intros sample body.
  eexists. split; [reflexivity|].
  rewrite (sample_size_counts checkdp_constants "q" "size" ["epsilon"] body _ eq_refl 5).
  reflexivity.
Defined.

End PostProcessorSpec.

Module PreprocessorSpec.
Import Preprocessor.

Section Annotations.
Context (C : constants) {T : Type} `{TypeSystemOps T}.
Context (space_re_sub : string -> string)
        (finditer_types : string -> list (string * (string * string)))
        (match_precondition : string -> option string)
        (finditer_assume : string -> list string)
        (finditer_assume_hole : string -> list string)
        (match_check : string -> option string).
Context (strip_quotes : string -> string).

Abbreviation parse_annotation :=
  (parse_annotation space_re_sub finditer_types match_precondition
                    finditer_assume finditer_assume_hole match_check).
Abbreviation visit_FuncDef :=
  (visit_FuncDef C space_re_sub finditer_types match_precondition
                 finditer_assume finditer_assume_hole match_check strip_quotes).

Lemma visit_params_names ps : forall (st : @state T) ps' st',
  visit_params C ps st = Ok (ps', st') -> map fst ps' = map fst ps.
Proof.
  induction ps as [|[name type] ps IH]; intros st ps' st'; cbn [visit_params].
  - intros [= <- <-]. reflexivity.
  - destruct (visit_Decl C name type None st) as [[type' st1]|]; [|discriminate].
    cbn [mbind result_bind].
    destruct (visit_params C ps st1) as [[ps1 st2]|] eqn:Hps; [|discriminate].
    cbn [mbind result_bind]. intros [= <- <-]. cbn. f_equal. eauto.
Qed.

Lemma size_pos_iff (X : gset string) : (0 < size X)%nat <-> exists x, x ∈ X.
Proof.
  split; [apply size_pos_elem_of|].
  intros [x Hx]. assert (size X <> 0%nat); [|lia].
  apply size_non_empty_iff. set_solver.
Qed.

Lemma check_annotated_extra types ps v :
  v ∈ map fst types -> v ∉ map fst ps ->
  check_annotated types ps = Raise (ValueError msg_extra).
Proof.
  intros Hin Hnot. unfold check_annotated.
  rewrite bool_decide_eq_true_2; [reflexivity|].
  apply (proj2 (size_pos_iff _)). exists v.
  apply elem_of_difference. split; by rewrite elem_of_list_to_set.
Qed.

Lemma check_annotated_missing types ps p :
  (forall v, v ∈ map fst types -> v ∈ map fst ps) ->
  p ∈ map fst ps -> p ∉ map fst types ->
  check_annotated types ps = Raise (ValueError msg_missing).
Proof.
  intros Hsub Hin Hnot. unfold check_annotated.
  rewrite bool_decide_eq_false_2.
  - rewrite bool_decide_eq_true_2; [reflexivity|].
    apply (proj2 (size_pos_iff _)). exists p.
    apply elem_of_difference. split; by rewrite elem_of_list_to_set.
  - intros [v Hv%elem_of_difference]%(proj1 (size_pos_iff _)).
    destruct Hv as [Hv1 Hv2]. rewrite elem_of_list_to_set in Hv1, Hv2. auto.
Qed.

Lemma check_annotated_ok types ps :
  (forall v, v ∈ map fst types <-> v ∈ map fst ps) ->
  check_annotated types ps = Ok tt.
Proof.
  intros Heq. unfold check_annotated.
  rewrite !bool_decide_eq_false_2; [reflexivity| |];
    intros [v Hv%elem_of_difference]%(proj1 (size_pos_iff _));
    destruct Hv as [Hv1 Hv2]; rewrite elem_of_list_to_set in Hv1, Hv2;
    apply Hv2, Heq, Hv1.
Qed.

(** C9.  Let the checks that precede the annotation check pass, and let
    [types] be what [parse_annotation] extracts from the first
    annotation.  If [types] names a variable that is not a parameter,
    [visit_FuncDef] raises the [ValueError] on extra annotations; else,
    if a parameter is not named by [types], it raises the [ValueError]
    on missing annotations; and if the annotated names are exactly the
    parameters, the annotation check passes. *)
Theorem annotated_exactly_the_parameters
        (node : FuncDef) (st st1 : @state T) ps ps' a b c rest types pre hole goal :
  params node = Some ps ->
  check_parameters (params node) = Ok tt ->
  visit_params C ps st = Ok (ps', st1) ->
  annotations strip_quotes (body_items node) = Ok (a, b, c, rest) ->
  parse_annotation a b c = Ok (types, pre, hole, goal) ->
  ((exists v, v ∈ map fst types /\ v ∉ map fst ps) ->
   visit_FuncDef node st = Raise (ValueError msg_extra)) /\
  ((forall v, v ∈ map fst types -> v ∈ map fst ps) ->
   (exists p, p ∈ map fst ps /\ p ∉ map fst types) ->
   visit_FuncDef node st = Raise (ValueError msg_missing)) /\
  ((forall v, v ∈ map fst types <-> v ∈ map fst ps) ->
   check_annotated types ps' = Ok tt).
Proof.
  intros Hps Hcp Hvp Han Hpa.
  pose proof (visit_params_names _ _ _ _ Hvp) as Hnames.
  assert (Hprefix : forall r,
             check_annotated types ps' = Raise r ->
             visit_FuncDef node st = Raise r).
  { intros r Hr. unfold Preprocessor.visit_FuncDef.
    rewrite Hcp. cbn [mbind result_bind]. rewrite Hps.
    rewrite Hvp. cbn [mbind result_bind]. rewrite Han. cbn [mbind result_bind].
    rewrite Hpa. cbn [mbind result_bind]. rewrite Hr. reflexivity. }
  split; [|split].
  - intros (v & Hin & Hnot). apply Hprefix.
    apply (check_annotated_extra _ _ v); [done|by rewrite Hnames].
  - intros Hsub (p & Hin & Hnot). apply Hprefix.
    apply (check_annotated_missing _ _ p); rewrite ?Hnames; auto.
  - intros Heq. apply check_annotated_ok. by rewrite Hnames.
Qed.

End Annotations.

(** *** Numeric scaling *)

Section Scaling.
Context (C : constants) {T : Type} `{TypeSystemOps T}.
Context (space_re_sub : string -> string)
        (finditer_types : string -> list (string * (string * string)))
        (match_precondition : string -> option string)
        (finditer_assume : string -> list string)
        (finditer_assume_hole : string -> list string)
        (match_check : string -> option string).
Context (strip_quotes : string -> string).
Context (generate : expr -> string)
        (parse : string -> expr)
        (expr_simplify : string -> string).
Context {sym : Type}
        (fraction_denominator : string -> sym)
        (lcm : list sym -> sym)
        (str : sym -> string).

Abbreviation parse_annotation' :=
  (Preprocessor.parse_annotation space_re_sub finditer_types match_precondition
                    finditer_assume finditer_assume_hole match_check).
Abbreviation visit_FuncDef' :=
  (Preprocessor.visit_FuncDef C space_re_sub finditer_types match_precondition
                 finditer_assume finditer_assume_hole match_check strip_quotes).
Abbreviation process :=
  (process C space_re_sub finditer_types match_precondition
           finditer_assume finditer_assume_hole match_check strip_quotes
           generate parse expr_simplify fraction_denominator lcm str).


Lemma visit_Compound items (st : @state T) :
  visit C (Compound (Some items)) st =
  visit_items C items st ≫= fun '(items, st) => Ok (Compound (Some items), st).
Proof.
  cbn [visit].
  match goal with
  | |- mbind _ (?f items st) = _ =>
      assert (E : forall l s, f l s = visit_items C l s)
  end.
  { induction l as [|x l IH]; intros s; [reflexivity|].
    cbn [visit_items]. destruct (visit C x s) as [[x' st1]|]; [|reflexivity].
    cbn [mbind result_bind]. rewrite IH. reflexivity. }
  rewrite E. reflexivity.
Qed.

Lemma call_scales_app c1 c2 :
  call_scales (c1 ++ c2) = call_scales c1 ++ call_scales c2.
Proof. apply flat_map_app. Qed.

Lemma all_scales_Ok calls ss :
  all_scales generate calls = Ok ss ->
  ss = map (one_over generate) (call_scales calls).
Proof.
  revert ss. induction calls as [|call calls IH]; intros ss; cbn [all_scales].
  - intros [= <-]. reflexivity.
  - unfold call_scales. cbn [flat_map].
    destruct (scale_of call) as [scale|]; [|discriminate].
    cbn [mbind result_bind].
    destruct (all_scales generate calls) as [rest|]; [|discriminate].
    cbn [mbind result_bind]. intros [= <-]. cbn. f_equal. by apply IH.
Qed.

Lemma visit_Decl_collects name type init (st : @state T) type' st' :
  visit_Decl C name type init st = Ok (type', st') ->
  collects C (Decl name type init) (Decl name type' init) st st'.
Proof.
  unfold visit_Decl.
  destruct (match type with ArrayDecl _ dim => visit_opt_expr C dim | _ => Ok tt end);
    [|discriminate].
  cbn [mbind result_bind].
  destruct (visit_opt_expr C init); [|discriminate].
  cbn [mbind result_bind].
  destruct (String.prefix (PREFIX C) name); [discriminate|].
  match goal with
  | |- context [mbind _ ?m] => destruct m as [[ty ts]|]; [|discriminate]
  end.
  cbn [mbind result_bind]. intros [= <- <-].
  unfold collects. cbn [_random_scales decl_scales].
  destruct init as [call|]; [|exists []; by rewrite app_nil_r].
  destruct (is_Lap C (Some call)) eqn:HL.
  - exists [call]. split; [done|]. split; [|done].
    unfold call_scales, decl_scale. cbn [flat_map]. rewrite app_nil_r.
    destruct call as [| | | | | |name0 args|]; try discriminate.
    destruct name0; try discriminate. cbn in HL. rewrite HL.
    destruct args as [[]|]; try reflexivity.
    destruct exprs; reflexivity.
  - exists []. rewrite app_nil_r. split; [done|]. split; [|done].
    unfold decl_scale.
    destruct call as [| | | | | |name0 args|]; try reflexivity.
    destruct name0; try reflexivity. cbn in HL. rewrite HL.
    destruct args as [[]|]; try reflexivity.
    destruct exprs; reflexivity.
Qed.

Lemma collects_refl node (st : @state T) : decl_scales C node = [] -> collects C node node st st.
Proof.
  intros Hn. exists []. rewrite app_nil_r, Hn. done.
Qed.

Lemma visit_collects node :
  forall (st : @state T) node' st',
    visit C node st = Ok (node', st') -> collects C node node' st st'.
Proof.
  induction node as [op l r|n t i|c t f IHt IHf|c b IHb|items IH|e|e]
    using stmt_induction; intros st node' st'.
  - cbn [visit]. destruct (visit_expr C l); [|discriminate].
    cbn [mbind result_bind]. destruct (visit_expr C r); [|discriminate].
    cbn [mbind result_bind]. intros [= <- <-]. by apply collects_refl.
  - cbn [visit].
    destruct (visit_Decl C n t i st) as [[type' st1]|] eqn:Hd; [|discriminate].
    cbn [mbind result_bind]. intros [= <- <-]. by apply visit_Decl_collects.
  - cbn [visit]. destruct (visit_expr C c); [|discriminate].
    cbn [mbind result_bind].
    destruct (visit C t st) as [[t' st1]|] eqn:Ht; [|discriminate].
    cbn [mbind result_bind].
    destruct (IHt _ _ _ Ht) as (c1 & R1 & S1 & D1).
    destruct f as [f|].
    + destruct (visit C f st1) as [[f' st2]|] eqn:Hf; [|discriminate].
      cbn [mbind result_bind]. intros [= <- <-].
      destruct (IHf f eq_refl _ _ _ Hf) as (c2 & R2 & S2 & D2).
      exists (c1 ++ c2). cbn [decl_scales].
      rewrite R2, R1, call_scales_app, S1, S2, D1, D2, app_assoc. done.
    + intros [= <- <-]. exists c1. cbn [decl_scales].
      rewrite !app_nil_r. done.
  - cbn [visit]. destruct (visit_expr C c); [|discriminate].
    cbn [mbind result_bind].
    destruct (visit C b st) as [[b' st1]|] eqn:Hb; [|discriminate].
    cbn [mbind result_bind]. intros [= <- <-].
    exact (IHb _ _ _ Hb).
  - destruct items as [l|]; [|cbn [visit]; intros [= <- <-]; by apply collects_refl].
    rewrite visit_Compound.
    destruct (visit_items C l st) as [[l' st1]|] eqn:Hl; [|discriminate].
    cbn [mbind result_bind]. intros [= <- <-].
    specialize (IH l eq_refl). unfold collects. cbn [decl_scales].
    revert st l' st1 Hl.
    induction IH as [|x l Hx _ IHl]; intros st l' st'; cbn [visit_items].
    + intros [= <- <-]. exists []. by rewrite app_nil_r.
    + destruct (visit C x st) as [[x' st1]|] eqn:Hvx; [|discriminate].
      cbn [mbind result_bind].
      destruct (visit_items C l st1) as [[l1 st2]|] eqn:Hvl; [|discriminate].
      cbn [mbind result_bind]. intros [= <- <-].
      destruct (Hx _ _ _ Hvx) as (c1 & R1 & S1 & D1).
      destruct (IHl _ _ _ Hvl) as (c2 & R2 & S2 & D2).
      exists (c1 ++ c2).
      change (flat_map ?g (?a :: ?k)) with (g a ++ flat_map g k).
      rewrite R2, R1, call_scales_app, S1, S2, D1, D2, app_assoc. done.
  - cbn [visit]. destruct (visit_expr C e); [|discriminate].
    cbn [mbind result_bind]. intros [= <- <-]. by apply collects_refl.
  - discriminate.
Qed.

Lemma visit_items_collects items (st : @state T) items' st' :
  visit_items C items st = Ok (items', st') ->
  exists calls,
    _random_scales st' = _random_scales st ++ calls /\
    call_scales calls = flat_map (decl_scales C) items /\
    flat_map (decl_scales C) items' = flat_map (decl_scales C) items.
Proof.
  intros Hv.
  destruct (visit_collects (Compound (Some items)) st (Compound (Some items')) st')
    as (calls & R & S & D).
  - rewrite visit_Compound, Hv. reflexivity.
  - exists calls. done.
Qed.

Lemma visit_params_scales ps : forall (st : @state T) ps' st',
  visit_params C ps st = Ok (ps', st') -> _random_scales st' = _random_scales st.
Proof.
  induction ps as [|[name type] ps IH]; intros st ps' st'; cbn [visit_params].
  - intros [= <- <-]. reflexivity.
  - destruct (visit_Decl C name type None st) as [[type' st1]|] eqn:Hd; [|discriminate].
    cbn [mbind result_bind].
    destruct (visit_params C ps st1) as [[ps1 st2]|] eqn:Hps; [|discriminate].
    cbn [mbind result_bind]. intros [= <- <-].
    rewrite (IH _ _ _ Hps). clear -Hd.
    unfold visit_Decl in Hd.
    destruct (match type with ArrayDecl _ dim => visit_opt_expr C dim | _ => Ok tt end);
      [|discriminate].
    cbn [mbind result_bind visit_opt_expr] in Hd.
    destruct (String.prefix (PREFIX C) name); [discriminate|].
    match type of Hd with
    | context [mbind _ ?m] => destruct m as [[ty ts]|]; [|discriminate]
    end.
    cbn [mbind result_bind] in Hd. by injection Hd as <- <-.
Qed.

Abbreviation rescale := (rescale C generate parse expr_simplify str).
Abbreviation scaled_down := (scaled_down generate parse expr_simplify str).

Lemma rescale_scales l node :
  decl_scales C (rescale l node) = map (scaled_down l) (decl_scales C node).
Proof.
  induction node as [op lv r|n t i|c t f IHt IHf|c b IHb|items IH|e|e]
    using stmt_induction; cbn [Preprocessor.rescale decl_scales map]; try reflexivity.
  - destruct (is_Lap C i) eqn:HL; cbn [decl_scales].
    + destruct i as [call|]; [|discriminate].
      destruct call as [| | | | | |name0 args|]; try discriminate.
      destruct name0; try discriminate. cbn in HL.
      destruct args as [[]|]; cbn; rewrite ?HL; try reflexivity.
      destruct exprs; cbn; rewrite ?HL; reflexivity.
    + destruct i as [call|]; [|reflexivity].
      destruct call as [| | | | | |name0 args|]; try reflexivity.
      destruct name0; try reflexivity. cbn in HL.
      destruct args as [[]|]; cbn; rewrite ?HL; try reflexivity.
      destruct exprs; cbn; rewrite ?HL; reflexivity.
  - rewrite IHt, map_app. f_equal.
    destruct f as [f|]; cbn; [by apply IHf|reflexivity].
  - exact IHb.
  - destruct items as [items|]; cbn [fmap option_fmap option_map]; [|reflexivity].
    specialize (IH items eq_refl).
    induction IH as [|x items Hx _ IHitems]; [reflexivity|].
    cbn [map]. change (flat_map ?g (?a :: ?k)) with (g a ++ flat_map g k).
    rewrite map_app, Hx. f_equal. exact IHitems.
Qed.

Lemma annotations_rest a b c rest ta tb tc rest' :
  annotations strip_quotes (Some (a :: b :: c :: rest)) = Ok (ta, tb, tc, rest') ->
  rest' = rest.
Proof.
  cbn [annotations].
  destruct (annotation_text strip_quotes a); [|discriminate]. cbn [mbind result_bind].
  destruct (annotation_text strip_quotes b); [|discriminate]. cbn [mbind result_bind].
  destruct (annotation_text strip_quotes c); [|discriminate]. cbn [mbind result_bind].
  by intros [= _ _ _ <-].
Qed.

(** The steps of a successful [visit_FuncDef]. *)
Lemma visit_FuncDef_Ok node (st : @state T) processed ann st' :
  visit_FuncDef' node st = Ok (processed, ann, st') ->
  exists ps' st1 ta tb tc rest types pre hole goal rest',
    visit_params C (match params node with Some ps => ps | None => [] end) st
      = Ok (ps', st1) /\
    annotations strip_quotes (body_items node) = Ok (ta, tb, tc, rest) /\
    parse_annotation' ta tb tc = Ok (types, pre, hole, goal) /\
    visit_items C rest
      (mkState (fold_left (fun ts '(name, (aligned, shadow)) =>
                             update_distance ts name (Some aligned) (Some shadow))
                          types (_type_system st1))
               (_random_scales st1)) = Ok (rest', st') /\
    processed = mkFuncDef (decl_name node) (Some ps') (Some rest') /\
    ann = mkAnnotations pre hole goal.
Proof.
  unfold Preprocessor.visit_FuncDef.
  destruct (check_parameters (params node)); [|discriminate].
  cbn [mbind result_bind].
  destruct (visit_params C _ st) as [[ps' st1]|]; [|discriminate].
  cbn [mbind result_bind].
  destruct (annotations strip_quotes (body_items node)) as [[[[ta tb] tc] rest]|];
    [|discriminate].
  cbn [mbind result_bind].
  destruct (parse_annotation' ta tb tc) as [[[[types pre] hole] goal]|] eqn:Hpa;
    [|discriminate].
  cbn [mbind result_bind].
  destruct (check_annotated types ps'); [|discriminate].
  cbn [mbind result_bind].
  destruct (visit_items C rest _) as [[rest' st2]|] eqn:Hv; [|discriminate].
  cbn [mbind result_bind]. intros [= <- <- <-].
  by exists ps', st1, ta, tb, tc, rest, types, pre, hole, goal, rest'.
Qed.

(** C4, as the code has it.  Let [scales] be the scales of the [Lap]
    calls that initialise a declaration of the body, and [goal0] the
    goal of the annotation.  [process] computes [L] as the [lcm] of the
    denominators of [1 / (scale)] over [scales] and of the denominator
    of [goal0].  If the text of [L] is not [1], the scale of each of
    these calls is replaced by [(scale) / (L)] and the goal by
    [(goal0) * (L)], both simplified; otherwise scales and goal are
    unchanged. *)
Theorem numeric_scaling node a b c rest processed ts pre hole goal l :
  body_items node = Some (a :: b :: c :: rest) ->
  process node = Ok (processed, ts, pre, hole, goal, l) ->
  exists ta tb tc types pre0 hole0 goal0 items',
    annotations strip_quotes (body_items node) = Ok (ta, tb, tc, rest) /\
    parse_annotation' ta tb tc = Ok (types, pre0, hole0, goal0) /\
    body_items processed = Some items' /\
    let scales := flat_map (decl_scales C) rest in
    l = lcm (map fraction_denominator
                 (map (one_over generate) scales ++ [goal0])) /\
    (str l <> "1" ->
     flat_map (decl_scales C) items' = map (scaled_down l) scales /\
     goal = expr_simplify ("(" +:+ goal0 +:+ ") * (" +:+ str l +:+ ")")) /\
    (str l = "1" ->
     flat_map (decl_scales C) items' = scales /\ goal = goal0).
Proof.
  intros Hbody. unfold Preprocessor.process.
  destruct (visit_FuncDef' node (mkState new_type_system []))
    as [[[processed0 ann] st']|] eqn:Hv; [|discriminate].
  cbn [mbind result_bind].
  apply visit_FuncDef_Ok in Hv
    as (ps' & st1 & ta & tb & tc & rest0 & types & pre0 & hole0 & goal0 & rest'
        & Hps & Han & Hpa & Hvi & -> & ->).
  assert (rest0 = rest) as ->.
  { rewrite Hbody in Han. by apply annotations_rest in Han. }
  apply visit_params_scales in Hps. cbn [_random_scales] in Hps.
  apply visit_items_collects in Hvi as (calls & R & S & D).
  cbn [_random_scales] in R. rewrite Hps in R. cbn [app] in R.
  destruct (all_scales generate (_random_scales st')) as [ss|] eqn:Hss; [|discriminate].
  cbn [mbind result_bind].
  apply all_scales_Ok in Hss. rewrite R, S in Hss. subst ss.
  cbn [_goal _preconditions _hole_preconditions body_items decl_name params].
  set (L := lcm _).
  case_bool_decide as Hl; intros [= <- <- <- <- <- <-];
    exists ta, tb, tc, types, pre0, hole0, goal0.
  - exists (map (rescale L) rest'). cbn [body_items fmap option_fmap option_map].
    repeat split; auto; try congruence.
    rewrite <- D. clear.
    induction rest' as [|x rest' IH]; [reflexivity|].
    cbn [map]. change (flat_map ?g (?a :: ?k)) with (g a ++ flat_map g k).
    by rewrite map_app, rescale_scales, IH.
  - exists rest'. cbn [body_items]. repeat split; auto; try congruence.
Qed.

End Scaling.

Import Examples.

(** With one annotation per parameter the check passes; with an
    annotation for [eta] the function is rejected. *)
Lemma annotated_exactly_the_parameters_witness :
  check_annotated (finditer_types "query:<*,*>;size:<0,0>;epsilon:<0,0>")
    [("query", ArrayDecl ["int"] None); ("size", TypeDecl ["int"]);
     ("epsilon", TypeDecl ["int"])] = Ok tt /\
  visit_FuncDef checkdp_constants (T := SpecTypeSystem.t)
    space_re_sub finditer_types match_precondition finditer_assume finditer_assume
    match_check strip_quotes extra_annotation
    (mkState (T := SpecTypeSystem.t) new_type_system [])
  = Raise (ValueError msg_extra).
Proof.
  split.
  - refine (proj2 (proj2 (annotated_exactly_the_parameters checkdp_constants
             (T := SpecTypeSystem.t)
             space_re_sub finditer_types match_precondition finditer_assume
             finditer_assume match_check strip_quotes
             sampling_in_declaration (mkState new_type_system []) _ _ _ _ _ _ _ _ _ _ _
             eq_refl eq_refl eq_refl eq_refl eq_refl)) _).
    intros v. vm_compute (map fst _). reflexivity.
  - refine (proj1 (annotated_exactly_the_parameters checkdp_constants
             (T := SpecTypeSystem.t)
             space_re_sub finditer_types match_precondition finditer_assume
             finditer_assume match_check strip_quotes
             extra_annotation (mkState new_type_system []) _ _ _ _ _ _ _ _ _ _ _
             eq_refl eq_refl eq_refl eq_refl eq_refl) _).
    exists "eta". split.
    + vm_compute (map fst _). rewrite !elem_of_cons. auto.
    + vm_compute (map fst _). rewrite !elem_of_cons, elem_of_nil.
      intros [|[|[|]]]; discriminate || done.
Defined.

(** [float eta = Lap(2)] with goal [1]: [L] is [2], the scale becomes
    [(2) / (2)] and the goal [(1) * (2)]. *)
Lemma numeric_scaling_witness :
  exists processed ts pre hole items',
    preprocess sampling_in_declaration = Ok (processed, ts, pre, hole, "(1) * (2)", 2) /\
    Preprocessor.body_items processed = Some items' /\
    flat_map (decl_scales checkdp_constants) items' =
      [BinaryOp "/" (Constant "int" "2") (Constant "int" "2")].
Proof.
  do 4 eexists.
  destruct (numeric_scaling checkdp_constants (T := SpecTypeSystem.t)
              space_re_sub finditer_types match_precondition finditer_assume
              finditer_assume match_check strip_quotes generate parse expr_simplify
              fraction_denominator lcm str
              sampling_in_declaration _ _ _ _ _ _ _ _ _ _ eq_refl eq_refl)
    as (ta & tb & tc & types & pre0 & hole0 & goal0 & items' & _ & _ & Hb & _ & Hs & _).
  exists items'. split; [reflexivity|]. split; [exact Hb|].
  destruct Hs as [Hs _]; [discriminate|]. exact Hs.
Defined.

(** The claim as the specification words it, with every [Lap] call of the
    body, fails: a [Lap(2)] on the right of an assignment is accepted by
    the preprocessor and is not collected, so [L] is [1] where the
    denominators of all calls and of the goal have the [lcm] [2]. *)
Lemma lap_in_assignment_not_collected :
  exists processed ts pre hole goal l rest,
    preprocess sampling_in_assignment = Ok (processed, ts, pre, hole, goal, l) /\
    Preprocessor.body_items sampling_in_assignment
      = Some (annotation "query:<*,*>;size:<0,0>;epsilon:<0,0>" ++ rest) /\
    l <> lcm (map fraction_denominator
                  (map (one_over generate)
                       (flat_map (all_lap_scales checkdp_constants) rest) ++ ["1"])) /\
    Preprocessor.body_items processed = Some rest.
Proof.
  do 7 eexists. split; [reflexivity|]. split; [reflexivity|]. split.
  - vm_compute. discriminate.
  - vm_compute. reflexivity.
Defined.

End PreprocessorSpec.

Module TransformerSpec.
Import Transformer.

(** ** Computations on the store *)

Section Stores.
Context {T : Type}.
Implicit Types (st : state (T := T)) (base : loc).

Lemma bind_Ok {A B} (m : M (T := T) A) (k : A -> M B) st b st' :
  (m ≫= k) st = Ok (b, st') ->
  exists a st1, m st = Ok (a, st1) /\ k a st1 = Ok (b, st').
Proof.
  unfold mbind, M_bind. destruct (m st) as [[a st1]|e]; [eauto|discriminate].
Qed.

Lemma bind_eq {A B} (m : M (T := T) A) (k : A -> M B) st a st1 :
  m st = Ok (a, st1) -> (m ≫= k) st = k a st1.
Proof. unfold mbind, M_bind. intros ->. reflexivity. Qed.

Lemma same_attributes_refl st : same_attributes st st.
Proof. repeat split. Qed.

Lemma same_attributes_trans st1 st2 st3 :
  same_attributes st1 st2 -> same_attributes st2 st3 -> same_attributes st1 st3.
Proof.
  unfold same_attributes.
  intros (?&?&?&?&?&?) (?&?&?&?&?&?). repeat split; congruence.
Qed.

Lemma below_refl base st : below base st st.
Proof. intros l _. reflexivity. Qed.

Lemma below_trans base st1 st2 st3 :
  below base st1 st2 -> below base st2 st3 -> below base st1 st3.
Proof. intros H1 H2 l Hl. rewrite H2, H1 by assumption. reflexivity. Qed.

(** *** The rules of [keeps] *)

Lemma keeps_ret base {A} (a : A) (Q : A -> Prop) :
  Q a -> keeps (T := T) base (mret a) Q.
Proof.
  intros HQ st a' st' Hinv [= <- <-]. auto using below_refl.
Qed.

Lemma keeps_bind base {A B} (m : M (T := T) A) (k : A -> M B)
      (Q : A -> Prop) (Q' : B -> Prop) :
  keeps base m Q -> (forall a, Q a -> keeps base (k a) Q') ->
  keeps base (m ≫= k) Q'.
Proof.
  intros Hm Hk st b st' Hinv Hrun.
  apply bind_Ok in Hrun as (a & st1 & H1 & H2).
  destruct (Hm _ _ _ Hinv H1) as (Hinv1 & Hb1 & Hq).
  destruct (Hk a Hq _ _ _ Hinv1 H2) as (Hinv2 & Hb2 & Hq').
  eauto using below_trans.
Qed.

Lemma keeps_weaken base {A} (m : M (T := T) A) (Q Q' : A -> Prop) :
  keeps base m Q -> (forall a, Q a -> Q' a) -> keeps base m Q'.
Proof.
  intros Hm HQ st a st' Hinv Hrun.
  destruct (Hm _ _ _ Hinv Hrun) as (? & ? & ?). auto.
Qed.

Lemma keeps_raise base {A} (e : pyerror) (Q : A -> Prop) :
  keeps (T := T) base (raise e) Q.
Proof. intros st a st' _ [=]. Qed.

Lemma keeps_lift base {A} (r : result A) :
  keeps (T := T) base (lift r) (fun _ => True).
Proof.
  intros st a st' Hinv Hrun. unfold lift in Hrun.
  destruct r; inversion Hrun; subst. auto using below_refl.
Qed.

Lemma keeps_get base {A} (f : state -> A) :
  keeps (T := T) base (get f) (fun _ => True).
Proof. intros st a st' Hinv [= <- <-]. auto using below_refl. Qed.

Lemma keeps_get_parents base :
  keeps (T := T) base (get _parents)
        (fun parents => forall k v, (base <= k)%nat -> parents !! k = Some v -> (base <= v)%nat).
Proof.
  intros st a st' Hinv [= <- <-]. split; [auto|]. split; [apply below_refl|].
  apply Hinv.
Qed.

(** A change of the attributes other than [_parents]. *)
Lemma keeps_modify base (f : state -> state) :
  (forall st, heap (f st) = heap st /\ next (f st) = next st /\
              _parents (f st) = _parents st) ->
  keeps (T := T) base (modify f) (fun _ => True).
Proof.
  intros Hf st a st' (Hn & Hc & Hp) [= <- <-].
  destruct (Hf st) as (Eh & En & Ep).
  split; [|split; [|exact I]].
  - split; [|split].
    + rewrite En. exact Hn.
    + intros l o Hl. rewrite Eh. apply Hc; assumption.
    + intros k v Hk. rewrite Ep. apply Hp; assumption.
  - intros l _. rewrite Eh. reflexivity.
Qed.

Lemma keeps_set_parent base (child node : loc) :
  (base <= node)%nat ->
  keeps (T := T) base
        (modify (fun st => set_parents (<[child := node]> (_parents st)) st))
        (fun _ => True).
Proof.
  intros Hnode st a st' (Hn & Hc & Hp) [= <- <-].
  split; [|split; [|exact I]].
  - split; [exact Hn|]. split; [exact Hc|].
    intros k v Hk. cbn. destruct (decide (k = child)) as [->|Hne].
    + rewrite lookup_insert_eq. intros [= <-]. exact Hnode.
    + rewrite lookup_insert_ne by auto. apply Hp; assumption.
  - intros l _. reflexivity.
Qed.

Lemma keeps_load base (l : loc) :
  (base <= l)%nat ->
  keeps (T := T) base (load l) (fun o => Forall (fun c => (base <= c)%nat) (children o)).
Proof.
  intros Hl st o st' Hinv Hrun. unfold load in Hrun.
  destruct (heap st !! l) as [o'|] eqn:E; inversion Hrun; subst.
  split; [exact Hinv|]. split; [apply below_refl|].
  destruct Hinv as (_ & Hc & _). eapply Hc; eassumption.
Qed.

(** Any object may be read. *)
Lemma keeps_load_any base (l : loc) :
  keeps (T := T) base (load l) (fun _ => True).
Proof.
  intros st o st' Hinv Hrun. unfold load in Hrun.
  destruct (heap st !! l) as [o'|] eqn:E; inversion Hrun; subst.
  auto using below_refl.
Qed.

Lemma keeps_store base (l : loc) (o : obj) :
  (base <= l)%nat -> Forall (fun c => (base <= c)%nat) (children o) ->
  keeps (T := T) base (store l o) (fun _ => True).
Proof.
  intros Hl Ho st a st' (Hn & Hc & Hp) [= <- <-].
  split; [|split; [|exact I]].
  - split; [exact Hn|]. split; [|exact Hp].
    intros x o' Hx. cbn. destruct (decide (x = l)) as [->|Hne].
    + rewrite lookup_insert_eq. intros [= <-]. exact Ho.
    + rewrite lookup_insert_ne by auto. apply Hc; assumption.
  - intros x Hx. cbn. rewrite lookup_insert_ne by lia. reflexivity.
Qed.

Lemma keeps_alloc base (o : obj) :
  Forall (fun c => (base <= c)%nat) (children o) ->
  keeps (T := T) base (alloc o) (fun l => (base <= l)%nat).
Proof.
  intros Ho st a st' (Hn & Hc & Hp) [= <- <-].
  split; [|split; [|exact Hn]].
  - split; [cbn; lia|]. split; [|exact Hp].
    intros x o' Hx. cbn. destruct (decide (x = next st)) as [->|Hne].
    + rewrite lookup_insert_eq. intros [= <-]. exact Ho.
    + rewrite lookup_insert_ne by auto. apply Hc; assumption.
  - intros x Hx. cbn. rewrite lookup_insert_ne by lia. reflexivity.
Qed.

Lemma keeps_alloc_all base (os : list obj) :
  Forall (fun o => Forall (fun c => (base <= c)%nat) (children o)) os ->
  keeps (T := T) base (alloc_all os) (Forall (fun l => (base <= l)%nat)).
Proof.
  induction 1 as [|o os Ho Hos IH]; cbn [alloc_all].
  - apply keeps_ret. constructor.
  - eapply keeps_bind; [apply keeps_alloc, Ho|]. intros l Hl.
    eapply keeps_bind; [apply IH|]. intros ls Hls.
    apply keeps_ret. constructor; assumption.
Qed.

Lemma keeps_block_items_of base (l : loc) :
  (base <= l)%nat ->
  keeps (T := T) base (block_items_of l)
        (fun items => forall ls, items = Some ls -> Forall (fun c => (base <= c)%nat) ls).
Proof.
  intros Hl. unfold block_items_of.
  eapply keeps_bind; [apply keeps_load, Hl|]. intros o Ho.
  destruct o; try apply keeps_raise.
  apply keeps_ret. intros ls ->. exact Ho.
Qed.

Lemma keeps_block_items_of_any base (l : loc) :
  keeps (T := T) base (block_items_of l) (fun _ => True).
Proof.
  unfold block_items_of.
  eapply keeps_bind; [apply keeps_load_any|]. intros o _.
  destruct o; try apply keeps_raise. apply keeps_ret. exact I.
Qed.

Lemma keeps_block_list_of base (l : loc) :
  (base <= l)%nat ->
  keeps (T := T) base (block_list_of l) (Forall (fun c => (base <= c)%nat)).
Proof.
  intros Hl. unfold block_list_of.
  eapply keeps_bind; [apply keeps_block_items_of, Hl|]. intros items Hitems.
  destruct items; [|apply keeps_raise].
  apply keeps_ret. auto.
Qed.

Lemma Forall_take_app_drop {A} (P : A -> Prop) (n : nat) (l inserted : list A) :
  Forall P l -> Forall P inserted -> Forall P (take n l ++ inserted ++ drop n l).
Proof.
  intros Hl Hi. rewrite !Forall_app. auto using Forall_take, Forall_drop.
Qed.

Lemma keeps__insert_at base (node : loc) (inserted : list loc) (after : bool) :
  (base <= node)%nat -> Forall (fun c => (base <= c)%nat) inserted ->
  keeps (T := T) base (_insert_at node inserted after) (fun _ => True).
Proof.
  intros Hnode Hins. unfold _insert_at.
  eapply keeps_bind; [apply keeps_get_parents|]. intros parents Hparents.
  destruct (parents !! node) as [parent|] eqn:E; [|apply keeps_raise].
  assert (Hp : (base <= parent)%nat) by eauto.
  eapply keeps_bind; [apply keeps_load, Hp|]. intros o Ho.
  destruct o as [| | | |[items|]| | |]; try apply keeps_raise.
  destruct (index_of node items); [|apply keeps_raise].
  apply keeps_store; [exact Hp|]. cbn [children].
  apply Forall_take_app_drop; assumption.
Qed.

(** *** The attributes are left alone *)

Definition quiet {A} (m : M (T := T) A) : Prop :=
  forall st a st', m st = Ok (a, st') -> same_attributes st st'.

Lemma quiet_ret {A} (a : A) : quiet (mret a).
Proof. intros st a' st' [= <- <-]. apply same_attributes_refl. Qed.

Lemma quiet_bind {A B} (m : M (T := T) A) (k : A -> M B) :
  quiet m -> (forall a, quiet (k a)) -> quiet (m ≫= k).
Proof.
  intros Hm Hk st b st' Hrun.
  apply bind_Ok in Hrun as (a & st1 & H1 & H2).
  eapply same_attributes_trans; [eapply Hm, H1|eapply Hk, H2].
Qed.

Lemma quiet_raise {A} (e : pyerror) : quiet (raise (A := A) e).
Proof. intros st a st' [=]. Qed.

Lemma quiet_lift {A} (r : result A) : quiet (lift r).
Proof.
  intros st a st' Hrun. unfold lift in Hrun.
  destruct r; inversion Hrun; subst. apply same_attributes_refl.
Qed.

Lemma quiet_get {A} (f : state -> A) : quiet (get f).
Proof. intros st a st' [= <- <-]. apply same_attributes_refl. Qed.

Lemma quiet_load (l : loc) : quiet (load l).
Proof.
  intros st a st' Hrun. unfold load in Hrun.
  destruct (heap st !! l); inversion Hrun; subst. apply same_attributes_refl.
Qed.

Lemma quiet_store (l : loc) (o : obj) : quiet (store l o).
Proof. intros st a st' [= <- <-]. repeat split. Qed.

Lemma quiet_alloc (o : obj) : quiet (alloc o).
Proof. intros st a st' [= <- <-]. repeat split. Qed.

Lemma quiet_alloc_all (os : list obj) : quiet (alloc_all os).
Proof.
  induction os as [|o os IH]; cbn [alloc_all]; [apply quiet_ret|].
  apply quiet_bind; [apply quiet_alloc|]. intros l.
  apply quiet_bind; [apply IH|]. intros ls. apply quiet_ret.
Qed.

Lemma quiet_block_items_of (l : loc) : quiet (block_items_of l).
Proof.
  unfold block_items_of. apply quiet_bind; [apply quiet_load|].
  intros o. destruct o; try apply quiet_raise. apply quiet_ret.
Qed.

Lemma quiet_block_list_of (l : loc) : quiet (block_list_of l).
Proof.
  unfold block_list_of. apply quiet_bind; [apply quiet_block_items_of|].
  intros items. destruct items; [apply quiet_ret|apply quiet_raise].
Qed.

Lemma quiet__insert_at (node : loc) (inserted : list loc) (after : bool) :
  quiet (_insert_at node inserted after).
Proof.
  unfold _insert_at. apply quiet_bind; [apply quiet_get|]. intros parents.
  destruct (parents !! node); [|apply quiet_raise].
  apply quiet_bind; [apply quiet_load|]. intros o.
  destruct o as [| | | |[items|]| | |]; try apply quiet_raise.
  destruct (index_of node items); [apply quiet_store|apply quiet_raise].
Qed.

(** *** [deepcopy]

    A copy writes to new objects only, and the new objects refer to
    copies. *)

Definition memo_from (c : loc) (memo : gmap loc loc) : Prop :=
  forall k v, memo !! k = Some v -> (c <= v)%nat.

Definition copied (c : loc) st st' : Prop :=
  (next st <= next st')%nat /\
  (forall x, (x < next st)%nat -> heap st' !! x = heap st !! x) /\
  (forall x o, (next st <= x)%nat -> heap st' !! x = Some o ->
               heap st !! x = Some o \/ Forall (fun y => (c <= y)%nat) (children o)) /\
  same_attributes st st'.

Lemma copied_refl c st : copied c st st.
Proof.
  split; [lia|]. split; [auto|]. split; [auto|]. apply same_attributes_refl.
Qed.

Lemma copied_trans c st1 st2 st3 :
  copied c st1 st2 -> copied c st2 st3 -> copied c st1 st3.
Proof.
  intros (Hn1 & Hf1 & Hc1 & Ha1) (Hn2 & Hf2 & Hc2 & Ha2).
  split; [lia|]. split; [|split].
  - intros x Hx. rewrite Hf2 by lia. apply Hf1, Hx.
  - intros x o Hx Ho. destruct (decide (x < next st2)%nat) as [Hlt|Hge].
    + rewrite Hf2 in Ho by assumption. eapply Hc1; eassumption.
    + destruct (Hc2 x o) as [Ho'|Hcl]; [lia|assumption| |auto].
      eapply Hc1; eassumption.
  - eapply same_attributes_trans; eassumption.
Qed.

Definition copies (c : loc) (dc : loc -> gmap loc loc -> M (T := T) (loc * gmap loc loc))
  : Prop :=
  forall l memo st r memo' st',
    (c <= next st)%nat -> memo_from c memo -> dc l memo st = Ok ((r, memo'), st') ->
    (c <= r)%nat /\ memo_from c memo' /\ copied c st st'.

Lemma deepcopy_with_copied c dc :
  copies c dc ->
  forall ls memo st rs memo' st',
    (c <= next st)%nat -> memo_from c memo ->
    deepcopy_with dc ls memo st = Ok ((rs, memo'), st') ->
    Forall (fun r => (c <= r)%nat) rs /\ memo_from c memo' /\ copied c st st'.
Proof.
  intros Hdc. induction ls as [|l ls IH]; intros memo st rs memo' st' Hc Hmemo Hrun;
    cbn [deepcopy_with] in Hrun.
  - inversion Hrun; subst. auto using copied_refl.
  - apply bind_Ok in Hrun as ([r memo1] & st1 & H1 & Hrun).
    apply bind_Ok in Hrun as ([rs' memo2] & st2 & H2 & Hrun).
    inversion Hrun; subst.
    destruct (Hdc _ _ _ _ _ _ Hc Hmemo H1) as (Hr & Hmemo1 & Hcp1).
    assert (Hc1 : (c <= next st1)%nat) by (destruct Hcp1; lia).
    destruct (IH _ _ _ _ _ Hc1 Hmemo1 H2) as (Hrs & Hmemo2 & Hcp2).
    eauto using copied_trans.
Qed.

Lemma memo_from_insert c memo (k v : loc) :
  memo_from c memo -> (c <= v)%nat -> memo_from c (<[k := v]> memo).
Proof.
  intros Hmemo Hv k' v'. destruct (decide (k' = k)) as [->|Hne].
  - rewrite lookup_insert_eq. intros [= <-]. exact Hv.
  - rewrite lookup_insert_ne by auto. apply Hmemo.
Qed.

(** The copy of the fields of an object, then the assignment of the
    copies to the new object. *)
Lemma copied_fields c st l' st1 (o' : obj) (memo2 : gmap loc loc) st2 st3 o :
  alloc o st = Ok (l', st1) ->
  copied c st1 st2 ->
  Forall (fun y => (c <= y)%nat) (children o') ->
  store l' o' st2 = Ok (tt, st3) ->
  copied c st st3.
Proof.
  intros [= <- <-] (Hn & Hf & Hcl & Ha) Ho' [= <-]. cbn in *.
  split; [cbn; lia|]. split; [|split].
  - intros x Hx. cbn. rewrite lookup_insert_ne by lia.
    rewrite Hf by lia. rewrite lookup_insert_ne by lia. reflexivity.
  - intros x o1 Hx. cbn. destruct (decide (x = next st)) as [->|Hne].
    + rewrite lookup_insert_eq. intros [= <-]. auto.
    + rewrite lookup_insert_ne by auto. intros Ho1.
      destruct (Hcl x o1) as [Ho1'|Hc1]; [lia|assumption| |auto].
      rewrite lookup_insert_ne in Ho1' by auto. auto.
  - destruct Ha as (?&?&?&?&?&?). repeat split; assumption.
Qed.

Lemma deepcopy_copied c fuel : copies c (deepcopy (T := T) fuel).
Proof.
  induction fuel as [|fuel IH]; intros l memo st r memo' st' Hc Hmemo Hrun;
    cbn [deepcopy] in Hrun; [discriminate|].
  destruct (memo !! l) as [v|] eqn:Ememo.
  { inversion Hrun; subst. eauto using copied_refl. }
  apply bind_Ok in Hrun as (o & st0 & Hload & Hrun).
  assert (st0 = st) as ->.
  { unfold load in Hload. destruct (heap st !! l); inversion Hload; reflexivity. }
  apply bind_Ok in Hrun as (l' & st1 & Halloc & Hrun).
  assert (Hl' : l' = next st /\ next st1 = S (next st)).
  { inversion Halloc; subst. auto. }
  destruct Hl' as (-> & Hn1).
  assert (Hmemo1 : memo_from c (<[l := next st]> memo)) by auto using memo_from_insert.
  assert (Hc1 : (c <= next st1)%nat) by lia.
  apply bind_Ok in Hrun as ([o' memo2] & st2 & Hfields & Hrun).
  apply bind_Ok in Hrun as ([] & st3 & Hstore & Hrun).
  inversion Hrun; subst r memo' st'. clear Hrun.
  assert (Hgoal : memo_from c memo2 /\ copied c st1 st2 /\
                  Forall (fun y => (c <= y)%nat) (children o')).
  { pose proof (deepcopy_with_copied c _ IH) as IHs.
    destruct o as [op lv rv|n t i|cond t f|cond b|[items|]|e|e|n ps b].
    - inversion Hfields; subst. cbn. auto using copied_refl.
    - inversion Hfields; subst. cbn. auto using copied_refl.
    - apply bind_Ok in Hfields as ([t' m1] & s1 & Ht & Hfields).
      destruct (IH _ _ _ _ _ _ Hc1 Hmemo1 Ht) as (Ht' & Hm1 & Hcp1).
      destruct f as [f|].
      + apply bind_Ok in Hfields as ([f' m2] & s2 & Hf & Hfields).
        assert (Hcs1 : (c <= next s1)%nat) by (destruct Hcp1; lia).
        destruct (IH _ _ _ _ _ _ Hcs1 Hm1 Hf) as (Hf' & Hm2 & Hcp2).
        inversion Hfields; subst. cbn.
        split; [assumption|]. split; [eapply copied_trans; eassumption|].
        repeat constructor; assumption.
      + inversion Hfields; subst. cbn. auto.
    - apply bind_Ok in Hfields as ([b' m1] & s1 & Hb & Hfields).
      destruct (IH _ _ _ _ _ _ Hc1 Hmemo1 Hb) as (Hb' & Hm1 & Hcp1).
      inversion Hfields; subst. cbn. auto.
    - apply bind_Ok in Hfields as ([items' m1] & s1 & Hitems & Hfields).
      destruct (IHs _ _ _ _ _ _ Hc1 Hmemo1 Hitems) as (Hitems' & Hm1 & Hcp1).
      inversion Hfields; subst. cbn. auto.
    - inversion Hfields; subst. cbn. auto using copied_refl.
    - inversion Hfields; subst. cbn. auto using copied_refl.
    - inversion Hfields; subst. cbn. auto using copied_refl.
    - apply bind_Ok in Hfields as ([b' m1] & s1 & Hb & Hfields).
      destruct (IH _ _ _ _ _ _ Hc1 Hmemo1 Hb) as (Hb' & Hm1 & Hcp1).
      inversion Hfields; subst. cbn. auto. }
  destruct Hgoal as (Hmemo2 & Hcp & Hcl).
  split; [exact Hc|]. split; [exact Hmemo2|].
  eapply copied_fields; eassumption.
Qed.

Lemma copied_inv base c st st' :
  (base <= c)%nat -> inv base st -> copied c st st' ->
  inv base st' /\ below base st st'.
Proof.
  intros Hbase (Hn & Hc & Hp) (Hn' & Hf & Hcl & Ha). split.
  - split; [lia|]. split.
    + intros l o Hl Ho. destruct (decide (l < next st)%nat) as [Hlt|Hge].
      * rewrite Hf in Ho by assumption. eapply Hc; eassumption.
      * destruct (Hcl l o) as [Ho'|Hc']; [lia|assumption| |].
        -- eapply Hc; eassumption.
        -- eapply Forall_impl; [exact Hc'|]. cbv beta. intros; lia.
    + destruct Ha as (_&_&_&Ea&_). intros k v Hk. rewrite Ea. apply Hp, Hk.
  - intros l Hl. apply Hf. lia.
Qed.

Lemma keeps_deepcopy_list base (fuel : nat) (ls : list loc) :
  keeps (T := T) base (deepcopy_list fuel ls) (Forall (fun c => (base <= c)%nat)).
Proof.
  intros st rs st' Hinv Hrun. unfold deepcopy_list in Hrun.
  apply bind_Ok in Hrun as ([rs' memo] & st1 & Hcopy & Hrun).
  inversion Hrun; subst rs' st1. clear Hrun.
  destruct (deepcopy_with_copied (next st) _ (deepcopy_copied (next st) fuel)
              ls ∅ st rs memo st') as (Hrs & _ & Hcp); [lia| |exact Hcopy|].
  { intros k v. rewrite lookup_empty. discriminate. }
  pose proof Hinv as (Hn & _).
  destruct (copied_inv base (next st) st st' Hn Hinv Hcp) as (Hinv' & Hbelow).
  split; [exact Hinv'|]. split; [exact Hbelow|].
  eapply Forall_impl; [exact Hrs|]. cbv beta. intros; lia.
Qed.

Lemma keeps_deepcopy base (fuel : nat) (l : loc) :
  keeps (T := T) base (deepcopy fuel l ∅) (fun r => (base <= fst r)%nat).
Proof.
  intros st [r memo] st' Hinv Hrun.
  destruct (deepcopy_copied (next st) fuel l ∅ st r memo st') as (Hr & _ & Hcp);
    [lia| |exact Hrun|].
  { intros k v. rewrite lookup_empty. discriminate. }
  pose proof Hinv as (Hn & _).
  destruct (copied_inv base (next st) st st' Hn Hinv Hcp) as (Hinv' & Hbelow).
  split; [exact Hinv'|]. split; [exact Hbelow|]. cbn. lia.
Qed.

Lemma quiet_deepcopy_list (fuel : nat) (ls : list loc) : quiet (deepcopy_list fuel ls).
Proof.
  intros st rs st' Hrun. unfold deepcopy_list in Hrun.
  apply bind_Ok in Hrun as ([rs' memo] & st1 & Hcopy & Hrun).
  inversion Hrun; subst rs' st1. clear Hrun.
  destruct (deepcopy_with_copied O _ (deepcopy_copied O fuel)
              ls ∅ st rs memo st') as (_ & _ & Hcp); [lia| |exact Hcopy|].
  { intros k v. rewrite lookup_empty. discriminate. }
  apply Hcp.
Qed.

End Stores.
(** ** The transformer works on the objects it has created

    Every method of the transformer, started on a node created since the
    allocation pointer was [base], keeps the invariant [inv base] and
    leaves the objects below [base] alone. *)

Create HintDb keeps.

#[local] Hint Resolve keeps_lift keeps_get keeps_load keeps_store
  keeps_alloc keeps_alloc_all keeps__insert_at keeps_block_items_of
  keeps_block_list_of keeps_deepcopy_list keeps_set_parent : keeps.
#[local] Hint Extern 1 (Forall _ (children _)) => cbn; repeat constructor : keeps.
#[local] Hint Extern 1 (Forall _ (_ :: _)) => repeat constructor : keeps.
#[local] Hint Extern 1 (Forall _ []) => constructor : keeps.
#[local] Hint Extern 1 (Forall _ (_ ++ _)) => apply Forall_app; split : keeps.
#[local] Hint Extern 2 (keeps _ (modify _) _) =>
  apply keeps_modify; intros; cbn; auto : keeps.

Ltac keeps_close :=
  first [ apply keeps_ret;
          solve [auto with keeps|intros ? [= <-]; auto with keeps|intros ? [=]]
        | apply keeps_raise
        | solve [eauto with keeps]
        | eapply keeps_weaken; [solve [eauto with keeps]|solve [auto with keeps]] ].

Ltac default_post base A :=
  lazymatch A with
  | unit => constr:(fun _ : unit => True)
  | list loc => constr:(Forall (fun c : loc => (base <= c)%nat))
  | list nat => constr:(Forall (fun c : loc => (base <= c)%nat))
  | loc => constr:(fun c : loc => (base <= c)%nat)
  | nat => constr:(fun c : loc => (base <= c)%nat)
  | option loc =>
      constr:(fun c : option loc => forall l, c = Some l -> (base <= l)%nat)
  | _ => constr:(fun _ : A => True)
  end.

Ltac keeps_step :=
  cbv zeta;
  lazymatch goal with
  | |- keeps _ (mret _) _ => keeps_close
  | |- keeps _ (raise _) _ => apply keeps_raise
  | |- keeps ?base (@mbind _ _ ?A _ ?k (if ?b then ?m1 else ?m2)) ?Q' =>
      let Q := default_post base A in
      apply (keeps_bind base (if b then m1 else m2) k Q Q'); [destruct b|intros; cbv beta in *]
  | |- keeps ?base (@mbind _ _ ?A _ ?k (match ?x with _ => _ end)) ?Q' =>
      let Q := default_post base A in
      eapply (keeps_bind base _ k Q Q'); [destruct x|intros; cbv beta in *]
  | |- keeps ?base (@mbind _ _ _ _ ?k ?m) ?Q' =>
      eapply (keeps_bind base m k _ Q'); [solve [eauto with keeps]|intros; cbv beta in *]
  | |- keeps _ (if ?b then _ else _) _ => destruct b
  | |- keeps _ (match ?x with _ => _ end) _ => destruct x
  | |- keeps _ _ _ => keeps_close
  end.

Ltac keeps_auto := repeat keeps_step.

Section Frame.
Context (C : constants) {T : Type} `{TypeSystemOps T}.
Context (parse : string -> expr) (generate : expr -> string)
        (try_simplify expr_simplify : string -> string) (enable_shadow : bool).
Implicit Types (st : state (T := T)) (base : loc).

Lemma keeps__assign base variable expression node :
  (base <= node)%nat ->
  keeps base (_assign C parse generate try_simplify enable_shadow variable expression node)
        (fun _ => True).
Proof. intros Hnode. unfold _assign. keeps_auto. Qed.

Lemma keeps_visit_opt_expr base e :
  keeps (T := T) base (visit_opt_expr C generate try_simplify e) (fun _ => True).
Proof. unfold visit_opt_expr. keeps_auto. Qed.

Lemma keeps_visit_FuncCall base node name args :
  (base <= node)%nat ->
  keeps base (visit_FuncCall C parse generate try_simplify node name args) (fun _ => True).
Proof.
  intros Hnode. unfold visit_FuncCall. pose proof keeps_visit_opt_expr. keeps_auto.
Qed.

Lemma keeps_visit_Assignment base node lvalue rvalue :
  (base <= node)%nat ->
  keeps base (visit_Assignment C parse generate try_simplify enable_shadow node lvalue rvalue)
        (fun _ => True).
Proof. apply keeps__assign. Qed.

Lemma distance_update_statements_children base (ts : T) parameters name :
  Forall (fun o => Forall (fun c => (base <= c)%nat) (children o))
         (distance_update_statements C parse ts parameters name).
Proof.
  unfold distance_update_statements. apply Forall_flat_map, Forall_forall.
  intros [[[[n a] s] b] arr] _.
  destruct (_ && _); repeat constructor.
Qed.

Lemma keeps_visit_Decl_sample base node name type args :
  (base <= node)%nat ->
  keeps base (visit_Decl_sample C parse generate expr_simplify enable_shadow
                                node name type args)
        (fun _ => True).
Proof.
  intros Hnode. unfold visit_Decl_sample.
  pose proof distance_update_statements_children.
  keeps_auto.
Qed.

Lemma keeps_visit_Decl base node name type init :
  (base <= node)%nat ->
  keeps base (visit_Decl C parse generate try_simplify expr_simplify enable_shadow
                         node name type init)
        (fun _ => True).
Proof.
  intros Hnode. unfold visit_Decl.
  pose proof keeps__assign. pose proof keeps_visit_Decl_sample.
  destruct type; try keeps_close.
  destruct init as [[]|]; keeps_close.
Qed.

Lemma keeps_shadow_filter base shadow_variables items :
  Forall (fun c => (base <= c)%nat) items ->
  keeps (T := T) base (shadow_filter shadow_variables items)
        (Forall (fun c => (base <= c)%nat)).
Proof.
  induction 1 as [|child items Hchild Hitems IH]; cbn [shadow_filter].
  - keeps_close.
  - keeps_auto. apply keeps_ret.
    match goal with |- Forall _ (if ?b then _ else _) => destruct b end; auto.
Qed.

Lemma keeps_shadow_rewrite base (types : T) items :
  Forall (fun c => (base <= c)%nat) items ->
  keeps base (shadow_rewrite C parse types items) (fun _ => True).
Proof.
  induction 1 as [|child items Hchild Hitems IH]; cbn [shadow_rewrite].
  - keeps_close.
  - keeps_auto.
Qed.

Lemma keeps_shadow_Compound base shadow_variables (types : T) node :
  (base <= node)%nat ->
  keeps base (shadow_Compound C parse shadow_variables types node) (fun _ => True).
Proof.
  intros Hnode. unfold shadow_Compound.
  pose proof keeps_shadow_filter. pose proof keeps_shadow_rewrite.
  keeps_step. destruct a as [items|]; [|keeps_close].
  keeps_auto.
Qed.

Lemma keeps_copy_branch base fuel branch :
  keeps (T := T) base (copy_branch fuel branch) (fun c => (base <= c)%nat).
Proof.
  unfold copy_branch.
  eapply keeps_bind; [apply keeps_block_items_of_any|]. intros a _.
  eapply keeps_bind with
    (Q := fun c : option (list loc) =>
            forall ls, c = Some ls -> Forall (fun c => (base <= c)%nat) ls).
  { destruct a; keeps_auto. }
  intros copied Hcopied. apply keeps_alloc. cbn [children].
  destruct copied; [auto|constructor].
Qed.

Lemma keeps_build_shadow_branch base fuel cond iftrue iffalse :
  keeps (T := T) base (build_shadow_branch C parse fuel cond iftrue iffalse)
        (fun c => (base <= c)%nat).
Proof.
  unfold build_shadow_branch.
  pose proof keeps_copy_branch. pose proof keeps_shadow_Compound.
  do 4 keeps_step; [keeps_auto..|].
  rename a1 into shadow_true, a2 into shadow_false.
  eapply keeps_bind with (Q := fun c : loc => (base <= c)%nat).
  { apply keeps_alloc. cbn [children]. constructor; [assumption|].
    destruct shadow_false; repeat constructor; auto. }
  intros shadow_branch Hbranch. keeps_auto.
Qed.

Lemma keeps_insert_shadow_branch base fuel node cond iftrue iffalse :
  (base <= node)%nat ->
  keeps (T := T) base (insert_shadow_branch C parse fuel node cond iftrue iffalse)
        (fun _ => True).
Proof.
  intros Hnode. unfold insert_shadow_branch.
  pose proof keeps_build_shadow_branch. keeps_auto.
Qed.

Lemma keeps_insert_first base block statement :
  (base <= block)%nat -> (base <= statement)%nat ->
  keeps (T := T) base (insert_first block statement) (fun _ => True).
Proof. intros Hb Hs. unfold insert_first. keeps_auto. Qed.

Lemma keeps_extend base block statements :
  (base <= block)%nat -> Forall (fun c => (base <= c)%nat) statements ->
  keeps (T := T) base (extend block statements) (fun _ => True).
Proof. intros Hb Hs. unfold extend. keeps_auto. Qed.

Lemma _instrument_children base (ts1 ts2 : T) pc :
  Forall (fun o => Forall (fun c => (base <= c)%nat) (children o))
         (_instrument C parse enable_shadow ts1 ts2 pc).
Proof.
  unfold _instrument. apply Forall_flat_map, Forall_forall. intros name _.
  unfold _instrument_name. apply Forall_flat_map, Forall_forall.
  intros [[[is_shadow version] d1] d2] _.
  destruct d1, d2; try constructor.
  destruct (_ || _); [constructor|]. destruct (_ && _); repeat constructor.
Qed.

Lemma keeps_insert_assertions base node ct cf :
  (base <= node)%nat ->
  keeps (T := T) base (insert_assertions C node ct cf)
        (fun r => (base <= fst r)%nat /\ (base <= snd r)%nat).
Proof.
  intros Hnode. unfold insert_assertions.
  pose proof keeps_insert_first.
  keeps_step.
  destruct a as [| |cond iftrue iffalse| | | | |]; try keeps_close.
  cbn [children] in H1. apply Forall_cons in H1 as [Ht Hf].
  eapply keeps_bind with (Q := fun c : loc => (base <= c)%nat).
  { destruct iffalse as [iffalse|].
    - apply Forall_cons in Hf as [Hf _]. keeps_close.
    - keeps_auto. }
  intros. keeps_auto.
Qed.

Lemma keeps_instrument_branches base iftrue iffalse (true_types false_types : T) :
  (base <= iftrue)%nat -> (base <= iffalse)%nat ->
  keeps base (instrument_branches C parse enable_shadow iftrue iffalse
                                  true_types false_types)
        (fun _ => True).
Proof.
  intros Ht Hf. unfold instrument_branches.
  pose proof keeps_extend. pose proof _instrument_children. keeps_auto.
Qed.

Lemma keeps_visit_If_emit base fuel node cond iftrue iffalse before_pc ct cf
      (true_types false_types : T) :
  (base <= node)%nat ->
  keeps base (visit_If_emit C parse enable_shadow fuel node cond iftrue iffalse
                            before_pc ct cf true_types false_types)
        (fun _ => True).
Proof.
  intros Hnode. unfold visit_If_emit.
  pose proof keeps_insert_shadow_branch. pose proof keeps_insert_assertions.
  pose proof keeps_instrument_branches.
  keeps_step. keeps_step; [keeps_auto..|].
  keeps_step.
  match goal with Hr : _ /\ _ |- _ => destruct Hr end.
  keeps_step. cbn [fst snd] in *. keeps_close.
Qed.

Section Visits.
Context (base : loc) (visit : loc -> M (T := T) unit).
Context (Hvisit : forall l, (base <= l)%nat -> keeps base (visit l) (fun _ => True)).

Lemma keeps_visit_children node items :
  (base <= node)%nat -> Forall (fun c => (base <= c)%nat) items ->
  keeps base (visit_children visit node items) (fun _ => True).
Proof.
  intros Hnode. induction 1 as [|child items Hchild Hitems IH]; cbn [visit_children].
  - keeps_close.
  - keeps_auto.
Qed.

Lemma keeps_visit_Compound node block_items :
  (base <= node)%nat ->
  (forall ls, block_items = Some ls -> Forall (fun c => (base <= c)%nat) ls) ->
  keeps base (visit_Compound visit node block_items) (fun _ => True).
Proof.
  intros Hnode Hitems. unfold visit_Compound.
  destruct block_items; [|keeps_close].
  apply keeps_visit_children; auto.
Qed.

Lemma keeps_visit_If_branches cond iftrue iffalse :
  (base <= iftrue)%nat -> (forall l, iffalse = Some l -> (base <= l)%nat) ->
  keeps base (visit_If_branches C parse enable_shadow visit cond iftrue iffalse)
        (fun _ => True).
Proof.
  intros Ht Hf. unfold visit_If_branches. keeps_auto.
Qed.

Lemma keeps_visit_If fuel node cond iftrue iffalse :
  (base <= node)%nat ->
  (base <= iftrue)%nat -> (forall l, iffalse = Some l -> (base <= l)%nat) ->
  keeps base (visit_If C parse enable_shadow visit fuel node cond iftrue iffalse)
        (fun _ => True).
Proof.
  intros Hnode Ht Hf. unfold visit_If.
  pose proof keeps_visit_If_branches. pose proof keeps_visit_If_emit.
  keeps_auto.
Qed.

Lemma keeps_visit_While_children cond stmt :
  (base <= stmt)%nat ->
  keeps base (visit_While_children C generate try_simplify visit cond stmt)
        (fun _ => True).
Proof.
  intros Hstmt. unfold visit_While_children.
  pose proof keeps_visit_opt_expr. keeps_auto.
Qed.

Lemma keeps_fixed_point cond stmt bound fixed_types :
  (base <= stmt)%nat ->
  keeps base (fixed_point C generate try_simplify visit cond stmt bound fixed_types)
        (fun _ => True).
Proof.
  intros Hstmt. revert fixed_types.
  pose proof keeps_visit_While_children.
  induction bound as [bound IH] using (well_founded_induction lt_wf).
  intros fixed_types. destruct bound as [|[|bound]]; cbn [fixed_point].
  - keeps_auto.
  - destruct fixed_types; keeps_auto.
  - assert (IH' : forall fixed_types,
               keeps base (fixed_point C generate try_simplify visit cond stmt
                                       bound fixed_types) (fun _ => True)).
    { intros. apply IH. lia. }
    destruct fixed_types; keeps_auto.
Qed.

Lemma keeps_visit_While_emit node cond stmt (before_types fixed_types : T) :
  (base <= node)%nat -> (base <= stmt)%nat ->
  keeps base (visit_While_emit C parse generate try_simplify enable_shadow visit
                               node cond stmt before_types fixed_types)
        (fun _ => True).
Proof.
  intros Hnode Hstmt. unfold visit_While_emit.
  pose proof keeps_visit_While_children. pose proof keeps_insert_first.
  pose proof keeps_extend. pose proof _instrument_children.
  keeps_auto.
Qed.

Lemma keeps_visit_While fuel node cond stmt :
  (base <= node)%nat -> (base <= stmt)%nat ->
  keeps base (visit_While C parse generate try_simplify enable_shadow visit fuel
                          node cond stmt)
        (fun _ => True).
Proof.
  intros Hnode Hstmt. unfold visit_While.
  pose proof keeps_fixed_point. pose proof keeps_visit_While_emit.
  keeps_auto.
Qed.

Lemma keeps_visit_node fuel node :
  (base <= node)%nat ->
  keeps base (visit_node C parse generate try_simplify expr_simplify enable_shadow
                         visit fuel node)
        (fun _ => True).
Proof.
  intros Hnode. unfold visit_node. keeps_step.
  pose proof keeps_visit_opt_expr.
  destruct a as [op lv rv|n t i|cond t f|cond b|items|e|e|n ps b]; cbn [children] in *.
  - apply keeps_visit_Assignment, Hnode.
  - apply keeps_visit_Decl, Hnode.
  - apply Forall_cons in H0 as [Ht Hf]. apply keeps_visit_If; [assumption..|].
    intros l ->. apply Forall_cons in Hf as [Hf _]. exact Hf.
  - apply Forall_cons in H0 as [Hb _]. apply keeps_visit_While; assumption.
  - apply keeps_visit_Compound; [assumption..|]. intros ls ->. assumption.
  - destruct e; try keeps_close. apply keeps_visit_FuncCall, Hnode.
  - keeps_close.
  - keeps_close.
Qed.

End Visits.

Lemma keeps_visit base fuel node :
  (base <= node)%nat ->
  keeps base (visit C parse generate try_simplify expr_simplify enable_shadow fuel node)
        (fun _ => True).
Proof.
  revert node. induction fuel as [|fuel IH]; intros node Hnode; cbn [visit].
  - apply keeps_raise.
  - apply keeps_visit_node; assumption.
Qed.

Lemma distance_declarations_children base (ts : T) parameters :
  Forall (fun o => Forall (fun c => (base <= c)%nat) (children o))
         (distance_declarations C enable_shadow ts parameters).
Proof.
  unfold distance_declarations. apply Forall_flat_map, Forall_forall.
  intros [[[[n a] s] b] arr] _.
  destruct (bool_decide _); [constructor|].
  apply Forall_flat_map, Forall_forall. intros [[is_shadow version] d] _.
  destruct (_ && _); [constructor|]. destruct (_ || _); repeat constructor.
Qed.

Lemma keeps_visit_FuncDef base fuel node :
  keeps base (visit_FuncDef C parse generate try_simplify expr_simplify enable_shadow
                            fuel node)
        (fun c => (base <= c)%nat).
Proof.
  unfold visit_FuncDef.
  pose proof keeps_visit. pose proof distance_declarations_children.
  eapply keeps_bind; [apply keeps_deepcopy|]. intros [copy memo] Hcopy. cbn [fst] in Hcopy.
  keeps_step.
  destruct a as [| | | | | | |n ps body]; try keeps_close.
  cbn [children] in *.
  match goal with Hb : Forall _ [body] |- _ => apply Forall_cons in Hb as [Hbody _] end.
  keeps_auto.
Qed.

Lemma keeps_transform base fuel node :
  keeps base (transform C parse generate try_simplify expr_simplify enable_shadow
                        fuel node)
        (fun r => (base <= fst r)%nat).
Proof.
  unfold transform. pose proof keeps_visit_FuncDef. pose proof keeps_extend.
  eapply keeps_bind; [apply keeps_load_any|]. intros o _.
  destruct o as [| | | | | | |n ps body]; try keeps_close.
  keeps_step. keeps_step.
  destruct a0 as [| | | | | | |n' ps' body']; try keeps_close.
  cbn [children] in *.
  match goal with Hb : Forall _ [body'] |- _ => apply Forall_cons in Hb as [Hbody _] end.
  keeps_auto.
Qed.

Lemma allocated_inv st :
  allocated st -> parents_allocated st -> inv (next st) st.
Proof.
  intros Ha Hp. split; [lia|]. split.
  - intros l o Hl Ho. apply Ha in Ho. lia.
  - intros k v Hk Hv. apply Hp in Hv. lia.
Qed.

End Frame.

Lemma allocatedb_true {T : Type} (st : state (T := T)) :
  allocatedb st = true -> allocated st /\ parents_allocated st.
Proof.
  unfold allocatedb. rewrite andb_true_iff, !forallb_forall.
  intros [Hh Hp]. split.
  - intros l o Ho. apply elem_of_map_to_list, list_elem_of_In in Ho.
    apply Hh in Ho. apply bool_decide_eq_true in Ho. exact Ho.
  - intros k v Hv. apply elem_of_map_to_list, list_elem_of_In in Hv.
    apply Hp in Hv. apply bool_decide_eq_true in Hv. exact Hv.
Qed.

Section Transform.
Context (C : constants) {T : Type} `{TypeSystemOps T}.
Context (parse : string -> expr) (generate : expr -> string)
        (try_simplify expr_simplify : string -> string) (enable_shadow : bool).

(** X1: [Transformer.transform] works on a deep copy of the function it is
    given: the node it returns is a new object, and every object that was
    in the store before the call is the same after it. *)
Theorem transform_leaves_input (fuel : nat) (node : loc) (st : state (T := T)) r st' :
  allocated st -> parents_allocated st ->
  transform C parse generate try_simplify expr_simplify enable_shadow fuel node st
  = Ok (r, st') ->
  (next st <= fst r)%nat /\
  forall l, (l < next st)%nat -> heap st' !! l = heap st !! l.
Proof.
  intros Ha Hp Hrun.
  destruct (keeps_transform C parse generate try_simplify expr_simplify enable_shadow
              (next st) fuel node st r st') as (_ & Hbelow & Hr);
    [apply allocated_inv; assumption|exact Hrun|].
  split; [exact Hr|exact Hbelow].
Qed.

End Transform.

Lemma transform_leaves_input_witness :
  exists r st', Examples.transform false = Ok (r, st') /\
    (next (snd Examples.parsed) <= fst r)%nat /\
    forall l, (l < next (snd Examples.parsed))%nat ->
              heap st' !! l = heap (snd Examples.parsed) !! l.
Proof.
  eexists _, _. split; [vm_compute; reflexivity|].
  apply (transform_leaves_input checkdp_constants Examples.parse Examples.generate
           Examples.try_simplify Examples.expr_simplify false 20
           (fst Examples.parsed) (snd Examples.parsed)).
  - apply allocatedb_true. vm_compute. reflexivity.
  - apply allocatedb_true. vm_compute. reflexivity.
  - vm_compute. reflexivity.
Defined.

(** ** T-Return *)

Section Output.
Context (C : constants) {T : Type} `{TypeSystemOps T}.
Context (parse : string -> expr) (generate : expr -> string)
        (try_simplify : string -> string).

(** X2: [visit_FuncCall] on a statement [OUTPUT(e, ...)] of a block, at
    loop level 0.  When the aligned distance of [e] is not the text [0],
    a statement is created and inserted in the block right after the
    call: the parse of the text [ASSERT(distance == 0)], taken as a whole;
    when it is, the state is left as it was.  The arguments are those of
    a call the generic visit accepts. *)
Theorem output_assertion (st : state (T := T)) node parent items i e es d sd :
  allocated st ->
  _loop_level st = 0 ->
  _parents st !! node = Some parent ->
  heap st !! parent = Some (OCompound (Some items)) ->
  index_of node items = Some i ->
  Distances.DistanceGenerator C generate try_simplify (_type_system st) e = Ok (d, sd) ->
  visit_expr C generate try_simplify (_type_system st) 0 (ExprList (e :: es)) = Ok tt ->
  exists st',
    visit_FuncCall C parse generate try_simplify node (ID (OUTPUT C))
                   (Some (ExprList (e :: es))) st = Ok (tt, st') /\
    if bool_decide (d = Some "0") then st' = st
    else
      heap st' =
        <[parent := OCompound (Some (take (S i) items ++ [next st] ++ drop (S i) items))]>
          (<[next st := OExpr (parse (ASSERT C +:+ "(" +:+ Distances.pystr d
                                      +:+ " == 0)"))]> (heap st)).
Proof.
  intros Hal Hlevel Hparent Hitems Hindex Hd Hargs.
  assert (Hfresh : parent <> next st).
  { intros ->. apply Hal in Hitems. lia. }
  unfold visit_FuncCall.
  unfold mbind, M_bind, get, lift, is_OUTPUT, first_argument. cbn.
  rewrite Hlevel, !bool_decide_eq_true_2 by reflexivity.
  rewrite Hd.
  assert (Hgeneric : forall s : state (T := T),
             _type_system s = _type_system st -> _loop_level s = 0 ->
             match visit_opt_expr C generate try_simplify (Some (ID (OUTPUT C))) s with
             | Ok (_, st0) =>
                 visit_opt_expr C generate try_simplify (Some (ExprList (e :: es))) st0
             | Raise e => Raise e
             end = Ok (tt, s)).
  { intros s Hts Hl. unfold visit_opt_expr, mbind, M_bind, get, lift. cbn [visit_expr].
    rewrite Hts, Hl. cbn [visit_expr] in Hargs. cbn. rewrite Hargs. reflexivity. }
  case_bool_decide as Hzero; cbn.
  - exists st. split; [|reflexivity]. apply Hgeneric; auto.
  - unfold _insert_at, mbind, M_bind, get, load, store, modify. cbn.
    rewrite Hparent. unfold set_next, set_heap; cbn.
    rewrite lookup_insert_ne by auto. rewrite Hitems, Hindex. cbn.
    eexists. split; [apply Hgeneric; auto|]. reflexivity.
Qed.

End Output.

Lemma output_assertion_witness :
  exists st',
    visit_FuncCall checkdp_constants Examples.parse Examples.generate
                   Examples.try_simplify O (ID "CHECKDP_OUTPUT")
                   (Some (ExprList [Examples.query_0])) Examples.output_block
    = Ok (tt, st') /\
    if bool_decide (Some "(CHECKDP_ALIGNED_DISTANCE_query[0])" = Some "0")
    then st' = Examples.output_block
    else
      heap st' =
        <[1%nat := OCompound (Some (take 1 [O] ++ [2%nat] ++ drop 1 [O]))]>
          (<[2%nat := OExpr
                        (FuncCall (ID "CHECKDP_ASSERT")
                           (Some (ExprList
                                    [BinaryOp "=="
                                       (ArrayRef (ID "CHECKDP_ALIGNED_DISTANCE_query")
                                                 (Constant "int" "0"))
                                       (Constant "int" "0")])))]>
             (heap Examples.output_block)).
Proof.
  apply (output_assertion checkdp_constants Examples.parse Examples.generate
           Examples.try_simplify Examples.output_block O 1%nat [O] O
           Examples.query_0 [] (Some "(CHECKDP_ALIGNED_DISTANCE_query[0])")
           (Some "(CHECKDP_SHADOW_DISTANCE_query[0])")).
  - apply allocatedb_true. vm_compute. reflexivity.
  - reflexivity.
  - vm_compute. reflexivity.
  - vm_compute. reflexivity.
  - vm_compute. reflexivity.
  - vm_compute. reflexivity.
  - vm_compute. reflexivity.
Defined.

End TransformerSpec.

(** ** The instrumentation rule and T-Laplace *)

Module InstrumentSpec.
Import Transformer.

(** The steps of a computation on a given state. *)
Section Run.
Context {T : Type}.
Implicit Types (st : state (T := T)).

Lemma run_get {A B} (f : state -> A) (k : A -> M B) st :
  (get f ≫= k) st = k (f st) st.
Proof. reflexivity. Qed.

Lemma run_modify {B} (f : state -> state) (k : unit -> M B) st :
  (modify f ≫= k) st = k tt (f st).
Proof. reflexivity. Qed.

Lemma run_ret {A B} (a : A) (k : A -> M B) st : (mret a ≫= k) st = k a st.
Proof. reflexivity. Qed.

Lemma run_lift {A B} (a : A) (k : A -> M B) st : (lift (Ok a) ≫= k) st = k a st.
Proof. reflexivity. Qed.

Lemma run_alloc {B} (o : obj) (k : loc -> M B) st :
  (alloc o ≫= k) st
  = k (next st) (set_next (S (next st)) (set_heap (<[next st := o]> (heap st)) st)).
Proof. reflexivity. Qed.

Lemma run_store {B} (l : loc) (o : obj) (k : unit -> M B) st :
  (store l o ≫= k) st = k tt (set_heap (<[l := o]> (heap st)) st).
Proof. reflexivity. Qed.

Lemma run_load {B} (l : loc) (o : obj) (k : obj -> M B) st :
  heap st !! l = Some o -> (load l ≫= k) st = k o st.
Proof. intros Hl. unfold mbind, M_bind, load. rewrite Hl. reflexivity. Qed.

Lemma run_assoc {A B D} (m : M (T := T) A) (k : A -> M B) (k' : B -> M D) st :
  ((m ≫= k) ≫= k') st = (m ≫= fun a => k a ≫= k') st.
Proof. unfold mbind, M_bind. destruct (m st) as [[a st1]|]; reflexivity. Qed.

Lemma run__insert_at (node parent : loc) (items inserted : list loc) (after : bool)
      (i : nat) st :
  _parents st !! node = Some parent ->
  heap st !! parent = Some (OCompound (Some items)) ->
  index_of node items = Some i ->
  _insert_at node inserted after st
  = Ok (tt, set_heap
              (<[parent := OCompound
                             (Some (take (if after then S i else i) items ++ inserted
                                    ++ drop (if after then S i else i) items))]>
                 (heap st)) st).
Proof.
  intros Hp Hi Hx. unfold _insert_at. rewrite run_get, Hp.
  rewrite (run_load _ _ _ _ Hi), Hx. reflexivity.
Qed.

End Run.

Ltac state_fields :=
  cbn [heap next _type_system _parameters _random_variables _parents _loop_level _pc
       set_heap set_next set_type_system set_parameters set_random_variables
       set_parents set_loop_level set_pc].

Section Instrument.
Context (C : constants) {T : Type} `{TypeSystemOps T}.
Context (parse : string -> expr) (enable_shadow : bool).

(** X6: the statements [_instrument] returns.  Each is the assignment of
    a distance to the distance variable of a name that both type systems
    know, whose distance is not [*] in the first type system and is [*]
    in the second; shadow distances only when [pc] is off.  All of this
    under shadow execution only: without it, [_instrument] returns no
    statement at all, for the aligned distances as well. *)
Theorem _instrument_statements (ts1 ts2 : T) (pc : bool) (o : obj) :
  o ∈ _instrument C parse enable_shadow ts1 ts2 pc <->
  enable_shadow = true /\
  exists name d1,
    name ∈ names ts1 /\ name ∈ names ts2 /\ d1 <> "*" /\
    ((o = assign_text parse (ALIGNED_DISTANCE C +:+ "_" +:+ name) d1 /\
      Distances.aligned_of (get_types ts1 name) = Some d1 /\
      Distances.aligned_of (get_types ts2 name) = Some "*") \/
     (o = assign_text parse (SHADOW_DISTANCE C +:+ "_" +:+ name) d1 /\
      pc = false /\
      Distances.shadow_of (get_types ts1 name) = Some d1 /\
      Distances.shadow_of (get_types ts2 name) = Some "*")).
Proof.
  unfold _instrument. rewrite list_elem_of_In, in_flat_map. split.
  - intros (name & Hname & Ho). apply list_elem_of_In in Hname, Ho.
    apply list_elem_of_filter in Hname as [Hn2 Hn1].
    unfold _instrument_name in Ho. cbn [flat_map] in Ho. rewrite app_nil_r in Ho.
    apply elem_of_app in Ho as [Ho|Ho].
    + destruct (Distances.aligned_of (get_types ts1 name)) as [d1|] eqn:E1;
        [|inversion Ho].
      destruct (Distances.aligned_of (get_types ts2 name)) as [d2|] eqn:E2;
        [|inversion Ho].
      destruct enable_shadow; cbn in Ho; [|inversion Ho].
      split; [reflexivity|].
      destruct (bool_decide (d1 = "*")) eqn:B1; cbn in Ho; [inversion Ho|].
      destruct (bool_decide (d2 = "*")) eqn:B2; cbn in Ho; [|inversion Ho].
      apply bool_decide_eq_false in B1. apply bool_decide_eq_true in B2. subst d2.
      apply list_elem_of_singleton in Ho. exists name, d1. auto 10.
    + destruct (Distances.shadow_of (get_types ts1 name)) as [d1|] eqn:E1;
        [|inversion Ho].
      destruct (Distances.shadow_of (get_types ts2 name)) as [d2|] eqn:E2;
        [|inversion Ho].
      destruct enable_shadow; cbn in Ho; [|inversion Ho].
      split; [reflexivity|].
      destruct pc; cbn in Ho; [inversion Ho|].
      destruct (bool_decide (d1 = "*")) eqn:B1; cbn in Ho; [inversion Ho|].
      destruct (bool_decide (d2 = "*")) eqn:B2; cbn in Ho; [|inversion Ho].
      apply bool_decide_eq_false in B1. apply bool_decide_eq_true in B2. subst d2.
      apply list_elem_of_singleton in Ho. exists name, d1. auto 10.
  - intros (-> & name & d1 & Hn1 & Hn2 & Hd1 & Hcase).
    exists name. split; apply list_elem_of_In; [apply list_elem_of_filter; auto|].
    unfold _instrument_name. cbn [flat_map]. rewrite app_nil_r.
    apply elem_of_app.
    destruct Hcase as [(-> & E1 & E2)|(-> & -> & E1 & E2)]; [left|right];
      rewrite E1, E2; cbn;
      rewrite bool_decide_eq_false_2 by assumption;
      rewrite bool_decide_eq_true_2 by reflexivity; cbn;
      apply list_elem_of_singleton; reflexivity.
Qed.

End Instrument.

Section Sampling.
Context (C : constants) {T : Type} `{TypeSystemOps T}.
Context (parse : string -> expr) (generate : expr -> string)
        (try_simplify expr_simplify : string -> string).

(** X7: T-Laplace without shadow execution.  [visit_Decl] on a
    declaration of a block whose initialiser is a call, at loop level 0:
    the initialiser becomes [SAMPLE_ARRAY[SAMPLE_INDEX]], and three new
    statements follow the declaration in its block, in this order: the
    aligned distance of the variable is set to its random distance, the
    cost of the sample is added to [V_EPSILON], and [SAMPLE_INDEX] is
    incremented.  The variable becomes a random variable of distances
    [*] and [0]. *)
Theorem sampling_declaration (st : state (T := T)) node name names f args scale
        parent items i :
  allocated st ->
  _loop_level st = 0 ->
  heap st !! node = Some (ODecl name (TypeDecl names) (Some (FuncCall f args))) ->
  _parents st !! node = Some parent ->
  heap st !! parent = Some (OCompound (Some items)) ->
  index_of node items = Some i ->
  first_argument args = Ok scale ->
  exists st',
    visit_Decl C parse generate try_simplify expr_simplify false node name
               (TypeDecl names) (Some (FuncCall f args)) st = Ok (tt, st') /\
    heap st' =
      <[parent := OCompound (Some (take (S i) items
                                   ++ [next st; S (next st); S (S (next st))]
                                   ++ drop (S i) items))]>
        (<[S (S (next st)) :=
             OAssignment "=" (ID (SAMPLE_INDEX C))
                         (BinaryOp "+" (ID (SAMPLE_INDEX C)) (Constant "int" "1"))]>
           (<[node := ODecl name (TypeDecl names)
                            (Some (ArrayRef (ID (SAMPLE_ARRAY C)) (ID (SAMPLE_INDEX C))))]>
              (<[S (next st) :=
                   OAssignment "=" (ID (V_EPSILON C))
                     (BinaryOp "+" (ID (V_EPSILON C))
                        (parse (cost_text C expr_simplify name (generate scale))))]>
                 (<[next st :=
                      OAssignment "=" (ID (ALIGNED_DISTANCE C +:+ "_" +:+ name))
                                  (ID (RANDOM_DISTANCE C +:+ "_" +:+ name))]>
                    (heap st))))) /\
    _type_system st' = update_distance (_type_system st) name (Some "*") (Some "0") /\
    name ∈ _random_variables st'.
Proof.
  intros Hal Hlevel Hnode Hparent Hitems Hindex Hscale.
  assert (Hp : (parent < next st)%nat) by (eapply Hal; eassumption).
  assert (Hn : (node < next st)%nat) by (eapply Hal; eassumption).
  assert (Hne : parent <> node) by congruence.
  unfold visit_Decl, visit_Decl_sample.
  rewrite run_get. cbn [andb]. rewrite !run_modify, run_ret, run_get. state_fields.
  rewrite Hlevel, bool_decide_eq_true_2 by reflexivity.
  rewrite !run_get, run_ret, run_alloc, Hscale, run_lift, run_alloc, run_store, run_alloc.
  erewrite run__insert_at; state_fields; [|eassumption| |eassumption].
  - eexists. split; [reflexivity|]. state_fields.
    split; [reflexivity|]. split; [reflexivity|].
    case_bool_decide; [assumption|]. apply elem_of_app. right.
    apply list_elem_of_singleton. reflexivity.
  - rewrite !lookup_insert_ne by lia. exact Hitems.
Qed.

End Sampling.

Lemma sampling_declaration_witness :
  exists st',
    visit_Decl checkdp_constants Examples.parse Examples.generate
               Examples.try_simplify Examples.expr_simplify false O "eta"
               (TypeDecl ["int"]) (Some (Examples.Lap "1")) Examples.sampling_block
    = Ok (tt, st') /\
    heap st' !! 1%nat = Some (OCompound (Some [O; 2; 3; 4]%nat)) /\
    heap st' !! 3%nat
    = Some (OAssignment "=" (ID "CHECKDP_v_epsilon")
              (BinaryOp "+" (ID "CHECKDP_v_epsilon")
                 (Examples.parse "(Abs(CHECKDP_ALIGNED_DISTANCE_eta) * (1 / (1)))"))) /\
    "eta" ∈ _random_variables st'.
Proof.
  destruct (sampling_declaration checkdp_constants Examples.parse Examples.generate
              Examples.try_simplify Examples.expr_simplify Examples.sampling_block
              O "eta" ["int"] (ID "Lap") (Some (ExprList [Constant "int" "1"]))
              (Constant "int" "1") 1%nat [O] O)
    as (st' & Hrun & Hheap & _ & Hrv).
  - apply TransformerSpec.allocatedb_true. vm_compute. reflexivity.
  - reflexivity.
  - vm_compute. reflexivity.
  - vm_compute. reflexivity.
  - vm_compute. reflexivity.
  - vm_compute. reflexivity.
  - reflexivity.
  - exists st'. split; [exact Hrun|]. rewrite Hheap.
    split; [vm_compute; reflexivity|]. split; [vm_compute; reflexivity|exact Hrv].
Defined.

End InstrumentSpec.

(** ** The CEGIS loop never indexes an empty list *)

Module CoreLoopSpec.
Import Core.

(** The invariant of the loop head: besides [inv], counterexamples are
    non-empty models, and there is one whenever alignments are searched. *)
Definition loop_inv (st : state) : Prop :=
  inv st /\
  (is_find_inputs st = false -> found_counterexamples st <> []) /\
  Forall (fun m : model => m <> ∅) (found_counterexamples st).

(** The iteration ends with an exception. *)
Definition raised (o : outcome) : bool :=
  match o with
  | Raised _ => true
  | _ => false
  end.

Lemma app_nonempty (l : list model) (m : model) : l ++ [m] <> [].
Proof. destruct l; discriminate. Qed.

Lemma iteration_preserves_loop_inv st r st' :
  loop_inv st -> iteration st r = Continue st' -> loop_inv st'.
Proof.
  intros (Hinv & Hce & Hall) Hstep.
  split; [eapply CoreSpec.iteration_preserves_inv; eassumption|].
  destruct Hinv as (Hfv & Hne & _).
  revert Hstep. unfold iteration.
  destruct (concretes st) as [cs|e]; [|discriminate].
  destruct (fill_guard cs) as [[]|e]; [|discriminate].
  destruct st as [ces als sf it fi fv jo]; simpl in *.
  unfold on_counterexample, on_alignment, on_no_alignment, truthy.
  destruct r as [m|]; [destruct (bool_decide (m = ∅)) eqn:Hm|];
    destruct fi, fv; simpl; rewrite ?(CoreSpec.pop_nonempty als Hne); simpl;
    try discriminate;
    intros [= <-]; cbn;
    try apply bool_decide_eq_false in Hm;
    (split; [first [discriminate | intros _; apply app_nonempty | auto]|]);
    try (apply Forall_app; split; auto);
    auto.
Qed.

Lemma reachable_loop_inv default st :
  default <> ∅ -> reachable default st -> loop_inv st.
Proof.
  intros Hd Hr. induction Hr as [|st r st' Hr IH Hstep].
  - split; [apply (CoreSpec.reachable_inv default); [assumption|constructor]|].
    split; [discriminate|constructor].
  - eapply iteration_preserves_loop_inv; eassumption.
Qed.

Lemma last_nonempty (l : list model) : l <> [] -> exists c, last l = Some c /\ c ∈ l.
Proof.
  intros Hl. destruct (last l) as [c|] eqn:E.
  - exists c. split; [reflexivity|]. apply last_Some in E as [l' ->].
    apply elem_of_app. right. apply list_elem_of_singleton. reflexivity.
  - apply last_None in E. contradiction.
Qed.

(** X3: whatever the symbolic executor answers, an iteration of the loop
    of [run] that starts in a reachable state raises nothing: the lists
    indexed with [-1] and popped are not empty, and the list handed to
    [Template.fill] passes its guard. *)
Theorem iteration_never_raises default st r :
  default <> ∅ -> reachable default st -> raised (iteration st r) = false.
Proof.
  intros Hd Hr.
  destruct (reachable_loop_inv _ _ Hd Hr) as ((Hfv & Hne & Hall) & Hce & Hcall).
  unfold iteration.
  assert (Hcs : exists cs, concretes st = Ok cs /\ fill_guard cs = Ok tt).
  { unfold concretes.
    assert (Hguard : forall l : list model,
               l <> [] -> Forall (fun m : model => m <> ∅) l -> fill_guard l = Ok tt).
    { intros [|c l] Hl Hf; [congruence|]. inversion Hf; subst. cbn.
      rewrite bool_decide_eq_false_2; auto. }
    destruct (is_find_inputs st) eqn:Hfi.
    - rewrite (Hfv eq_refl). cbn. eauto.
    - specialize (Hce eq_refl).
      destruct (is_final_validate st && negb (is_jump_out st)); [|eauto].
      destruct (last_nonempty _ Hce) as (c & -> & Hc).
      exists [c]. split; [reflexivity|]. apply Hguard; [discriminate|].
      constructor; [|constructor]. rewrite Forall_forall in Hcall. auto. }
  destruct Hcs as (cs & -> & ->).
  destruct (negb (truthy r) && _); [reflexivity|].
  assert (Hal : exists st1,
             on_alignment r (on_counterexample r (set_iterations (iterations st + 1) st))
             = Ok st1).
  { unfold on_alignment, on_counterexample, truthy.
    destruct st as [ces als sf it fi fv jo]; cbn in *.
    destruct r as [m|]; [destruct (bool_decide (m = ∅))|]; destruct fi, fv; cbn;
      rewrite ?(CoreSpec.pop_nonempty als Hne); cbn; eauto. }
  destruct Hal as (st1 & ->).
  destruct (on_no_alignment r st1); reflexivity.
Qed.

Lemma iteration_never_raises_witness :
  raised (iteration Examples.before_final_validation None) = false.
Proof.
  apply (iteration_never_raises Examples.default_alignment).
  - apply (insert_non_empty (M := gmap string)).
  - apply (reach_step _ Examples.after_counterexample None); [|reflexivity].
    apply (reach_step _ (initial Examples.default_alignment)
                      (Some Examples.counterexample)); [constructor|].
    vm_compute. reflexivity.
Defined.

(** X4: when the loop of [run] is left through [break], the executor has
    just answered with no model during final validation, and the list of
    counterexamples is not empty: [found_counterexamples[-1]], the final
    counterexample, exists. *)
Theorem break_has_counterexample default st r st' :
  default <> ∅ -> reachable default st -> iteration st r = Break st' ->
  truthy r = false /\ is_final_validate st = true /\ is_find_inputs st = false /\
  found_counterexamples st' = found_counterexamples st /\
  exists c, last (found_counterexamples st') = Some c.
Proof.
  intros Hd Hr.
  destruct (reachable_loop_inv _ _ Hd Hr) as ((Hfv & Hne & Hall) & Hce & Hcall).
  unfold iteration.
  destruct (concretes st) as [cs|]; [|discriminate].
  destruct (fill_guard cs) as [[]|]; [|discriminate].
  destruct st as [ces als sf it fi fv jo]; simpl in *.
  unfold on_counterexample, on_alignment, on_no_alignment, truthy.
  destruct r as [m|]; [destruct (bool_decide (m = ∅)) eqn:Hm|];
    destruct fi, fv; simpl; rewrite ?(CoreSpec.pop_nonempty als Hne); simpl;
    try discriminate;
    intros [= <-]; cbn;
    (repeat split; auto);
    destruct (last_nonempty ces (Hce eq_refl)) as (c & Hc & _); eauto.
Qed.

Lemma break_has_counterexample_witness :
  exists c,
    last (found_counterexamples (set_iterations 3 Examples.before_final_validation))
    = Some c.
Proof.
  apply (break_has_counterexample Examples.default_alignment
           Examples.before_final_validation None
           (set_iterations 3 Examples.before_final_validation)).
  - apply (insert_non_empty (M := gmap string)).
  - apply (reach_step _ Examples.after_counterexample None); [|reflexivity].
    apply (reach_step _ (initial Examples.default_alignment)
                      (Some Examples.counterexample)); [constructor|].
    vm_compute. reflexivity.
  - reflexivity.
Defined.

(** X5: an iteration that falls through to the next one adds one to
    [iterations] and raises [suffix], by 1001 when it starts the final
    validation and by 1 otherwise: no two iterations of a run write
    files with the same suffix. *)
Theorem iteration_counters st r st' :
  iteration st r = Continue st' ->
  iterations st' = iterations st + 1 /\
  suffix st' =
    suffix st + (if negb (truthy r) && negb (is_find_inputs st) &&
                    negb (is_final_validate st)
                 then 1001 else 1).
Proof.
  unfold iteration.
  destruct (concretes st) as [cs|]; [|discriminate].
  destruct (fill_guard cs) as [[]|]; [|discriminate].
  destruct st as [ces als sf it fi fv jo]; simpl.
  unfold on_counterexample, on_alignment, on_no_alignment, truthy.
  destruct r as [m|]; [destruct (bool_decide (m = ∅))|];
    destruct fi, fv; simpl; try discriminate;
    try (destruct (pop als) as [popped|]; simpl; [|discriminate]);
    intros [= <-]; cbn; split; lia.
Qed.

Lemma iteration_counters_witness :
  iterations Examples.before_final_validation
  = iterations Examples.after_counterexample + 1 /\
  suffix Examples.before_final_validation
  = suffix Examples.after_counterexample +
    (if negb (truthy None) && negb (is_find_inputs Examples.after_counterexample) &&
        negb (is_final_validate Examples.after_counterexample)
     then 1001 else 1).
Proof.
  apply (iteration_counters Examples.after_counterexample None
           Examples.before_final_validation).
  reflexivity.
Defined.

End CoreLoopSpec.

(** ** The size of the alignment array *)

Module AlignmentArraySpec.
Import RandomDistance.

Section WithConstants.
Context (C : constants).

Lemma map_const_replicate {A B} (b : B) (l : list A) :
  map (fun _ => b) l = replicate (length l) b.
Proof. induction l as [|x l IH]; cbn; [reflexivity|]. by rewrite IH. Qed.

Lemma tags_of_blocks conditions variables is_selector :
  tags_of conditions variables is_selector =
  mjoin (replicate (2 ^ length conditions)
                   ((if is_selector then Selector_ else Constant_)
                      :: replicate (length variables) Variable_)).
Proof.
  induction conditions as [|c rest IH]; cbn [tags_of length Nat.pow].
  - cbn. by rewrite app_nil_r, map_const_replicate.
  - rewrite IH. rewrite Nat.mul_succ_l, Nat.mul_1_l, replicate_add.
    symmetry. apply join_app.
Qed.

(** X8: [_generate_random_distance] keeps the tags it is given and
    appends, for [n] conditions and [m] variables, [2 ^ n] blocks of [1 +
    m] tags, one block per leaf of the template: the tag of the leaf
    ([Selector] for a selector template, [Constant] otherwise) followed
    by [m] tags [Variable]. *)
Theorem _generate_random_distance_tags conditions variables types is_selector :
  snd (_generate_random_distance C conditions variables types is_selector) =
  types ++ mjoin (replicate (2 ^ length conditions)
                            ((if is_selector then Selector_ else Constant_)
                               :: replicate (length variables) Variable_)) /\
  length (snd (_generate_random_distance C conditions variables types is_selector)) =
  (length types + 2 ^ length conditions * (1 + length variables))%nat.
Proof.
  rewrite RandomDistanceSpec._generate_random_distance_spec. cbn [snd].
  split; [by rewrite tags_of_blocks|].
  rewrite length_app, RandomDistanceSpec.tags_of_length. reflexivity.
Qed.

Lemma distance_variables_length dist variables dvs :
  distance_variables dist variables = Ok dvs -> length dvs = length variables.
Proof.
  revert dvs. induction variables as [|v vs IH]; intros dvs; cbn [distance_variables].
  - by intros [= <-].
  - destruct (dist v) as [d|]; [|discriminate]. cbn [mbind result_bind].
    destruct (distance_variables dist vs) as [ds|]; [|discriminate].
    cbn [mbind result_bind]. intros [= <-]. cbn. f_equal. by apply IH.
Qed.

(** The number of slots the macros of one random variable take. *)
Definition macro_size (enable_shadow : bool) (template : string * (list string * list string))
  : nat :=
  let conditions := fst (snd template) in
  let variables := snd (snd template) in
  ((if enable_shadow && negb (bool_decide (conditions = []))
    then 2 ^ length conditions else 0)
   + 2 ^ length conditions * (1 + length variables))%nat.

Lemma macro_tags_size sh conditions variables dvs :
  length dvs = length variables ->
  length (macro_tags sh conditions dvs) = macro_size sh (EmptyString, (conditions, variables)).
Proof.
  intros Hlen. unfold macro_tags, macro_size. cbn [fst snd].
  rewrite length_app, RandomDistanceSpec.tags_of_length.
  unfold template_size. rewrite Hlen. f_equal.
  destruct sh; [|reflexivity]. destruct conditions as [|c rest]; [reflexivity|].
  cbv beta match. rewrite RandomDistanceSpec.tags_of_length. unfold template_size.
  cbn [andb negb length]. rewrite bool_decide_eq_false_2 by discriminate.
  cbn [negb]. lia.
Qed.

Lemma generate_macros_loop_length sh dist templates inserted types inserted' types' :
  generate_macros_loop C sh dist templates (inserted, types) = Ok (inserted', types') ->
  length types' = (length types + sum_list_with (macro_size sh) templates)%nat /\
  length inserted' =
  (length inserted + (if sh then 2 else 1) * length templates)%nat.
Proof.
  revert inserted types.
  induction templates as [|[eta [conditions variables]] templates IH];
    intros inserted types.
  - intros [= <- <-]. cbn. lia.
  - cbn [generate_macros_loop].
    destruct (generate_macro C sh dist eta conditions variables (inserted, types))
      as [acc|e] eqn:Hm; [|discriminate].
    cbn [mbind result_bind].
    apply RandomDistanceSpec.generate_macro_spec in Hm as (dvs & Hd & ->).
    intros Hloop. apply IH in Hloop as [-> ->].
    apply distance_variables_length in Hd.
    rewrite !length_app, length_map, (macro_tags_size sh conditions variables dvs Hd).
    change (macro_size sh (EmptyString, (conditions, variables)))
      with (macro_size sh (eta, (conditions, variables))).
    cbn [sum_list_with length].
    split; [lia|].
    unfold macros_of. destruct sh; [destruct conditions|]; cbn [length]; lia.
Qed.

(** X9: the length of the tag list [generate_macros] returns, that is
    the size of the alignment array.  A random variable with [n]
    conditions and [m] variables takes [2 ^ n * (1 + m)] slots for its
    distance template, and with shadow execution [2 ^ n] more for its
    selector when it has a condition. *)
Theorem generate_macros_size sh dist templates text tags :
  generate_macros C sh dist templates = Ok (text, tags) ->
  length tags = sum_list_with (macro_size sh) templates.
Proof.
  unfold generate_macros.
  destruct (generate_macros_loop C sh dist templates ([], [])) as [[ins tys]|e] eqn:Hloop;
    [|discriminate].
  cbn [mbind result_bind]. intros [= <- <-].
  apply generate_macros_loop_length in Hloop as [-> _]. reflexivity.
Qed.

Lemma distance_variables_Ok dist variables :
  (exists dvs, distance_variables dist variables = Ok dvs) <->
  Forall (fun v => exists d, dist v = Ok d) variables.
Proof.
  induction variables as [|v vs IH]; cbn [distance_variables].
  - split; [constructor|eauto].
  - rewrite Forall_cons, <- IH. split.
    + intros (dvs & Hd). destruct (dist v) as [d|]; [|discriminate].
      cbn [mbind result_bind] in Hd.
      destruct (distance_variables dist vs) as [ds|]; [|discriminate]. eauto.
    + intros ((d & ->) & ds & ->). cbn. eauto.
Qed.

Lemma generate_macro_Ok sh dist eta conditions variables acc :
  (exists acc', generate_macro C sh dist eta conditions variables acc = Ok acc') <->
  Forall (fun v => exists d, dist v = Ok d) variables.
Proof.
  rewrite <- distance_variables_Ok. unfold generate_macro.
  destruct acc as [inserted types].
  destruct (if sh then _ else _) as [inserted1 types1].
  destruct (distance_variables dist variables) as [dvs|e]; cbn [mbind result_bind].
  - destruct (_generate_random_distance C conditions dvs types1 false). split; eauto.
  - split; intros [? [=]].
Qed.

Lemma generate_macros_loop_Ok sh dist templates acc :
  (exists acc', generate_macros_loop C sh dist templates acc = Ok acc') <->
  Forall (fun t => Forall (fun v => exists d, dist v = Ok d) (snd (snd t))) templates.
Proof.
  revert acc. induction templates as [|[eta [conditions variables]] templates IH];
    intros acc; cbn [generate_macros_loop].
  - split; [constructor|eauto].
  - rewrite Forall_cons. cbn [snd].
    rewrite <- (generate_macro_Ok sh dist eta conditions variables acc).
    destruct (generate_macro C sh dist eta conditions variables acc) as [acc1|e];
      cbn [mbind result_bind].
    + rewrite IH. split; [eauto|tauto].
    + split; [intros [? [=]]|intros [[? [=]] _]].
Qed.

(** X10: [generate_macros] returns exactly when the distance of every
    variable of every template can be generated; it raises as soon as
    the distance generator raises on one of them. *)
Theorem generate_macros_returns sh dist templates :
  (exists r, generate_macros C sh dist templates = Ok r) <->
  Forall (fun t => Forall (fun v => exists d, dist v = Ok d) (snd (snd t))) templates.
Proof.
  rewrite <- (generate_macros_loop_Ok sh dist templates ([], [])).
  unfold generate_macros.
  destruct (generate_macros_loop C sh dist templates ([], [])) as [[ins tys]|e];
    cbn [mbind result_bind].
  - split; eauto.
  - split; intros [? [=]].
Qed.

End WithConstants.

Lemma generate_macros_size_witness :
  length [Selector_; Selector_; Constant_; Variable_; Constant_; Variable_] =
  sum_list_with (macro_size true) [("eta", (["q > 0"], ["q"]))].
Proof.
  apply (generate_macros_size checkdp_constants true (fun v => Ok v)
           [("eta", (["q > 0"], ["q"]))]
           (fst (match generate_macros checkdp_constants true (fun v => Ok v)
                         [("eta", (["q > 0"], ["q"]))] with
                 | Ok r => r
                 | Raise _ => (EmptyString, [])
                 end))).
  vm_compute. reflexivity.
Defined.

End AlignmentArraySpec.

(** ** What the preprocessor accepts, and what it returns *)

Module DialectSpec.
Import Preprocessor.

(** The type of a declaration once the preprocessor has seen it. *)
Definition type_as_int (type : decl_type) : decl_type :=
  match type with
  | TypeDecl [_] => TypeDecl ["int"]
  | ArrayDecl [_] dim => ArrayDecl ["int"] dim
  | _ => type
  end.

(** The statement with every declared type changed to [int]. *)
Fixpoint as_int (node : stmt) : stmt :=
  match node with
  | Decl name type init => Decl name (type_as_int type) init
  | If c t f => If c (as_int t) (as_int <$> f)
  | While c b => While c (as_int b)
  | Compound items => Compound (map as_int <$> items)
  | Assignment _ _ _ | ExprStmt _ | Return _ => node
  end.

Section WithConstants.
Context (C : constants).

(** No [return], no declared name with the reserved prefix, no
    declared type of several names. *)
Fixpoint supported (node : stmt) : bool :=
  match node with
  | Return _ => false
  | Decl name type _ =>
      negb (String.prefix (PREFIX C) name) &&
      match type with
      | TypeDecl [_] | ArrayDecl [_] _ | FuncDecl | PtrDecl => true
      | TypeDecl _ | ArrayDecl _ _ => false
      end
  | If _ t f => supported t && match f with Some f => supported f | None => true end
  | While _ b => supported b
  | Compound items =>
      match items with Some items => forallb supported items | None => true end
  | Assignment _ _ _ | ExprStmt _ => true
  end.

Context {T : Type} `{TypeSystemOps T}.

Lemma visit_Decl_Ok name type init (st : state (T := T)) type' st' :
  visit_Decl C name type init st = Ok (type', st') ->
  type' = type_as_int type /\ supported (Decl name type init) = true.
Proof.
  unfold visit_Decl.
  destruct (match type with ArrayDecl _ dim => visit_opt_expr C dim | _ => Ok tt end);
    [|discriminate].
  cbn [mbind result_bind].
  destruct (visit_opt_expr C init); [|discriminate]. cbn [mbind result_bind].
  cbn [supported].
  destruct (String.prefix (PREFIX C) name); [discriminate|]. cbn [negb andb].
  destruct type as [[|n [|n' ns]]|[|n [|n' ns]] dim| |]; cbn [mbind result_bind];
    try discriminate; intros [= <- <-]; split; reflexivity.
Qed.

Lemma visit_Ok node : forall (st : state (T := T)) node' st',
  visit C node st = Ok (node', st') ->
  node' = as_int node /\ supported node = true.
Proof.
  induction node as [op l r|name type init|c t f IHt IHf|c b IHb|items IH|e|e]
    using stmt_induction; intros st node' st'.
  - cbn [visit]. destruct (visit_expr C l); [|discriminate]. cbn [mbind result_bind].
    destruct (visit_expr C r); [|discriminate]. cbn [mbind result_bind].
    intros [= <- <-]. split; reflexivity.
  - cbn [visit].
    destruct (visit_Decl C name type init st) as [[type' st1]|] eqn:Hd; [|discriminate].
    cbn [mbind result_bind]. intros [= <- <-].
    apply visit_Decl_Ok in Hd as [-> Hs]. split; [reflexivity|exact Hs].
  - cbn [visit]. destruct (visit_expr C c); [|discriminate]. cbn [mbind result_bind].
    destruct (visit C t st) as [[t' st1]|] eqn:Ht; [|discriminate].
    cbn [mbind result_bind]. apply IHt in Ht as [-> Hst].
    destruct f as [f|].
    + destruct (visit C f st1) as [[f' st2]|] eqn:Hf; [|discriminate].
      cbn [mbind result_bind]. intros [= <- <-].
      apply (IHf f eq_refl) in Hf as [-> Hsf].
      split; [reflexivity|]. cbn [supported]. by rewrite Hst, Hsf.
    + intros [= <- <-]. split; [reflexivity|]. cbn [supported]. by rewrite Hst.
  - cbn [visit]. destruct (visit_expr C c); [|discriminate]. cbn [mbind result_bind].
    destruct (visit C b st) as [[b' st1]|] eqn:Hb; [|discriminate].
    cbn [mbind result_bind]. intros [= <- <-].
    apply IHb in Hb as [-> Hsb]. split; [reflexivity|exact Hsb].
  - destruct items as [items|]; [|cbn [visit]; intros [= <- <-]; split; reflexivity].
    rewrite PreprocessorSpec.visit_Compound.
    specialize (IH items eq_refl).
    assert (Hitems : forall (st : state (T := T)) items' st',
               visit_items C items st = Ok (items', st') ->
               items' = map as_int items /\ forallb supported items = true).
    { clear st node' st'.
      induction IH as [|x l Hx Hl IHl]; intros st items' st'; cbn [visit_items].
      - intros [= <- <-]. split; reflexivity.
      - destruct (visit C x st) as [[x' st1]|] eqn:Hvx; [|discriminate].
        cbn [mbind result_bind].
        destruct (visit_items C l st1) as [[l' st2]|] eqn:Hvl; [|discriminate].
        cbn [mbind result_bind]. intros [= <- <-].
        apply Hx in Hvx as [-> Hsx]. apply IHl in Hvl as [-> Hsl].
        split; [reflexivity|]. cbn [forallb]. by rewrite Hsx, Hsl. }
    destruct (visit_items C items st) as [[items' st1]|] eqn:Hv; [|discriminate].
    cbn [mbind result_bind]. intros [= <- <-].
    apply Hitems in Hv as [-> Hs]. split; [reflexivity|exact Hs].
  - cbn [visit]. destruct (visit_expr C e); [|discriminate]. cbn [mbind result_bind].
    intros [= <- <-]. split; reflexivity.
  - cbn [visit]. discriminate.
Qed.

Lemma visit_items_Ok items : forall (st : state (T := T)) items' st',
  visit_items C items st = Ok (items', st') ->
  items' = map as_int items /\ forallb supported items = true.
Proof.
  induction items as [|x l IH]; intros st items' st'; cbn [visit_items].
  - intros [= <- <-]. split; reflexivity.
  - destruct (visit C x st) as [[x' st1]|] eqn:Hvx; [|discriminate].
    cbn [mbind result_bind].
    destruct (visit_items C l st1) as [[l' st2]|] eqn:Hvl; [|discriminate].
    cbn [mbind result_bind]. intros [= <- <-].
    apply visit_Ok in Hvx as [-> Hsx]. apply IH in Hvl as [-> Hsl].
    split; [reflexivity|]. cbn [forallb]. by rewrite Hsx, Hsl.
Qed.

Lemma visit_params_Ok ps : forall (st : state (T := T)) ps' st',
  visit_params C ps st = Ok (ps', st') ->
  ps' = map (fun p => (fst p, type_as_int (snd p))) ps /\
  forallb (fun p => supported (Decl (fst p) (snd p) None)) ps = true.
Proof.
  induction ps as [|[name type] ps IH]; intros st ps' st'; cbn [visit_params].
  - intros [= <- <-]. split; reflexivity.
  - destruct (visit_Decl C name type None st) as [[type' st1]|] eqn:Hd; [|discriminate].
    cbn [mbind result_bind].
    destruct (visit_params C ps st1) as [[ps1 st2]|] eqn:Hps; [|discriminate].
    cbn [mbind result_bind]. intros [= <- <-].
    apply visit_Decl_Ok in Hd as [-> Hs]. apply IH in Hps as [-> Hps].
    split; [reflexivity|]. cbn [forallb fst snd]. by rewrite Hs, Hps.
Qed.

Context (space_re_sub : string -> string)
        (finditer_types : string -> list (string * (string * string)))
        (match_precondition : string -> option string)
        (finditer_assume : string -> list string)
        (finditer_assume_hole : string -> list string)
        (match_check : string -> option string).
Context (strip_quotes : string -> string).

Abbreviation visit_FuncDef :=
  (visit_FuncDef C space_re_sub finditer_types match_precondition finditer_assume
                 finditer_assume_hole match_check strip_quotes).

Ltac case_text :=
  repeat match goal with
         | |- context [match ?x with _ => _ end] => is_var x; destruct x; try discriminate
         end.

Lemma annotation_text_Ok s t :
  annotation_text strip_quotes s = Ok t ->
  exists v, s = ExprStmt (Constant "string" v).
Proof.
  destruct s as [| | | | |e|]; try discriminate.
  destruct e as [ty v| | | | | | |]; try discriminate.
  unfold annotation_text. intros Hs. exists v. do 2 f_equal.
  revert Hs. case_text. reflexivity.
Qed.

Lemma annotations_Ok items ta tb tc rest :
  annotations strip_quotes items = Ok (ta, tb, tc, rest) ->
  exists a b c,
    items = Some (ExprStmt (Constant "string" a) :: ExprStmt (Constant "string" b)
                    :: ExprStmt (Constant "string" c) :: rest).
Proof.
  unfold annotations.
  destruct items as [[|x [|y [|z rest0]]]|]; try discriminate.
  - destruct (annotation_text strip_quotes x); discriminate.
  - destruct (annotation_text strip_quotes x); [|discriminate]. cbn [mbind result_bind].
    destruct (annotation_text strip_quotes y); discriminate.
  - destruct (annotation_text strip_quotes x) eqn:Ex; [|discriminate].
    cbn [mbind result_bind].
    destruct (annotation_text strip_quotes y) eqn:Ey; [|discriminate].
    cbn [mbind result_bind].
    destruct (annotation_text strip_quotes z) eqn:Ez; [|discriminate].
    cbn [mbind result_bind]. intros [= _ _ _ <-].
    apply annotation_text_Ok in Ex as [va ->].
    apply annotation_text_Ok in Ey as [vb ->].
    apply annotation_text_Ok in Ez as [vc ->]. eauto.
Qed.

Lemma check_parameters_Ok ps :
  check_parameters (Some ps) = Ok tt ->
  exists q qn dim s sn e en others,
    ps = (q, ArrayDecl qn dim) :: (s, TypeDecl ("int" :: sn))
           :: (e, TypeDecl en) :: others.
Proof.
  unfold check_parameters.
  destruct ps as [|[q qt] [|[s0 st0] [|[e et] others]]]; try discriminate.
  destruct qt as [|qn dim| |]; try discriminate.
  destruct st0 as [[|sn0 sn]| | |]; try discriminate.
  intros Hc. assert (sn0 = "int") as ->.
  { revert Hc. clear. case_text. reflexivity. }
  destruct et as [en| | |]; try discriminate. eauto 10.
Qed.

(** X11: the function [Preprocessor.visit_FuncDef] returns.  It has the
    name and the parameters of the function it was given, and its body
    is the body it was given without the three annotation strings; the
    only change is that every declared type, of a parameter or of a
    variable, is [int]. *)
Theorem visit_FuncDef_returns node (st : state (T := T)) processed ann st' :
  visit_FuncDef node st = Ok (processed, ann, st') ->
  exists ps a b c rest,
    params node = Some ps /\
    body_items node = Some (ExprStmt (Constant "string" a)
                              :: ExprStmt (Constant "string" b)
                              :: ExprStmt (Constant "string" c) :: rest) /\
    processed =
      mkFuncDef (decl_name node)
                (Some (map (fun p => (fst p, type_as_int (snd p))) ps))
                (Some (map as_int rest)).
Proof.
  intros Hrun.
  assert (Hps : exists ps, params node = Some ps).
  { unfold Preprocessor.visit_FuncDef in Hrun.
    destruct (params node) as [ps|]; [eauto|discriminate]. }
  destruct Hps as (ps & Hps).
  apply PreprocessorSpec.visit_FuncDef_Ok in Hrun
    as (ps' & st1 & ta & tb & tc & rest & types & pre & hole & goal & rest'
        & Hvp & Hann & _ & Hvi & -> & _).
  rewrite Hps in Hvp. apply visit_params_Ok in Hvp as [-> _].
  apply visit_items_Ok in Hvi as [-> _].
  apply annotations_Ok in Hann as (a & b & c & Hbody).
  exists ps, a, b, c, rest. auto.
Qed.

(** X12: what [Preprocessor.visit_FuncDef] accepts.  If it returns, the
    function has at least three parameters, the first an array, the
    second an [int] variable, the third a variable; no parameter and no
    variable declared in the body has a name that starts with the
    reserved prefix or a type of several names; and the body contains
    no [return] statement, at any depth. *)
Theorem visit_FuncDef_accepts node (st : state (T := T)) processed ann st' :
  visit_FuncDef node st = Ok (processed, ann, st') ->
  exists ps rest,
    params node = Some ps /\ skipn 3 (default [] (body_items node)) = rest /\
    (exists q qn dim s sn e en others,
        ps = (q, ArrayDecl qn dim) :: (s, TypeDecl ("int" :: sn))
               :: (e, TypeDecl en) :: others) /\
    forallb (fun p => supported (Decl (fst p) (snd p) None)) ps = true /\
    forallb supported rest = true.
Proof.
  intros Hrun.
  assert (Hps : exists ps, params node = Some ps /\
                           check_parameters (Some ps) = Ok tt).
  { unfold Preprocessor.visit_FuncDef in Hrun.
    destruct (params node) as [ps|]; [|discriminate].
    destruct (check_parameters (Some ps)) as [[]|] eqn:E; [eauto|discriminate]. }
  destruct Hps as (ps & Hps & Hcheck).
  apply PreprocessorSpec.visit_FuncDef_Ok in Hrun
    as (ps' & st1 & ta & tb & tc & rest & types & pre & hole & goal & rest'
        & Hvp & Hann & _ & Hvi & -> & _).
  rewrite Hps in Hvp. apply visit_params_Ok in Hvp as [_ Hsp].
  apply visit_items_Ok in Hvi as [_ Hsr].
  exists ps, rest. split; [exact Hps|]. split.
  - apply annotations_Ok in Hann as (a & b & c & ->). reflexivity.
  - split; [apply check_parameters_Ok, Hcheck|auto].
Qed.

End WithConstants.

Lemma visit_FuncDef_returns_witness :
  exists ps a b c rest,
    params Examples.sampling_in_declaration = Some ps /\
    body_items Examples.sampling_in_declaration
    = Some (ExprStmt (Constant "string" a) :: ExprStmt (Constant "string" b)
              :: ExprStmt (Constant "string" c) :: rest) /\
    Examples.visited_function =
      mkFuncDef (decl_name Examples.sampling_in_declaration)
                (Some (map (fun p => (fst p, type_as_int (snd p))) ps))
                (Some (map as_int rest)).
Proof.
  eapply (visit_FuncDef_returns checkdp_constants (T := SpecTypeSystem.t)
            Examples.space_re_sub Examples.finditer_types Examples.match_precondition
            Examples.finditer_assume Examples.finditer_assume Examples.match_check
            Examples.strip_quotes Examples.sampling_in_declaration
            (mkState new_type_system [])).
  vm_compute. reflexivity.
Defined.

Lemma visit_FuncDef_accepts_witness :
  exists ps rest,
    params Examples.sampling_in_declaration = Some ps /\
    skipn 3 (default [] (body_items Examples.sampling_in_declaration)) = rest /\
    (exists q qn dim s sn e en others,
        ps = (q, ArrayDecl qn dim) :: (s, TypeDecl ("int" :: sn))
               :: (e, TypeDecl en) :: others) /\
    forallb (fun p => supported checkdp_constants (Decl (fst p) (snd p) None)) ps = true /\
    forallb (supported checkdp_constants) rest = true.
Proof.
  eapply (visit_FuncDef_accepts checkdp_constants (T := SpecTypeSystem.t)
            Examples.space_re_sub Examples.finditer_types Examples.match_precondition
            Examples.finditer_assume Examples.finditer_assume Examples.match_check
            Examples.strip_quotes Examples.sampling_in_declaration
            (mkState new_type_system [])).
  vm_compute. reflexivity.
Defined.

End DialectSpec.

(** ** checkdp/transform/utils.py : nodes, divergence, aligned versions *)

Module UtilsSpec.
Import Utils.

(** The nodes of an expression, a node before its children, the
    children from left to right. *)
Fixpoint nodes (e : expr) : list expr :=
  e :: match e with
       | Constant _ _ | ID _ => []
       | ArrayRef n s => nodes n ++ nodes s
       | BinaryOp _ l r => nodes l ++ nodes r
       | UnaryOp _ e => nodes e
       | TernaryOp c t f => nodes c ++ nodes t ++ nodes f
       | FuncCall n a => nodes n ++ match a with Some a => nodes a | None => [] end
       | ExprList es => flat_map nodes es
       end.

Lemma filter_flat_map {A B} (f : B -> bool) (g : A -> list B) (l : list A) :
  List.filter f (flat_map g l) = flat_map (fun x => List.filter f (g x)) l.
Proof.
  induction l as [|x l IH]; [reflexivity|].
  cbn [flat_map]. by rewrite List.filter_app, IH.
Qed.

Lemma NodeFinder_filter (check_func : expr -> bool) (node : expr) :
  NodeFinder check_func node = List.filter check_func (nodes node).
Proof.
  induction node as [t v|n|n s IHn IHs|op l r IHl IHr|op e IHe|c t f IHc IHt IHf
                     |n a IHn IHa|es IH] using expr_induction;
    cbn [NodeFinder nodes List.filter];
    rewrite ?List.filter_app, ?IHn, ?IHs, ?IHl, ?IHr, ?IHe, ?IHc, ?IHt, ?IHf.
  - by destruct (check_func _).
  - by destruct (check_func _).
  - by destruct (check_func _).
  - by destruct (check_func _).
  - by destruct (check_func _).
  - by destruct (check_func _).
  - destruct a as [a|]; [rewrite (IHa a eq_refl)|]; by destruct (check_func _).
  - rewrite filter_flat_map.
    assert (E : flat_map (NodeFinder check_func) es
                = flat_map (fun x => List.filter check_func (nodes x)) es).
    { induction IH as [|x l Hx Hl IHl]; [reflexivity|].
      cbn [flat_map]. by rewrite Hx, IHl. }
    rewrite E. by destruct (check_func _).
Qed.

(** X13: [NodeFinder(check_func).visit(node)] returns the nodes of the
    expression that satisfy [check_func], each once, in the order of a
    traversal that reaches a node before its children and the children
    from left to right. *)
Theorem NodeFinder_nodes (check_func : expr -> bool) (node : expr) :
  NodeFinder check_func node = List.filter check_func (nodes node).
Proof. apply NodeFinder_filter. Qed.

Section Divergence.
Context {T : Type} `{TypeSystemOps T}.

Lemma filter_not_nil {A} (f : A -> bool) (l : list A) :
  List.filter f l <> [] <-> exists x, x ∈ l /\ f x = true.
Proof.
  induction l as [|y l IH]; cbn [List.filter].
  - split; [congruence|]. intros (x & Hx & _). by apply elem_of_nil in Hx.
  - destruct (f y) eqn:E.
    + split; [|discriminate]. intros _. exists y. split; [by left|exact E].
    + rewrite IH. split.
      * intros (x & Hx & Hf). exists x. split; [by right|exact Hf].
      * intros (x & Hx & Hf). apply elem_of_cons in Hx as [->|Hx]; [congruence|eauto].
Qed.

(** X14: a condition is aligned-divergent (first component of
    [is_divergent]), respectively shadow-divergent (second component),
    exactly when some identifier that occurs in it, at any depth, has
    the aligned, respectively shadow, distance [*]. *)
Theorem is_divergent_star (type_system : T) (condition : expr) :
  (fst (Distances.is_divergent type_system condition) = true <->
   exists name, ID name ∈ nodes condition /\
                Distances.aligned_of (get_types type_system name) = Some "*") /\
  (snd (Distances.is_divergent type_system condition) = true <->
   exists name, ID name ∈ nodes condition /\
                Distances.shadow_of (get_types type_system name) = Some "*").
Proof.
  assert (Hside : forall is_aligned,
             negb (bool_decide
                     (NodeFinder (Distances.is_star_variable type_system is_aligned)
                                 condition = [])) = true <->
             exists name, ID name ∈ nodes condition /\
                          (if is_aligned
                           then Distances.aligned_of (get_types type_system name)
                           else Distances.shadow_of (get_types type_system name))
                          = Some "*").
  { intros is_aligned. rewrite negb_true_iff, bool_decide_eq_false.
    rewrite NodeFinder_filter, filter_not_nil. split.
    - intros (x & Hx & Hstar).
      destruct x as [|name| | | | | |]; try discriminate.
      cbn [Distances.is_star_variable] in Hstar. unfold Distances.is_star in Hstar.
      apply bool_decide_eq_true in Hstar. eauto.
    - intros (name & Hin & Hstar). exists (ID name). split; [exact Hin|].
      cbn [Distances.is_star_variable]. unfold Distances.is_star.
      by apply bool_decide_eq_true. }
  unfold Distances.is_divergent. cbn [fst snd].
  split; [apply (Hside true)|apply (Hside false)].
Qed.

End Divergence.

Section Replacer.
Context (C : constants) {T : Type} `{TypeSystemOps T}.
Context (parse : string -> expr).

(** The distance the replacer reads for a name. *)
Definition distance_of (types : T) (is_aligned : bool) (name : string) : option string :=
  if is_aligned then Distances.aligned_of (get_types types name)
  else Distances.shadow_of (get_types types name).

Definition zero_in (types : T) (is_aligned : bool) (node : expr) : Prop :=
  forall name, ID name ∈ nodes node -> distance_of types is_aligned name = Some "0".

(** No array of arrays: the name of every array reference is an
    identifier. *)
Definition named_arrays (node : expr) : Prop :=
  forall n s, ArrayRef n s ∈ nodes node -> exists name, n = ID name.

Lemma plain_sub types is_aligned node sub :
  (forall x, x ∈ nodes sub -> x ∈ nodes node) ->
  zero_in types is_aligned node -> named_arrays node ->
  zero_in types is_aligned sub /\ named_arrays sub.
Proof.
  intros Hsub Hz Hn. split.
  - intros name Hin. apply Hz, Hsub, Hin.
  - intros n s Hin. apply (Hn n s), Hsub, Hin.
Qed.

Lemma _replace_zero types is_aligned node :
  zero_in types is_aligned node -> named_arrays node ->
  Distances.is_variable node = true ->
  Distances._replace C parse types is_aligned node = Ok node.
Proof.
  intros Hz Hn Hv. unfold Distances._replace.
  assert (Hname : forall name, ID name ∈ nodes node ->
             (if is_aligned then Distances.aligned_of (get_types types name)
              else Distances.shadow_of (get_types types name)) = Some "0")
    by exact Hz.
  destruct node as [|name|n s| | | | |]; try discriminate.
  - cbn [mbind result_bind].
    rewrite (Hname name) by (cbn; left). by rewrite bool_decide_eq_true_2.
  - destruct (Hn n s) as [name ->]; [cbn; left|].
    cbn [mbind result_bind].
    rewrite (Hname name) by (cbn; right; left). by rewrite bool_decide_eq_true_2.
Qed.

Lemma operand_zero types is_aligned e :
  (zero_in types is_aligned e -> named_arrays e ->
   Distances.ExpressionReplacer C parse types is_aligned e = Ok e) ->
  zero_in types is_aligned e -> named_arrays e ->
  (if Distances.is_variable e then Distances._replace C parse types is_aligned e
   else Distances.ExpressionReplacer C parse types is_aligned e) = Ok e.
Proof.
  intros IH Hz Hn. destruct (Distances.is_variable e) eqn:Hv.
  - by apply _replace_zero.
  - by apply IH.
Qed.

Ltac sub_plain sub Hz Hn Hz' Hn' :=
  match type of Hz with
  | zero_in ?types ?is_aligned ?node =>
      destruct (plain_sub types is_aligned node sub
                  ltac:(cbn [nodes]; set_solver) Hz Hn) as [Hz' Hn']
  end.

(** X15: on an expression without arrays of arrays in which every
    identifier has the distance [0] (the aligned distance for the aligned
    version, the shadow distance for the shadow version),
    [ExpressionReplacer] returns the expression itself. *)
Theorem ExpressionReplacer_zero types is_aligned node :
  zero_in types is_aligned node -> named_arrays node ->
  Distances.ExpressionReplacer C parse types is_aligned node = Ok node.
Proof.
  induction node as [t v|n|n s IHn IHs|op l r IHl IHr|op e IHe|c t f IHc IHt IHf
                     |n a IHn IHa|es IH] using expr_induction;
    intros Hz Hn; cbn [Distances.ExpressionReplacer].
  - reflexivity.
  - reflexivity.
  - sub_plain n Hz Hn Hz1 Hn1.
    sub_plain s Hz Hn Hz2 Hn2.
    by rewrite (IHn Hz1 Hn1), (IHs Hz2 Hn2).
  - sub_plain l Hz Hn Hz1 Hn1.
    sub_plain r Hz Hn Hz2 Hn2.
    by rewrite (operand_zero _ _ _ IHl Hz1 Hn1), (operand_zero _ _ _ IHr Hz2 Hn2).
  - sub_plain e Hz Hn Hz1 Hn1.
    by rewrite (operand_zero _ _ _ IHe Hz1 Hn1).
  - sub_plain c Hz Hn Hz1 Hn1.
    sub_plain t Hz Hn Hz2 Hn2.
    sub_plain f Hz Hn Hz3 Hn3.
    by rewrite (IHc Hz1 Hn1), (IHt Hz2 Hn2), (IHf Hz3 Hn3).
  - sub_plain n Hz Hn Hz1 Hn1.
    rewrite (IHn Hz1 Hn1). cbn [mbind result_bind].
    destruct a as [a|]; [|reflexivity].
    sub_plain a Hz Hn Hz2 Hn2.
    by rewrite (IHa a eq_refl Hz2 Hn2).
  - match goal with
    | |- mbind _ (?f es) = _ =>
        assert (Hall : forall l,
                  Forall (fun e => zero_in types is_aligned e -> named_arrays e ->
                            Distances.ExpressionReplacer C parse types is_aligned e = Ok e) l ->
                  (forall x, x ∈ flat_map nodes l -> x ∈ nodes (ExprList es)) ->
                  f l = Ok l)
    end.
    { induction l as [|x l IHl]; intros Hl Hsub; [reflexivity|].
      apply Forall_cons in Hl as [Hx Hl].
      destruct (plain_sub types is_aligned (ExprList es) x
                  ltac:(intros y Hy; apply Hsub; cbn [flat_map];
                        apply elem_of_app; by left) Hz Hn)
        as [Hz1 Hn1].
      rewrite (Hx Hz1 Hn1). cbn [mbind result_bind].
      rewrite IHl; [reflexivity|exact Hl|].
      intros y Hy. apply Hsub. cbn [flat_map]. apply elem_of_app. by right. }
    rewrite (Hall es IH); [reflexivity|].
    intros x Hx. cbn [nodes]. by right.
Qed.

End Replacer.

Lemma ExpressionReplacer_zero_witness :
  Distances.ExpressionReplacer checkdp_constants Examples.parse Examples.types true
    (BinaryOp "<" (ArrayRef (ID "epsilon") (ID "size")) (UnaryOp "-" (ID "size")))
  = Ok (BinaryOp "<" (ArrayRef (ID "epsilon") (ID "size")) (UnaryOp "-" (ID "size"))).
Proof.
  apply (ExpressionReplacer_zero checkdp_constants Examples.parse Examples.types true).
  - intros name Hin. cbn [nodes app] in Hin.
    repeat (apply elem_of_cons in Hin as [Hin|Hin];
            [try discriminate; injection Hin as ->; reflexivity|]).
    by apply elem_of_nil in Hin.
  - intros n s Hin. cbn [nodes app] in Hin.
    repeat (apply elem_of_cons in Hin as [Hin|Hin];
            [try discriminate; injection Hin as -> ->; by eexists|]).
    by apply elem_of_nil in Hin.
Defined.

Section Generator.
Context (C : constants) {T : Type} `{TypeSystemOps T}.
Context (generate : expr -> string) (try_simplify : string -> string).

(** The expressions that have a distance: constants, variables, array
    references named by an identifier, a unary operator on a constant,
    and the binary operators on two such expressions. *)
Fixpoint has_distance (e : expr) : bool :=
  match e with
  | Constant _ _ | ID _ => true
  | ArrayRef (ID _) _ => true
  | UnaryOp _ (Constant _ _) => true
  | BinaryOp _ l r => has_distance l && has_distance r
  | _ => false
  end.

(** The operand at which [DistanceGenerator] gives up: a conditional, a
    call, an expression list or a unary operator on something that is
    not a constant, met before any other failure when the operands of
    the binary operators are visited from left to right. *)
Fixpoint gives_up (e : expr) : bool :=
  match e with
  | TernaryOp _ _ _ | FuncCall _ _ | ExprList _ => true
  | UnaryOp _ (Constant _ _) => false
  | UnaryOp _ _ => true
  | BinaryOp _ l r => gives_up l || (has_distance l && gives_up r)
  | _ => false
  end.

Lemma has_distance_Ok (types : T) e :
  has_distance e = true ->
  exists aligned shadow,
    Distances.DistanceGenerator C generate try_simplify types e = Ok (aligned, shadow).
Proof.
  induction e as [t v|n|n s IHn IHs|op l r IHl IHr|op e IHe|c t f IHc IHt IHf
                  |n a IHn IHa|es IH] using expr_induction;
    cbn [has_distance Distances.DistanceGenerator]; try discriminate.
  - eauto.
  - eauto.
  - destruct n; try discriminate. eauto.
  - intros [Hl Hr]%andb_prop.
    destruct (IHl Hl) as (la & ls & ->), (IHr Hr) as (ra & rs & ->).
    cbn [mbind result_bind]. eauto.
  - destruct e; try discriminate. eauto.
Qed.

(** X19: the expressions [DistanceGenerator] supports.  It returns a
    pair of distances on constants, identifiers, array references named
    by an identifier, a unary operator applied to a constant, and binary
    operators on supported operands; the distances of a constant and of a
    unary operator on a constant are [0] and [0].  It raises
    [NotImplementedError] when, going through the operands of binary
    operators from left to right, it meets a conditional expression, a
    call, an expression list or a unary operator applied to anything but
    a constant. *)
Theorem DistanceGenerator_support (types : T) (e : expr) :
  (has_distance e = true ->
   exists aligned shadow,
     Distances.DistanceGenerator C generate try_simplify types e = Ok (aligned, shadow)) /\
  (gives_up e = true ->
   exists message,
     Distances.DistanceGenerator C generate try_simplify types e
     = Raise (NotImplementedError message)) /\
  (forall t v op,
     (e = Constant t v \/ e = UnaryOp op (Constant t v)) ->
     Distances.DistanceGenerator C generate try_simplify types e
     = Ok (Some "0", Some "0")).
Proof.
  split; [apply has_distance_Ok|]. split.
  - induction e as [t v|n|n s IHn IHs|op l r IHl IHr|op e IHe|c t f IHc IHt IHf
                    |n a IHn IHa|es IH] using expr_induction;
      cbn [gives_up Distances.DistanceGenerator]; try discriminate; eauto.
    + intros [Hl|[Hl Hr]%andb_prop]%orb_prop.
      * destruct (IHl Hl) as (message & ->). cbn [mbind result_bind]. eauto.
      * destruct (has_distance_Ok types l Hl) as (la & ls & ->).
        destruct (IHr Hr) as (message & ->). cbn [mbind result_bind]. eauto.
    + destruct e; try discriminate; eauto.
  - intros t v op [-> | ->]; reflexivity.
Qed.

End Generator.

Lemma DistanceGenerator_support_witness :
  (exists aligned shadow,
     Distances.DistanceGenerator checkdp_constants Examples.generate
       Examples.try_simplify Examples.types
       (BinaryOp "+" Examples.query_0 (UnaryOp "-" (Constant "int" "1")))
     = Ok (aligned, shadow)) /\
  (exists message,
     Distances.DistanceGenerator checkdp_constants Examples.generate
       Examples.try_simplify Examples.types
       (BinaryOp "+" Examples.query_0 (UnaryOp "-" (ID "size")))
     = Raise (NotImplementedError message)).
Proof.
  split.
  - apply (proj1 (DistanceGenerator_support checkdp_constants Examples.generate
                    Examples.try_simplify Examples.types
                    (BinaryOp "+" Examples.query_0 (UnaryOp "-" (Constant "int" "1"))))).
    reflexivity.
  - apply (proj1 (proj2 (DistanceGenerator_support checkdp_constants Examples.generate
                           Examples.try_simplify Examples.types
                           (BinaryOp "+" Examples.query_0 (UnaryOp "-" (ID "size")))))).
    reflexivity.
Defined.

End UtilsSpec.

(** ** The loop level and the flag of the shadow execution

    [_loop_level] counts the loops around the node that is visited and
    [_pc] tells whether the shadow execution may have diverged.  The
    statements of a loop are emitted once the types of the loop have
    reached their fixed point: until then the visits run at a positive
    loop level and only compute types. *)

Module LevelSpec.
Import Transformer TransformerSpec.

Section Judgements.
Context {T : Type}.
Implicit Types (st : state (T := T)).

(** With [deep], the store is the same in both states. *)
Definition same_tree (deep : bool) st st' : Prop :=
  deep = true -> heap st' = heap st /\ next st' = next st.

(** Started at loop level [n], the computation ends at loop level [n'],
    and with [deep] it leaves the store as it is. *)
Definition runs (deep : bool) (n : Z) {A} (m : M (T := T) A) (n' : Z) : Prop :=
  forall st a st', _loop_level st = n -> m st = Ok (a, st') ->
                   _loop_level st' = n' /\ same_tree deep st st'.

Definition pc_kept {A} (m : M (T := T) A) : Prop :=
  forall st a st', m st = Ok (a, st') -> _pc st' = _pc st.

Lemma same_tree_refl deep st : same_tree deep st st.
Proof. intros _. split; reflexivity. Qed.

Lemma same_tree_trans deep st1 st2 st3 :
  same_tree deep st1 st2 -> same_tree deep st2 st3 -> same_tree deep st1 st3.
Proof.
  intros H1 H2 Hd. destruct (H1 Hd) as [? ?], (H2 Hd) as [? ?].
  split; congruence.
Qed.

Lemma runs_ret deep n {A} (a : A) : runs deep n (mret a) n.
Proof. intros st a' st' Hn [= <- <-]. split; [exact Hn|apply same_tree_refl]. Qed.

Lemma runs_raise deep n n' {A} (e : pyerror) : runs deep n (raise (A := A) e) n'.
Proof. intros st a st' _ [=]. Qed.

Lemma runs_bind deep n n1 n2 {A B} (m : M (T := T) A) (k : A -> M B) :
  runs deep n m n1 -> (forall a, runs deep n1 (k a) n2) -> runs deep n (m ≫= k) n2.
Proof.
  intros Hm Hk st b st' Hn Hrun.
  apply bind_Ok in Hrun as (a & st1 & H1 & H2).
  destruct (Hm _ _ _ Hn H1) as [Hn1 Ht1].
  destruct (Hk a _ _ _ Hn1 H2) as [Hn2 Ht2].
  split; [exact Hn2|]. eapply same_tree_trans; eassumption.
Qed.

Lemma runs_level deep n n' {A} (k : Z -> M (T := T) A) :
  runs deep n (k n) n' -> runs deep n (get _loop_level ≫= k) n'.
Proof.
  intros Hk st a st' Hn Hrun. unfold mbind, M_bind, get in Hrun.
  rewrite Hn in Hrun. exact (Hk _ _ _ Hn Hrun).
Qed.

Lemma runs_lift deep n {A} (r : result A) : runs deep n (lift r) n.
Proof.
  intros st a st' Hn Hrun. unfold lift in Hrun.
  destruct r; inversion Hrun; subst. split; [reflexivity|apply same_tree_refl].
Qed.

Lemma runs_get deep n {A} (f : state -> A) : runs deep n (get f) n.
Proof. intros st a st' Hn [= <- <-]. split; [exact Hn|apply same_tree_refl]. Qed.

Lemma runs_load deep n (l : loc) : runs deep n (load l) n.
Proof.
  intros st a st' Hn Hrun. unfold load in Hrun.
  destruct (heap st !! l); inversion Hrun; subst.
  split; [reflexivity|apply same_tree_refl].
Qed.

Lemma runs_modify deep n n' (f : state (T := T) -> state) :
  (forall st, heap (f st) = heap st /\ next (f st) = next st) ->
  (forall st, _loop_level st = n -> _loop_level (f st) = n') ->
  runs deep n (modify f) n'.
Proof.
  intros Hf Hl st a st' Hn [= <- <-]. split; [apply Hl, Hn|]. intros _. apply Hf.
Qed.

Lemma runs_quiet n {A} (m : M (T := T) A) : quiet m -> runs false n m n.
Proof.
  intros Hq st a st' Hn Hrun. destruct (Hq _ _ _ Hrun) as (_&_&_&_&Hl&_).
  split; [congruence|]. intros [=].
Qed.

Lemma runs_to deep n n1 n2 {A} (m : M (T := T) A) :
  runs deep n m n1 -> n1 = n2 -> runs deep n m n2.
Proof. intros Hm <-. exact Hm. Qed.

Lemma pc_kept_ret {A} (a : A) : pc_kept (mret a).
Proof. intros st a' st' [= <- <-]. reflexivity. Qed.

Lemma pc_kept_raise {A} (e : pyerror) : pc_kept (raise (A := A) e).
Proof. intros st a st' [=]. Qed.

Lemma pc_kept_bind {A B} (m : M (T := T) A) (k : A -> M B) :
  pc_kept m -> (forall a, pc_kept (k a)) -> pc_kept (m ≫= k).
Proof.
  intros Hm Hk st b st' Hrun.
  apply bind_Ok in Hrun as (a & st1 & H1 & H2).
  rewrite (Hk _ _ _ _ H2). exact (Hm _ _ _ H1).
Qed.

Lemma pc_kept_quiet {A} (m : M (T := T) A) : quiet m -> pc_kept m.
Proof. intros Hq st a st' Hrun. apply (Hq _ _ _ Hrun). Qed.

Lemma pc_kept_modify (f : state (T := T) -> state) :
  (forall st, _pc (f st) = _pc st) -> pc_kept (modify f).
Proof. intros Hf st a st' [= <- <-]. apply Hf. Qed.

(** The flag is put back at the end, whatever has been done between. *)
Lemma pc_kept_restored {A} (k : bool -> M (T := T) A) :
  pc_kept (before_pc ← get _pc; _ ← k before_pc; modify (set_pc before_pc)).
Proof.
  intros st a st' Hrun. unfold mbind at 1, M_bind at 1, get in Hrun.
  apply bind_Ok in Hrun as (r & st1 & _ & H2).
  injection H2 as <- <-. reflexivity.
Qed.

End Judgements.

Create HintDb quiet.
Create HintDb runs.
Create HintDb pcs.

#[local] Hint Resolve quiet_ret quiet_raise quiet_lift quiet_get quiet_load quiet_store
  quiet_alloc quiet_alloc_all quiet_block_items_of quiet_block_list_of quiet__insert_at
  quiet_deepcopy_list : quiet.

#[local] Hint Resolve runs_lift runs_get runs_load : runs.
#[local] Hint Extern 2 (runs _ _ (modify _) _) =>
  apply runs_modify; [intros; split; reflexivity|
                      let E := fresh in intros ? E; cbn; rewrite ?E; reflexivity] : runs.
#[local] Hint Extern 5 (runs false _ _ _) =>
  apply runs_quiet; solve [auto with quiet] : runs.

#[local] Hint Resolve pc_kept_ret pc_kept_raise : pcs.
#[local] Hint Extern 2 (pc_kept (modify _)) =>
  apply pc_kept_modify; intros; reflexivity : pcs.
#[local] Hint Extern 5 (pc_kept _) => apply pc_kept_quiet; solve [auto with quiet] : pcs.

Ltac quiet_step :=
  cbv zeta;
  lazymatch goal with
  | |- quiet (mret _) => apply quiet_ret
  | |- quiet (raise _) => apply quiet_raise
  | |- quiet (_ ≫= _) => apply quiet_bind; [|intros]
  | |- quiet (if ?b then _ else _) => destruct b
  | |- quiet (match ?x with _ => _ end) => destruct x
  | |- quiet _ => solve [auto with quiet]
  end.
Ltac quiet_auto := repeat quiet_step.

Ltac pc_step :=
  cbv zeta;
  lazymatch goal with
  | |- pc_kept (mret _) => apply pc_kept_ret
  | |- pc_kept (raise _) => apply pc_kept_raise
  | |- pc_kept (_ ≫= _) => apply pc_kept_bind; [|intros]
  | |- pc_kept (if ?b then _ else _) => destruct b
  | |- pc_kept (match ?x with _ => _ end) => destruct x
  | |- pc_kept _ => solve [auto with pcs]
  end.
Ltac pc_auto := repeat pc_step.

(** At loop level [0] nothing is claimed about the store. *)
Ltac at_level_0 :=
  lazymatch goal with
  | |- runs ?deep _ _ _ =>
      first [ is_var deep;
              destruct deep;
              [exfalso;
               repeat match goal with
                      | Hd : true = true -> _ |- _ => specialize (Hd eq_refl)
                      end; lia|]
            | idtac ]
  end.

Ltac runs_step :=
  cbv beta zeta;
  lazymatch goal with
  | |- runs _ _ (mret _) _ => apply runs_ret
  | |- runs _ _ (raise _) _ => apply runs_raise
  | |- runs _ _ (get _loop_level ≫= _) _ => apply runs_level
  | |- runs _ _ (_ ≫= _) _ => eapply runs_bind; [|intros]
  | |- runs _ ?n (if bool_decide (?n = 0) then _ else _) _ =>
      case_bool_decide; [at_level_0|]
  | |- runs _ _ (if ?b then _ else _) _ => destruct b
  | |- runs _ _ (match ?x with _ => _ end) _ => destruct x
  | |- runs _ _ _ _ => solve [eauto with runs]
  end.
Ltac runs_auto := repeat runs_step.

Section Methods.
Context (C : constants) {T : Type} `{TypeSystemOps T}.
Context (parse : string -> expr) (generate : expr -> string)
        (try_simplify expr_simplify : string -> string) (enable_shadow : bool).
Implicit Types (st : state (T := T)).

Lemma quiet_insert_first block statement : quiet (T := T) (insert_first block statement).
Proof. unfold insert_first. quiet_auto. Qed.

Lemma quiet_extend block statements : quiet (T := T) (extend block statements).
Proof. unfold extend. quiet_auto. Qed.

Lemma quiet_shadow_filter shadow_variables items :
  quiet (T := T) (shadow_filter shadow_variables items).
Proof. induction items as [|child items IH]; cbn [shadow_filter]; quiet_auto. Qed.

Lemma quiet_shadow_rewrite (types : T) items :
  quiet (shadow_rewrite C parse types items).
Proof. induction items as [|child items IH]; cbn [shadow_rewrite]; quiet_auto. Qed.

Lemma quiet_shadow_Compound shadow_variables (types : T) node :
  quiet (shadow_Compound C parse shadow_variables types node).
Proof.
  unfold shadow_Compound.
  pose proof quiet_shadow_filter. pose proof quiet_shadow_rewrite. quiet_auto.
Qed.

Lemma quiet_copy_branch fuel branch : quiet (T := T) (copy_branch fuel branch).
Proof. unfold copy_branch. quiet_auto. Qed.

Lemma quiet_build_shadow_branch fuel cond iftrue iffalse :
  quiet (T := T) (build_shadow_branch C parse fuel cond iftrue iffalse).
Proof.
  unfold build_shadow_branch.
  pose proof quiet_copy_branch. pose proof quiet_shadow_Compound. quiet_auto.
Qed.

Lemma quiet_insert_shadow_branch fuel node cond iftrue iffalse :
  quiet (T := T) (insert_shadow_branch C parse fuel node cond iftrue iffalse).
Proof.
  unfold insert_shadow_branch. pose proof quiet_build_shadow_branch. quiet_auto.
Qed.

Lemma quiet_insert_assertions node ct cf :
  quiet (T := T) (insert_assertions C node ct cf).
Proof. unfold insert_assertions. pose proof quiet_insert_first. quiet_auto. Qed.

Lemma quiet_instrument_branches iftrue iffalse (true_types false_types : T) :
  quiet (instrument_branches C parse enable_shadow iftrue iffalse true_types false_types).
Proof. unfold instrument_branches. pose proof quiet_extend. quiet_auto. Qed.

Lemma quiet_visit_If_emit fuel node cond iftrue iffalse before_pc ct cf
      (true_types false_types : T) :
  quiet (visit_If_emit C parse enable_shadow fuel node cond iftrue iffalse
                       before_pc ct cf true_types false_types).
Proof.
  unfold visit_If_emit.
  pose proof quiet_insert_shadow_branch. pose proof quiet_insert_assertions.
  pose proof quiet_instrument_branches. quiet_auto.
Qed.

(** *** The methods that visit no statement *)

Lemma runs__assign deep n variable expression node :
  (deep = true -> 1 <= n) ->
  runs deep n (_assign C parse generate try_simplify enable_shadow
                       variable expression node) n.
Proof. intros Hd. unfold _assign. runs_auto. Qed.

Lemma runs_visit_opt_expr deep n e :
  runs (T := T) deep n (visit_opt_expr C generate try_simplify e) n.
Proof. unfold visit_opt_expr. runs_auto. Qed.

Lemma runs_visit_FuncCall deep n node name args :
  (deep = true -> 1 <= n) ->
  runs (T := T) deep n (visit_FuncCall C parse generate try_simplify node name args) n.
Proof.
  intros Hd. unfold visit_FuncCall. pose proof runs_visit_opt_expr. runs_auto.
Qed.

Lemma runs_visit_Decl_sample deep n node name type args :
  (deep = true -> 1 <= n) ->
  runs (T := T) deep n (visit_Decl_sample C parse generate expr_simplify enable_shadow
                                          node name type args) n.
Proof. intros Hd. unfold visit_Decl_sample. runs_auto. Qed.

Lemma runs_visit_Decl deep n node name type init :
  (deep = true -> 1 <= n) ->
  runs (T := T) deep n (visit_Decl C parse generate try_simplify expr_simplify
                                   enable_shadow node name type init) n.
Proof.
  intros Hd. unfold visit_Decl.
  pose proof (runs__assign deep n). pose proof (runs_visit_Decl_sample deep n).
  destruct type; [|runs_auto..].
  destruct init as [[]|]; runs_auto.
Qed.

Lemma pc_kept__assign variable expression node :
  pc_kept (T := T) (_assign C parse generate try_simplify enable_shadow
                            variable expression node).
Proof. unfold _assign. pc_auto. Qed.

Lemma pc_kept_visit_opt_expr e :
  pc_kept (T := T) (visit_opt_expr C generate try_simplify e).
Proof. unfold visit_opt_expr. pc_auto. Qed.

Lemma pc_kept_visit_FuncCall node name args :
  pc_kept (T := T) (visit_FuncCall C parse generate try_simplify node name args).
Proof. unfold visit_FuncCall. pose proof pc_kept_visit_opt_expr. pc_auto. Qed.

Lemma pc_kept_visit_Decl_sample node name type args :
  pc_kept (T := T) (visit_Decl_sample C parse generate expr_simplify enable_shadow
                                      node name type args).
Proof. unfold visit_Decl_sample. pc_auto. Qed.

Lemma pc_kept_visit_Decl node name type init :
  pc_kept (T := T) (visit_Decl C parse generate try_simplify expr_simplify
                               enable_shadow node name type init).
Proof.
  unfold visit_Decl. pose proof pc_kept__assign. pose proof pc_kept_visit_Decl_sample.
  destruct type; [|pc_auto..].
  destruct init as [[]|]; pc_auto.
Qed.

(** *** The methods that visit statements *)

Definition visits (deep : bool) (visit : loc -> M (T := T) unit) : Prop :=
  forall n l, (deep = true -> 1 <= n) -> runs deep n (visit l) n.

Lemma runs_visit_children deep visit n node items :
  visits deep visit -> (deep = true -> 1 <= n) ->
  runs deep n (visit_children visit node items) n.
Proof.
  intros Hvisit Hd. induction items as [|child items IH]; cbn [visit_children].
  - apply runs_ret.
  - pose proof (Hvisit n child Hd). runs_auto.
Qed.

Lemma runs_visit_If_branches deep visit n cond iftrue iffalse :
  visits deep visit -> (deep = true -> 1 <= n) ->
  runs deep n (visit_If_branches C parse enable_shadow visit cond iftrue iffalse) n.
Proof.
  intros Hvisit Hd. unfold visit_If_branches.
  pose proof (fun l => Hvisit n l Hd). runs_auto.
Qed.

Lemma runs_visit_If deep visit n fuel node cond iftrue iffalse :
  visits deep visit -> (deep = true -> 1 <= n) ->
  runs deep n (visit_If C parse enable_shadow visit fuel node cond iftrue iffalse) n.
Proof.
  intros Hvisit Hd. unfold visit_If.
  pose proof (runs_visit_If_branches deep visit n cond iftrue iffalse Hvisit Hd).
  pose proof quiet_visit_If_emit.
  runs_auto.
Qed.

Lemma runs_visit_While_children deep visit n cond stmt :
  visits deep visit -> (deep = true -> 1 <= n) ->
  runs deep n (visit_While_children C generate try_simplify visit cond stmt) n.
Proof.
  intros Hvisit Hd. unfold visit_While_children.
  pose proof (Hvisit n stmt Hd). pose proof runs_visit_opt_expr. runs_auto.
Qed.

Lemma runs_fixed_point deep visit n cond stmt bound fixed_types :
  visits deep visit -> (deep = true -> 1 <= n) ->
  runs deep n (fixed_point C generate try_simplify visit cond stmt bound fixed_types) n.
Proof.
  intros Hvisit Hd. revert fixed_types.
  pose proof (runs_visit_While_children deep visit n cond stmt Hvisit Hd).
  induction bound as [bound IH] using (well_founded_induction lt_wf).
  intros fixed_types. destruct bound as [|[|bound]]; cbn [fixed_point].
  - runs_auto.
  - destruct fixed_types; runs_auto.
  - assert (IH' : forall fixed_types,
               runs deep n (fixed_point C generate try_simplify visit cond stmt
                                        bound fixed_types) n).
    { intros. apply IH. lia. }
    destruct fixed_types; runs_auto.
Qed.

Lemma runs_visit_While_emit visit n node cond stmt (before_types fixed_types : T) :
  visits false visit ->
  runs false n (visit_While_emit C parse generate try_simplify enable_shadow visit
                                 node cond stmt before_types fixed_types) n.
Proof.
  intros Hvisit. unfold visit_While_emit.
  assert (Hd : false = true -> 1 <= n) by discriminate.
  pose proof (runs_visit_While_children false visit n cond stmt Hvisit Hd).
  pose proof quiet_insert_first. pose proof quiet_extend.
  runs_auto.
Qed.

Lemma runs_visit_While deep visit n fuel node cond stmt :
  visits deep visit -> (deep = true -> 1 <= n) ->
  runs deep n (visit_While C parse generate try_simplify enable_shadow visit fuel
                           node cond stmt) n.
Proof.
  intros Hvisit Hd. unfold visit_While.
  assert (Hd' : deep = true -> 1 <= n + 1) by (intros Ht; specialize (Hd Ht); lia).
  pose proof (runs_fixed_point deep visit (n + 1) cond stmt fuel None Hvisit Hd').
  pose proof runs_visit_While_emit.
  apply runs_to with (n1 := n + 1 - 1); [|lia].
  runs_auto.
Qed.

Lemma runs_visit_node deep visit n fuel node :
  visits deep visit -> (deep = true -> 1 <= n) ->
  runs deep n (visit_node C parse generate try_simplify expr_simplify enable_shadow
                          visit fuel node) n.
Proof.
  intros Hvisit Hd. unfold visit_node.
  eapply runs_bind; [apply runs_load|]. intros o.
  destruct o as [op lv rv|name t i|cond t f|cond b|items|e|e|name ps b].
  - apply runs__assign, Hd.
  - apply runs_visit_Decl, Hd.
  - apply runs_visit_If; assumption.
  - apply runs_visit_While; assumption.
  - destruct items; [|apply runs_raise]. apply runs_visit_children; assumption.
  - destruct e; try apply runs_visit_opt_expr. apply runs_visit_FuncCall, Hd.
  - apply runs_visit_opt_expr.
  - apply runs_raise.
Qed.

Lemma runs_visit deep fuel :
  visits deep (visit C parse generate try_simplify expr_simplify enable_shadow fuel).
Proof.
  induction fuel as [|fuel IH]; intros n node Hd; cbn [visit].
  - apply runs_raise.
  - apply runs_visit_node; assumption.
Qed.

Definition keeps_pc (visit : loc -> M (T := T) unit) : Prop :=
  forall l, pc_kept (visit l).

Lemma pc_kept_visit_children visit node items :
  keeps_pc visit -> pc_kept (visit_children visit node items).
Proof.
  intros Hvisit. induction items as [|child items IH]; cbn [visit_children].
  - apply pc_kept_ret.
  - pose proof (Hvisit child). pc_auto.
Qed.

Lemma pc_kept_visit_If visit fuel node cond iftrue iffalse :
  pc_kept (visit_If C parse enable_shadow visit fuel node cond iftrue iffalse).
Proof.
  intros st a st' Hrun. unfold visit_If in Hrun.
  apply bind_Ok in Hrun as (before_pc & st0 & Hget & Hrun). injection Hget as <- <-.
  apply bind_Ok in Hrun as ([[[ct cf] tt_] ft] & st1 & _ & Hrun).
  cbv beta iota zeta in Hrun.
  apply bind_Ok in Hrun as (lvl & st2 & _ & Hrun).
  apply bind_Ok in Hrun as (u & st3 & _ & Hrun).
  injection Hrun as <- <-. reflexivity.
Qed.

Lemma pc_kept_visit_While visit fuel node cond stmt :
  pc_kept (visit_While C parse generate try_simplify enable_shadow visit fuel
                       node cond stmt).
Proof.
  intros st a st' Hrun. unfold visit_While in Hrun.
  apply bind_Ok in Hrun as (before_pc & st0 & Hget & Hrun). injection Hget as <- <-.
  do 7 (let x := fresh in let st1 := fresh in
        apply bind_Ok in Hrun as (x & st1 & _ & Hrun)).
  injection Hrun as <- <-. reflexivity.
Qed.

Lemma pc_kept_visit fuel node :
  pc_kept (visit C parse generate try_simplify expr_simplify enable_shadow fuel node).
Proof.
  revert node. induction fuel as [|fuel IH]; intros node; cbn [visit].
  - apply pc_kept_raise.
  - unfold visit_node. apply pc_kept_bind; [apply pc_kept_quiet, quiet_load|].
    intros o.
    destruct o as [op lv rv|name t i|cond t f|cond b|items|e|e|name ps b].
    + apply pc_kept__assign.
    + apply pc_kept_visit_Decl.
    + apply pc_kept_visit_If.
    + apply pc_kept_visit_While.
    + destruct items; [|apply pc_kept_raise]. apply pc_kept_visit_children. exact IH.
    + destruct e; try apply pc_kept_visit_opt_expr. apply pc_kept_visit_FuncCall.
    + apply pc_kept_visit_opt_expr.
    + apply pc_kept_raise.
Qed.

(** X16: inside a loop the visit of a statement changes no object of
    the tree and creates none: when [_loop_level] is at least [1] and
    [visit] returns, the store is the one it started with. *)
Theorem visit_in_loop (fuel : nat) (node : loc) (st st' : state (T := T)) :
  1 <= _loop_level st ->
  visit C parse generate try_simplify expr_simplify enable_shadow fuel node st
  = Ok (tt, st') ->
  heap st' = heap st /\ next st' = next st.
Proof.
  intros Hlevel Hrun.
  destruct (runs_visit true fuel (_loop_level st) node (fun _ => Hlevel)
              st tt st' eq_refl Hrun) as [_ Htree].
  apply Htree. reflexivity.
Qed.

(** X17: a visit that returns leaves [_loop_level] and [_pc] as it found
    them, at every loop level. *)
Theorem visit_restores (fuel : nat) (node : loc) (st st' : state (T := T)) :
  visit C parse generate try_simplify expr_simplify enable_shadow fuel node st
  = Ok (tt, st') ->
  _loop_level st' = _loop_level st /\ _pc st' = _pc st.
Proof.
  intros Hrun. split.
  - assert (Hd : false = true -> 1 <= _loop_level st) by discriminate.
    apply (runs_visit false fuel (_loop_level st) node Hd st tt st' eq_refl Hrun).
  - apply (pc_kept_visit fuel node st tt st' Hrun).
Qed.

End Methods.

Lemma visit_in_loop_witness :
  exists st',
    visit checkdp_constants Examples.parse Examples.generate Examples.try_simplify
          Examples.expr_simplify false 5 1%nat
          (set_loop_level 1 Examples.sampling_block)
    = Ok (tt, st') /\
    heap st' = heap (set_loop_level 1 Examples.sampling_block) /\
    next st' = next (set_loop_level 1 Examples.sampling_block).
Proof.
  eexists. split; [vm_compute; reflexivity|].
  apply (visit_in_loop checkdp_constants Examples.parse Examples.generate
           Examples.try_simplify Examples.expr_simplify false 5 1%nat
           (set_loop_level 1 Examples.sampling_block)).
  - cbn. lia.
  - vm_compute. reflexivity.
Defined.

(** The visit of a block that holds a loop around a branch on the
    query, under shadow execution: the loop raises [_loop_level] while
    its types are iterated, and the branch sets [_pc], its condition
    being shadow-divergent. *)
Lemma visit_restores_witness :
  exists st',
    visit checkdp_constants Examples.parse Examples.generate Examples.try_simplify
          Examples.expr_simplify true 10 5%nat Examples.loop_block
    = Ok (tt, st') /\
    _loop_level st' = _loop_level Examples.loop_block /\
    _pc st' = _pc Examples.loop_block.
Proof.
  eexists. split; [vm_compute; reflexivity|].
  apply (visit_restores checkdp_constants Examples.parse Examples.generate
           Examples.try_simplify Examples.expr_simplify true 10 5%nat
           Examples.loop_block).
  vm_compute. reflexivity.
Defined.

End LevelSpec.

(** ** T-If: what [visit_If] emits *)

Module BranchSpec.
Import Transformer TransformerSpec InstrumentSpec.

Section Run.
Context {T : Type}.
Implicit Types (st : state (T := T)).

(** The state after the creation of the objects [os]. *)
Fixpoint allocs (os : list obj) st : state :=
  match os with
  | [] => st
  | o :: os =>
      allocs os (set_next (S (next st)) (set_heap (<[next st := o]> (heap st)) st))
  end.






Lemma allocated_store st l o :
  allocated st -> (l < next st)%nat ->
  allocated (set_heap (<[l := o]> (heap st)) st).
Proof.
  intros Ha Hl k o'. state_fields. destruct (decide (k = l)) as [->|Hne].
  - intros _. exact Hl.
  - rewrite lookup_insert_ne by auto. apply Ha.
Qed.

Lemma allocated_alloc st o :
  allocated st ->
  allocated (set_next (S (next st)) (set_heap (<[next st := o]> (heap st)) st)).
Proof.
  intros Ha k o'. state_fields. destruct (decide (k = next st)) as [->|Hne].
  - intros _. lia.
  - rewrite lookup_insert_ne by auto. intros Hk. apply Ha in Hk. lia.
Qed.

Lemma allocated_allocs os st : allocated st -> allocated (allocs os st).
Proof.
  revert st. induction os as [|o os IH]; intros st Ha; cbn [allocs]; [exact Ha|].
  apply IH, allocated_alloc, Ha.
Qed.

Lemma stored_agree st st' ls os :
  stored st ls os -> (forall l, l ∈ ls -> heap st' !! l = heap st !! l) ->
  stored st' ls os.
Proof.
  induction 1 as [|l o ls os Hl Hrest IH]; intros Hag; constructor.
  - rewrite Hag by (left). exact Hl.
  - apply IH. intros k Hk. apply Hag. by right.
Qed.

Lemma stored_allocated st ls os l :
  allocated st -> stored st ls os -> l ∈ ls -> (l < next st)%nat.
Proof.
  intros Ha Hs Hl. induction Hs as [|k o ls os Hk Hrest IH].
  - by apply elem_of_nil in Hl.
  - apply elem_of_cons in Hl as [->|Hl]; [eapply Ha, Hk|auto].
Qed.






End Run.

Section Emit.
Context (C : constants) {T : Type} `{TypeSystemOps T}.
Context (parse : string -> expr) (generate : expr -> string)
        (try_simplify expr_simplify : string -> string) (enable_shadow : bool).
Implicit Types (st : state (T := T)).







End Emit.


End BranchSpec.

(** ** T-Asgn: what [_assign] emits *)

Module AssignmentSpec.
Import Transformer TransformerSpec InstrumentSpec BranchSpec.

Section Lists.

Lemma index_of_split (node : loc) items i :
  index_of node items = Some i ->
  items = take i items ++ node :: drop (S i) items /\
  length (take i items) = i /\ node ∉ take i items.
Proof.
  revert i. induction items as [|x items IH]; intros i; cbn [index_of]; [discriminate|].
  case_bool_decide as Hx.
  - intros [= <-]. subst x. cbn. split; [reflexivity|]. split; [reflexivity|].
    apply not_elem_of_nil.
  - destruct (index_of node items) as [j|] eqn:Hj; [|discriminate].
    intros [= <-]. destruct (IH j eq_refl) as (Hitems & Hlen & Hnot).
    cbn [take drop app length]. split; [f_equal; exact Hitems|].
    split; [f_equal; exact Hlen|].
    intros [Heq|Hin]%elem_of_cons; [congruence|auto].
Qed.

Lemma index_of_app (node : loc) pre rest :
  node ∉ pre -> index_of node (pre ++ node :: rest) = Some (length pre).
Proof.
  induction pre as [|x pre IH]; intros Hnot; cbn [index_of app length].
  - rewrite bool_decide_eq_true_2 by reflexivity. reflexivity.
  - apply not_elem_of_cons in Hnot as [Hne Hnot].
    rewrite bool_decide_eq_false_2 by congruence. rewrite (IH Hnot). reflexivity.
Qed.

Lemma take_S_app (node : loc) pre post :
  take (S (length pre)) (pre ++ node :: post) = pre ++ [node].
Proof. induction pre as [|x pre IH]; cbn; [by rewrite take_0|by f_equal]. Qed.

Lemma drop_S_app (node : loc) pre post :
  drop (S (length pre)) (pre ++ node :: post) = post.
Proof. induction pre as [|x pre IH]; cbn; [by rewrite drop_0|assumption]. Qed.

End Lists.

Section Insert.
Context {T : Type}.
Implicit Types (st : state (T := T)).

(** The creation of a statement and its insertion beside [node]. *)
Lemma optional_insert (b after : bool) (o : obj) node parent pre post st :
  _parents st !! node = Some parent ->
  heap st !! parent = Some (OCompound (Some (pre ++ node :: post))) ->
  node ∉ pre -> allocated st ->
  exists st' ls,
    (if b then l ← alloc o; _insert_at node [l] after else mret tt) st = Ok (tt, st') /\
    heap st' !! parent
    = Some (OCompound (Some (if after then pre ++ node :: ls ++ post
                             else pre ++ ls ++ node :: post))) /\
    stored st' ls (if b then [o] else []) /\
    Forall (fun l : loc => (next st <= l)%nat) ls /\
    (forall l : loc, (l < next st)%nat -> l <> parent -> heap st' !! l = heap st !! l) /\
    same_attributes st st' /\ allocated st' /\ (next st <= next st')%nat.
Proof.
  intros Hp Hitems Hnot Ha.
  assert (Hpn : (parent < next st)%nat) by (eapply Ha; eassumption).
  destruct b.
  - rewrite run_alloc.
    set (st1 := set_next (S (next st)) (set_heap (<[next st := o]> (heap st)) st)).
    assert (Hitems1 : heap st1 !! parent = Some (OCompound (Some (pre ++ node :: post)))).
    { unfold st1. state_fields. rewrite lookup_insert_ne by lia. exact Hitems. }
    rewrite (run__insert_at node parent (pre ++ node :: post) [next st] after
               (length pre) st1 Hp Hitems1 (index_of_app node pre post Hnot)).
    eexists _, [next st]. split; [reflexivity|].
    assert (Ha1 : allocated st1) by (apply allocated_alloc, Ha).
    split; [|split; [|split; [|split; [|split; [|split]]]]].
    + state_fields. rewrite lookup_insert_eq. do 3 f_equal.
      destruct after.
      * rewrite take_S_app, drop_S_app, <- app_assoc. reflexivity.
      * rewrite take_app_length, drop_app_length. reflexivity.
    + constructor; [|constructor]. state_fields.
      rewrite lookup_insert_ne by lia. unfold st1. state_fields.
      apply lookup_insert_eq.
    + repeat constructor.
    + intros l Hl Hne. state_fields. rewrite lookup_insert_ne by auto.
      unfold st1. state_fields. apply lookup_insert_ne. lia.
    + repeat split.
    + apply allocated_store; [exact Ha1|]. unfold st1. state_fields. lia.
    + state_fields. unfold st1. state_fields. lia.
  - exists st, []. split; [reflexivity|].
    split; [destruct after; exact Hitems|].
    repeat split; auto using same_attributes_refl; constructor.
Qed.

(** The shadow part of [_assign] at loop level 0: under a diverged
    shadow execution the shadow distance is updated before the statement,
    otherwise it is set after it when it is tracked. *)
Lemma shadow_insert (enable_shadow pc track_shadow : bool) (o_before o_after : obj)
      node parent pre post st :
  _parents st !! node = Some parent ->
  heap st !! parent = Some (OCompound (Some (pre ++ node :: post))) ->
  node ∉ pre -> allocated st ->
  exists st' before after,
    (if enable_shadow then
       if pc then l ← alloc o_before; _insert_at node [l] false
       else if track_shadow then l ← alloc o_after; _insert_at node [l] true
            else mret tt
     else mret tt) st = Ok (tt, st') /\
    heap st' !! parent
    = Some (OCompound (Some (pre ++ before ++ node :: after ++ post))) /\
    stored st' before (if enable_shadow && pc then [o_before] else []) /\
    stored st' after (if enable_shadow && negb pc && track_shadow then [o_after] else []) /\
    (forall l : loc, (l < next st)%nat -> l <> parent -> heap st' !! l = heap st !! l) /\
    same_attributes st st'.
Proof.
  intros Hp Hitems Hnot Ha.
  destruct enable_shadow; [destruct pc; [|destruct track_shadow]|].
  - destruct (optional_insert true false o_before node parent pre post st
                Hp Hitems Hnot Ha)
      as (st' & ls & Hrun & Hh & Hs & _ & Hf & Hat & _ & _).
    exists st', ls, []. split; [exact Hrun|]. split; [exact Hh|].
    split; [exact Hs|]. split; [constructor|]. split; assumption.
  - destruct (optional_insert true true o_after node parent pre post st
                Hp Hitems Hnot Ha)
      as (st' & ls & Hrun & Hh & Hs & _ & Hf & Hat & _ & _).
    exists st', [], ls. split; [exact Hrun|]. split; [exact Hh|].
    split; [constructor|]. split; [exact Hs|]. split; assumption.
  - exists st, [], []. split; [reflexivity|]. split; [exact Hitems|].
    repeat split; auto; constructor.
  - exists st, [], []. split; [reflexivity|]. split; [exact Hitems|].
    repeat split; auto; constructor.
Qed.

End Insert.

Section Assign.
Context (C : constants) {T : Type} `{TypeSystemOps T}.
Context (parse : string -> expr) (generate : expr -> string)
        (try_simplify : string -> string) (enable_shadow : bool).
Implicit Types (st : state (T := T)).

(** X20: T-Asgn at loop level 0, on the assignment to a variable, or
    its declaration, that is a statement of a block.  When the aligned distance of the assigned
    expression is not [0], or the variable is already tracked, the
    statement that sets the aligned distance variable follows the
    assignment, and the aligned distance of the variable becomes [*];
    otherwise nothing is emitted for it and the distance becomes [0].
    Under shadow execution, a diverged shadow execution gets the update
    of the shadow distance variable before the assignment; otherwise the
    statement that sets it follows the assignment (before the one of the
    aligned distance) when it is tracked.  Nothing else changes in the
    tree. *)
Theorem assignment_emits st node name expression aligned shadow parent items i :
  Distances.DistanceGenerator C generate try_simplify (_type_system st) expression
  = Ok (aligned, shadow) ->
  _loop_level st = 0 ->
  allocated st ->
  _parents st !! node = Some parent ->
  heap st !! parent = Some (OCompound (Some items)) ->
  index_of node items = Some i ->
  let tys := get_types (_type_system st) name in
  let track_aligned :=
    bool_decide (Distances.aligned_of tys = Some "*")
    || negb (bool_decide (aligned = Some "0")) in
  let track_shadow :=
    bool_decide (Distances.shadow_of tys = Some "*")
    || negb (bool_decide (shadow = Some "0")) in
  let shadow_variable := ID (SHADOW_DISTANCE C +:+ "_" +:+ name) in
  exists st' before after,
    _assign C parse generate try_simplify enable_shadow (ID name) expression node st
    = Ok (tt, st') /\
    heap st' !! parent
    = Some (OCompound (Some (take i items ++ before ++ node :: after
                             ++ drop (S i) items))) /\
    stored st' before
      (if enable_shadow && _pc st
       then [OAssignment "=" shadow_variable
               (BinaryOp "-" (BinaryOp "+" (ID name) shadow_variable) expression)]
       else []) /\
    stored st' after
      ((if enable_shadow && negb (_pc st) && track_shadow
        then [assign_text parse (SHADOW_DISTANCE C +:+ "_" +:+ name)
                          (Distances.pystr shadow)]
        else [])
       ++ (if track_aligned
           then [assign_text parse (ALIGNED_DISTANCE C +:+ "_" +:+ name)
                             (Distances.pystr aligned)]
           else [])) /\
    (forall l : loc, (l < next st)%nat -> l <> parent -> heap st' !! l = heap st !! l) /\
    _type_system st'
    = update_distance (_type_system st) name
        (star_or_zero track_aligned) (star_or_zero (_pc st || track_shadow)).
Proof.
  intros HDG Hlevel Ha Hp Hitems Hindex tys track_aligned track_shadow
         shadow_variable.
  destruct (index_of_split _ _ _ Hindex) as (Hsplit & Hlen & Hnot).
  assert (Hpn : (parent < next st)%nat) by (eapply Ha; eassumption).
  assert (Hitems' : heap st !! parent
                    = Some (OCompound (Some (take i items ++ node :: drop (S i) items))))
    by (rewrite <- Hsplit; exact Hitems).
  destruct (optional_insert track_aligned true
              (assign_text parse (ALIGNED_DISTANCE C +:+ "_" +:+ name)
                           (Distances.pystr aligned))
              node parent (take i items) (drop (S i) items) st Hp Hitems' Hnot Ha)
    as (st1 & ls1 & H1 & Hh1 & Hs1 & Hge1 & Hf1 & Hat1 & Ha1 & Hn1).
  assert (Hp1 : _parents st1 !! node = Some parent).
  { destruct Hat1 as (_ & _ & _ & -> & _). exact Hp. }
  destruct (shadow_insert enable_shadow (_pc st) track_shadow
              (OAssignment "=" shadow_variable
                 (BinaryOp "-" (BinaryOp "+" (ID name) shadow_variable) expression))
              (assign_text parse (SHADOW_DISTANCE C +:+ "_" +:+ name)
                           (Distances.pystr shadow))
              node parent (take i items) (ls1 ++ drop (S i) items) st1 Hp1 Hh1 Hnot Ha1)
    as (st2 & before & after & H2 & Hh2 & Hsb & Hsa & Hf2 & Hat2).
  eexists _, before, (after ++ ls1).
  split.
  { unfold _assign. cbn [variable_name_of]. rewrite run_lift, run_get, HDG, run_lift.
    cbv beta iota zeta. rewrite !run_get.
    rewrite Hlevel, (bool_decide_eq_true_2 (0 = 0) eq_refl).
    rewrite run_assoc.
    subst tys track_aligned track_shadow shadow_variable.
    rewrite (bind_eq _ _ _ _ _ H1). rewrite (bind_eq _ _ _ _ _ H2). reflexivity. }
  state_fields.
  split; [rewrite Hh2, <- app_assoc; reflexivity|].
  split; [exact Hsb|].
  split.
  { apply Forall2_app; [exact Hsa|].
    apply (stored_agree st1); [exact Hs1|].
    intros l Hl. apply Hf2; [eapply stored_allocated; eassumption|].
    rewrite Forall_forall in Hge1. specialize (Hge1 l Hl). lia. }
  split.
  { intros l Hl Hne. rewrite Hf2 by (auto; lia). apply Hf1; assumption. }
  destruct Hat1 as (Hts1 & _), Hat2 as (Hts2 & _).
  rewrite Hts2, Hts1. subst track_aligned track_shadow tys.
  f_equal; f_equal;
    destruct (bool_decide (Distances.aligned_of _ = _)), (bool_decide (aligned = _)),
             (bool_decide (Distances.shadow_of _ = _)), (bool_decide (shadow = _)),
             (_pc st); reflexivity.
Qed.

End Assign.

Lemma assignment_emits_witness :
  exists st' before after,
    _assign checkdp_constants Examples.parse Examples.generate Examples.try_simplify
            true (ID "size") Examples.query_0_plus_1 O Examples.assignment_block
    = Ok (tt, st') /\
    heap st' !! 1%nat = Some (OCompound (Some (before ++ O :: after ++ []))) /\
    stored st' before [] /\
    stored st' after
      [assign_text Examples.parse "CHECKDP_SHADOW_DISTANCE_size"
                   "(CHECKDP_SHADOW_DISTANCE_query[0]) + 0";
       assign_text Examples.parse "CHECKDP_ALIGNED_DISTANCE_size"
                   "(CHECKDP_ALIGNED_DISTANCE_query[0]) + 0"] /\
    (forall l : loc, (l < 2)%nat -> l <> 1%nat ->
                     heap st' !! l = heap Examples.assignment_block !! l) /\
    _type_system st' = update_distance Examples.types "size" (Some "*") (Some "*").
Proof.
  destruct (assignment_emits checkdp_constants Examples.parse Examples.generate
              Examples.try_simplify true Examples.assignment_block O "size"
              Examples.query_0_plus_1
              (Some "(CHECKDP_ALIGNED_DISTANCE_query[0]) + 0")
              (Some "(CHECKDP_SHADOW_DISTANCE_query[0]) + 0") 1%nat [O] O)
    as (st' & before & after & Hrun & Hheap & Hbefore & Hafter & Hframe & Htypes).
  - vm_compute. reflexivity.
  - reflexivity.
  - apply allocatedb_true. vm_compute. reflexivity.
  - vm_compute. reflexivity.
  - vm_compute. reflexivity.
  - vm_compute. reflexivity.
  - exists st', before, after.
    split; [exact Hrun|]. split; [exact Hheap|]. split; [exact Hbefore|].
    split; [exact Hafter|]. split; [exact Hframe|exact Htypes].
Defined.

End AssignmentSpec.
